(** * Entwine: chunk storage and query read path

    A shallow embedding of [entwine/tree/branches/chunk.cpp],
    [entwine/reader/chunk-reader.cpp] and [entwine/reader/query.cpp],
    followed by the properties of the chunk blob format, the chunk factory,
    the tick-sorted chunk reader and the query driver.

    Conventions.
    - [std::size_t] and [uint64_t] values are integers in [Z]; every C++
      operation that can wrap is written with [wrap] (reduction modulo 2^64).
    - [char] buffers are [list byte]; [memcpy] of a 64-bit integer is the
      little-endian split of a little-endian host.
    - Code that throws returns [Err (Throw msg)]; a failed [assert], a read or
      write outside a buffer and an iterator run past its end are
      [Err Undefined]; a loop that exhausts its fuel is [Err OutOfFuel].
    - Collaborators whose code is outside these files (the compression codec,
      the point table, the tick function, the cache) are interfaces given as
      type classes, with their contracts in separate [..Ok] classes. *)

From Stdlib Require Import ZArith List String Lia QArith Permutation Sorted.
From stdpp Require Import base gmap list pretty strings sorting.
From coqutil Require Import Byte Word.LittleEndianList.
Import ListNotations.

Local Open Scope Z_scope.

(* ===================================================================== *)
(** * Part I: the embedding                                              *)
(* ===================================================================== *)

(** ** Outcomes of fallible code *)

Inductive error : Type :=
| Throw (msg : string)   (* throw std::runtime_error(msg) *)
| Undefined              (* failed assert / out-of-bounds access *)
| OutOfFuel.             (* the loop did not finish within the fuel *)

Inductive result (A : Type) : Type :=
| Ok (a : A)
| Err (e : error).
Arguments Ok {A} a.
Arguments Err {A} e.

Global Instance result_ret : MRet result := fun _ a => Ok a.
Global Instance result_bind : MBind result := fun _ _ k r =>
  match r with
  | Ok a => k a
  | Err e => Err e
  end.
Global Instance result_fmap : FMap result := fun _ _ f r =>
  match r with
  | Ok a => Ok (f a)
  | Err e => Err e
  end.

(** Monadic map over a list, left to right, stopping at the first error. *)
Fixpoint rmapM {A B} (f : A -> result B) (l : list A) : result (list B) :=
  match l with
  | [] => Ok []
  | x :: l' => y ← f x; ys ← rmapM f l'; Ok (y :: ys)
  end.

(** ** Machine integers *)

Definition wrap (z : Z) : Z := z mod 2 ^ 64.

Definition sizeof_size_t : Z := 8.
Definition sizeof_uint64_t : Z := 8.

(** [std::memcpy(dst, &n, sizeof(uint64_t))] and its inverse. *)
Definition store_u64 (n : Z) : list byte := le_split 8 n.
Definition load_u64 (bs : list byte) : Z := le_combine (take 8 bs).

(** Integer promotion of a (signed) [char]. *)
Definition char_to_int (c : byte) : Z :=
  let u := byte.unsigned c in
  if u <? 128 then u else u - 256.

(** [std::to_string] of a [size_t]. *)
Definition to_string (n : Z) : string := pretty n.

(** Number of leading elements satisfying [p]: the position returned by a
    [lower_bound]/[upper_bound] search over a range partitioned by [p]. *)
Fixpoint partition_point {A} (p : A -> bool) (l : list A) : nat :=
  match l with
  | [] => O
  | x :: l' => if p x then S (partition_point p l') else O
  end.

(** ** Schema *)

(** Modelled from the spec: [DimInfo] and [Schema] ([types/schema.hpp] is not
    among the sources).  A schema is an ordered list of dimensions (name,
    scalar type, byte size) and [pointSize] is the sum of the sizes. *)
Record DimInfo : Type := mkDimInfo {
  dim_name : string;
  dim_type : string;
  dim_size : N
}.

Definition DimList : Type := list DimInfo.

Record Schema : Type := mkSchema { dims : DimList }.

Definition pointSize (s : Schema) : Z :=
  Z.of_N (foldr (fun d acc => (dim_size d + acc)%N) 0%N (dims s)).

(** Modelled from the spec: the [ChunkType] enumeration ([chunk.hpp] is not
    among the sources); marker values [Sparse = 0x00], [Contiguous = 0x01]. *)
Inductive ChunkType : Type := Sparse | Contiguous.

Definition ChunkType_value (t : ChunkType) : Z :=
  match t with
  | Sparse => 0
  | Contiguous => 1
  end.

(** [push_back(Sparse)]: the enumerator converted to [char]. *)
Definition ChunkType_char (t : ChunkType) : byte :=
  byte.of_Z (ChunkType_value t).

(** ** External collaborators of chunk.cpp *)

(** [Compression::compress(data, size, schema)] and
    [Compression::decompress(data, schema, decompressedSize)]. *)
Class Compression : Type := {
  compress : list byte -> Schema -> list byte;
  decompress : list byte -> Schema -> Z -> result (list byte)
}.

(** Contract of the codec (spec 4.9): decompressing a compressed buffer with
    its known size gives the bytes back. *)
Class CompressionOk `{Compression} : Prop := {
  decompress_compress :
    forall data schema,
      decompress (compress data schema) schema (Z.of_nat (length data))
      = Ok data
}.

(** [SinglePointTable]/[LinkingPointView::getFieldAs<double>] on the X and Y
    dimensions of one record, and [Point::exists]. *)
Class PointView : Type := {
  Coord : Type;
  getFieldAs_X : Schema -> list byte -> Coord;
  getFieldAs_Y : Schema -> list byte -> Coord;
  Point_exists : Coord -> Coord -> bool
}.

(** [Source]: a blob store, [put] by name. *)
Abbreviation Source := (gmap string (list byte)).

Definition Source_put (source : Source) (name : string) (data : list byte)
  : Source := <[name := data]> source.

Section ChunkCpp.
Context `{Cmp : Compression} `{PV : PointView}.

Record Point : Type := mkPoint { px : Coord; py : Coord }.

(** [Entry]: the atomic point slot.  The raw-data pointer of an entry is
    the byte slice it is paired with below; the mutex has no sequential
    content. *)
Record Entry : Type := mkEntry { m_point : option Point }.

(** *** Namespace-local helpers *)

(** [getThreshold]: both operands are [std::size_t], so the division is the
    integer division; its quotient is then converted to [double].  The
    returned double is represented by the rational it denotes (the
    conversion is exact below 2^53). *)
Definition getThreshold (schema : Schema) : result Q :=
  let pointSize := wrap (pointSize schema) in
  let divisor := wrap (pointSize + sizeof_size_t) in
  if divisor =? 0 then Err Undefined
  else Ok (inject_Z (pointSize / divisor)).

Definition makeSparse (schema : Schema) : DimList :=
  [mkDimInfo "EntryId"%string "unsigned"%string 8] ++ dims schema.

(** [getChunkType(data)]: returns the type together with the buffer after
    [pop_back]. *)
Definition getChunkType (data : list byte)
  : result (ChunkType * list byte) :=
  match last data with
  | Some marker =>
      let data := removelast data in
      if char_to_int marker =? ChunkType_value Sparse
      then Ok (Sparse, data)
      else if char_to_int marker =? ChunkType_value Contiguous
      then Ok (Contiguous, data)
      else Err (Throw "Invalid chunk type detected"%string)
  | None => Err (Throw "Invalid chunk data detected"%string)
  end.

(** *** ChunkData *)

Record ChunkDataBase : Type := mkChunkDataBase {
  m_schema : Schema;
  m_id : Z;
  m_maxPoints : Z
}.

Definition endId (b : ChunkDataBase) : Z := wrap (m_id b + m_maxPoints b).

Definition normalize (b : ChunkDataBase) (rawIndex : Z) : result Z :=
  if rawIndex <? m_id b then Err Undefined
  else if negb (rawIndex <? wrap (m_id b + m_maxPoints b)) then Err Undefined
  else Ok (wrap (rawIndex - m_id b)).

(** *** SparseChunkData *)

Record SparseEntry : Type := mkSparseEntry {
  data : list byte;
  entry : Entry
}.

(** [SparseEntry(schema)]: zeroed bytes and an entry without a point. *)
Definition SparseEntry_new (schema : Schema) : SparseEntry :=
  mkSparseEntry (replicate (Z.to_nat (pointSize schema)) Byte.x00)
                (mkEntry None).

(** [SparseEntry(schema, pos)]: copies [pointSize] bytes from [pos]. *)
Definition SparseEntry_at (schema : Schema) (pos : list byte) : SparseEntry :=
  mkSparseEntry (take (Z.to_nat (pointSize schema)) pos)
                (mkEntry (Some (mkPoint (getFieldAs_X schema pos)
                                        (getFieldAs_Y schema pos)))).

Record SparseChunkData : Type := mkSparseChunkData {
  sparse_base : ChunkDataBase;
  m_entries : gmap Z SparseEntry
}.

(** [std::map] iteration order: ascending keys. *)
Definition key_le {V} (a b : Z * V) : Prop := a.1 <= b.1.

#[global] Instance key_le_dec {V} : RelDecision (@key_le V) :=
  fun a b => decide (a.1 <= b.1).

Definition in_order {V} (m : gmap Z V) : list (Z * V) :=
  merge_sort key_le (map_to_list m).

(** [std::map::lower_bound]/[upper_bound], as positions in iteration
    order. *)
Definition map_lower_bound {V} (m : gmap Z V) (k : Z) : nat :=
  partition_point (fun e => e.1 <? k) (in_order m).
Definition map_upper_bound {V} (m : gmap Z V) (k : Z) : nat :=
  partition_point (fun e => e.1 <=? k) (in_order m).

(** [std::map::emplace]: no effect when the key is present. *)
Definition map_emplace {V} (k : Z) (v : V) (m : gmap Z V) : gmap Z V :=
  match m !! k with
  | Some _ => m
  | None => <[k := v]> m
  end.

Definition SparseChunkData_empty (schema : Schema) (id maxPoints : Z)
  : SparseChunkData :=
  mkSparseChunkData (mkChunkDataBase schema id maxPoints) ∅.

Definition pushNumPoints (data : list byte) (numPoints : Z) : list byte :=
  data ++ store_u64 numPoints.

Definition popNumPoints (compressedData : list byte)
  : result (Z * list byte) :=
  if Z.of_nat (length compressedData) <? sizeof_uint64_t
  then Err (Throw "Invalid serialized sparse chunk"%string)
  else
    let numPointsOffset := (length compressedData - 8)%nat in
    Ok (load_u64 (drop numPointsOffset compressedData),
        take numPointsOffset compressedData).

(** The decoding loop shared by [SparseChunkData(.., compressedData)] and
    [SparseReader]: [pos] is the unread suffix of the squashed buffer and
    [mk] builds the stored value from the bytes after the key. *)
Fixpoint decode_records {V} (fuel : nat) (sparsePointSize : Z)
    (mk : list byte -> V) (pos : list byte) (acc : gmap Z V)
  : result (gmap Z V) :=
  match pos with
  | [] => Ok acc
  | _ :: _ =>
      match fuel with
      | O => Err OutOfFuel
      | S fuel' =>
          if Z.of_nat (length pos) <? sparsePointSize then Err Undefined
          else
            let key := load_u64 pos in
            decode_records fuel' sparsePointSize mk
              (drop (Z.to_nat sparsePointSize) pos)
              (map_emplace key (mk (drop 8 pos)) acc)
      end
  end.

Definition SparseChunkData_load (schema : Schema) (id maxPoints : Z)
    (compressedData : list byte) : result SparseChunkData :=
  '(numPoints, compressedData) ← popNumPoints compressedData;
  let sparse := mkSchema (makeSparse schema) in
  let sparsePointSize := pointSize sparse in
  squashed ← decompress compressedData sparse
                 (wrap (numPoints * sparsePointSize));
  entries ← decode_records (S (length squashed)) sparsePointSize
                (SparseEntry_at schema) squashed ∅;
  Ok (mkSparseChunkData (mkChunkDataBase schema id maxPoints) entries).

(** [getEntry]: find or insert; returns the entry and the updated chunk. *)
Definition SparseChunkData_getEntry (c : SparseChunkData) (rawIndex : Z)
  : Entry * SparseChunkData :=
  match m_entries c !! rawIndex with
  | Some e => (entry e, c)
  | None =>
      let e := SparseEntry_new (m_schema (sparse_base c)) in
      (entry e,
       mkSparseChunkData (sparse_base c) (<[rawIndex := e]> (m_entries c)))
  end.

(** One iteration of the loop of [squash]. *)
Definition squash_record (nativePointSize : Z) (it : Z * SparseEntry)
  : result (list byte) :=
  let id := it.1 in
  let data := data it.2 in
  if Z.of_nat (length data) <? nativePointSize then Err Undefined
  else Ok (store_u64 id ++ take (Z.to_nat nativePointSize) data).

Definition squash (c : SparseChunkData) (sparse : Schema) (begin end_ : Z)
  : result (list byte) :=
  let nativePointSize := pointSize (m_schema (sparse_base c)) in
  let sparsePointSize := pointSize sparse in
  if negb (wrap (nativePointSize + sizeof_uint64_t) =? sparsePointSize)
  then Err Undefined
  else
    let beginIt := map_lower_bound (m_entries c) begin in
    let endIt := map_upper_bound (m_entries c) (wrap (end_ - 1)) in
    if (endIt <? beginIt)%nat then Err Undefined
    else
      records ← rmapM (squash_record nativePointSize)
                   (take (endIt - beginIt)
                         (drop beginIt (in_order (m_entries c))));
      Ok (concat records).

Definition SparseChunkData_write (c : SparseChunkData) (source : Source)
    (begin end_ : Z) : result Source :=
  let sparse := mkSchema (makeSparse (m_schema (sparse_base c))) in
  data ← squash c sparse begin end_;
  let compressed := compress data sparse in
  let compressed :=
    pushNumPoints compressed (wrap (Z.of_nat (size (m_entries c)))) in
  let compressed := compressed ++ [ChunkType_char Sparse] in
  Ok (Source_put source (to_string begin) compressed).

(** *** ContiguousChunkData *)

Record ContiguousChunkData : Type := mkContiguousChunkData {
  contiguous_base : ChunkDataBase;
  c_entries : list Entry;
  c_data : list byte
}.

Definition ContiguousChunkData_load (schema : Schema) (id maxPoints : Z)
    (compressedData : list byte) : result ContiguousChunkData :=
  let pointSize := pointSize schema in
  m_data ← decompress compressedData schema (wrap (maxPoints * pointSize));
  if Z.of_nat (length m_data) <? maxPoints * pointSize then Err Undefined
  else
    let entryAt (i : nat) : Entry :=
      let pos := drop (i * Z.to_nat pointSize) m_data in
      let x := getFieldAs_X schema pos in
      let y := getFieldAs_Y schema pos in
      mkEntry (if Point_exists x y then Some (mkPoint x y) else None) in
    Ok (mkContiguousChunkData (mkChunkDataBase schema id maxPoints)
          (map entryAt (seq 0 (Z.to_nat maxPoints))) m_data).

Definition ContiguousChunkData_getEntry (c : ContiguousChunkData)
    (rawIndex : Z) : result Entry :=
  i ← normalize (contiguous_base c) rawIndex;
  match c_entries c !! Z.to_nat i with
  | Some e => Ok e
  | None => Err Undefined
  end.

Definition ContiguousChunkData_write (c : ContiguousChunkData)
    (source : Source) (begin end_ : Z) : result Source :=
  normalized ← normalize (contiguous_base c) begin;
  let pointSize := pointSize (m_schema (contiguous_base c)) in
  let offset := wrap (normalized * pointSize) in
  let size := wrap (wrap (end_ - begin) * pointSize) in
  if Z.of_nat (length (c_data c)) <? offset + size then Err Undefined
  else
    let compressed :=
      compress (take (Z.to_nat size) (drop (Z.to_nat offset) (c_data c)))
               (m_schema (contiguous_base c)) in
    let compressed := compressed ++ [ChunkType_char Contiguous] in
    Ok (Source_put source (to_string begin) compressed).

(** *** The ChunkData hierarchy and its virtual calls *)

Inductive ChunkData : Type :=
| SparseData (c : SparseChunkData)
| ContiguousData (c : ContiguousChunkData).

Definition base_of (c : ChunkData) : ChunkDataBase :=
  match c with
  | SparseData s => sparse_base s
  | ContiguousData d => contiguous_base d
  end.

Definition isSparse (c : ChunkData) : bool :=
  match c with
  | SparseData _ => true
  | ContiguousData _ => false
  end.

Definition write (c : ChunkData) (source : Source) (begin end_ : Z)
  : result Source :=
  match c with
  | SparseData s => SparseChunkData_write s source begin end_
  | ContiguousData d => ContiguousChunkData_write d source begin end_
  end.

Definition save (c : ChunkData) (source : Source) : result Source :=
  write c source (m_id (base_of c)) (endId (base_of c)).

(** The [for] loop of [ChunkData::finalize]; the state threaded through is
    the blob store and the [ids] vector. *)
Fixpoint finalize_loop (fuel : nat) (c : ChunkData) (chunkPoints : Z)
    (id : Z) (st : Source * list Z) : result (Source * list Z) :=
  if id <? endId (base_of c) then
    match fuel with
    | O => Err OutOfFuel
    | S fuel' =>
        source ← write c st.1 id (wrap (id + chunkPoints));
        finalize_loop fuel' c chunkPoints (wrap (id + chunkPoints))
          (source, st.2 ++ [id])
    end
  else Ok st.

Definition finalize (fuel : nat) (c : ChunkData) (source : Source)
    (ids : list Z) (start chunkPoints : Z) : result (Source * list Z) :=
  st ← (if m_id (base_of c) <? start
          then source ← write c source (m_id (base_of c)) start;
               Ok (source, ids ++ [m_id (base_of c)])
          else Ok (source, ids));
  finalize_loop fuel c chunkPoints (Z.max start (m_id (base_of c))) st.

(** *** ChunkDataFactory *)

Definition ChunkDataFactory_create (schema : Schema) (id maxPoints : Z)
    (data : list byte) : result ChunkData :=
  '(type, data) ← getChunkType data;
  match type with
  | Sparse => SparseData <$> (SparseChunkData_load schema id maxPoints data)
  | Contiguous =>
      ContiguousData <$> (ContiguousChunkData_load schema id maxPoints data)
  end.

(** [Chunk]: owns a [ChunkData]; [finalize] forwards to it. *)
Record Chunk : Type := mkChunk {
  m_chunkData : ChunkData;
  m_threshold : result Q
}.

Definition Chunk_load (schema : Schema) (id maxPoints : Z)
    (data : list byte) : result Chunk :=
  d ← ChunkDataFactory_create schema id maxPoints data;
  Ok (mkChunk d (getThreshold schema)).

Definition Chunk_finalize (fuel : nat) (c : Chunk) (source : Source)
    (ids : list Z) (start chunkPoints : Z) : result (Source * list Z) :=
  finalize fuel (m_chunkData c) source ids start chunkPoints.

(** *** SparseReader (read-only sibling of SparseChunkData) *)

Record SparseReader : Type := mkSparseReader {
  r_id : Z;
  r_schema : Schema;
  r_data : gmap Z (list byte)
}.

(** The records the constructor walks over: key and point bytes of each
    [sparsePointSize]-byte cell of the squashed buffer, in buffer order. *)
Definition SparseReader_point (sparsePointSize : Z) (after_key : list byte)
  : list byte :=
  take (Z.to_nat sparsePointSize - 8) after_key.

Definition SparseReader_load (id : Z) (schema : Schema) (data : list byte)
  : result SparseReader :=
  '(numPoints, data) ← popNumPoints data;
  let sparse := mkSchema (makeSparse schema) in
  let sparsePointSize := pointSize sparse in
  squashed ← decompress data sparse (wrap (numPoints * sparsePointSize));
  m ← decode_records (S (length squashed)) sparsePointSize
          (SparseReader_point sparsePointSize) squashed ∅;
  Ok (mkSparseReader id schema m).

(** [getData]: [None] is the null pointer. *)
Definition SparseReader_getData (r : SparseReader) (rawIndex : Z)
  : option (list byte) :=
  match r_data r !! rawIndex with
  | Some point => Some point
  | None => None
  end.

End ChunkCpp.

(* --------------------------------------------------------------------- *)
(** ** chunk-reader.cpp                                                  *)
(* --------------------------------------------------------------------- *)

Module ChunkReaderCpp.

(** [Point], [Bounds], [Tube::calcTick] and the reads of the X, Y and Z
    dimensions of the record at [pos] through the [BinaryPointTable]. *)
Class TickGeometry : Type := {
  Point : Type;
  Bounds : Type;
  Bounds_min : Bounds -> Point;
  Bounds_max : Bounds -> Point;
  calcTick : Point -> Bounds -> Z -> Z;
  readPoint : Schema -> list byte -> Point
}.

Section WithGeometry.
Context `{TG : TickGeometry}.

(** [PointInfo(point, pos, tick)]; [pos] is the offset of the record in
    the reader's buffer.  [PointInfo(tick)] is the search key. *)
Record PointInfo : Type := mkPointInfo {
  pi_point : option Point;
  pi_data : option nat;
  pi_tick : Z
}.

Definition PointInfo_key (tick : Z) : PointInfo :=
  mkPointInfo None None tick.

(** Modelled from the spec: [operator<] on [PointInfo] (its header is not
    among the sources); records are ordered by tick ascending. *)
Definition PointInfo_lt (a b : PointInfo) : bool :=
  pi_tick a <? pi_tick b.

(** Ascending order of ticks. *)
Definition tick_le (a b : PointInfo) : Prop := pi_tick a <= pi_tick b.

(** [std::sort(first, last)]: the order of equivalent elements is
    unspecified, so the algorithm is an interface with its contract. *)
Class StdSort : Type := { std_sort : list PointInfo -> list PointInfo }.

Class StdSortOk `{StdSort} : Prop := {
  std_sort_perm : forall l, Permutation (std_sort l) l;
  std_sort_sorted :
    forall l, Sorted (fun a b => PointInfo_lt b a = false) (std_sort l)
}.

(** [Metadata]: the schema, the cubic bounds and the [Format::unpack]
    envelope decoder, which yields the payload bytes and [numPoints]. *)
Record Metadata : Type := mkMetadata {
  md_schema : Schema;
  md_boundsScaledCubic : Bounds;
  md_unpack : list byte -> result (list byte * Z)
}.

Record ChunkReader : Type := mkChunkReader {
  m_schema : Schema;
  m_bounds : Bounds;
  m_id : Z;
  m_depth : Z;
  m_data : list byte;
  m_points : list PointInfo
}.

Context `{SS : StdSort}.

Definition ChunkReader_ctor (metadata : Metadata) (id depth : Z)
    (data : list byte) : result ChunkReader :=
  '(bytes, numPoints) ← md_unpack metadata data;
  let schema := md_schema metadata in
  let bounds := md_boundsScaledCubic metadata in
  let pointSize := pointSize schema in
  if Z.of_nat (length bytes) <? numPoints * pointSize then Err Undefined
  else
    let pointAt (i : nat) : PointInfo :=
      let pos := (i * Z.to_nat pointSize)%nat in
      let point := readPoint schema (drop pos bytes) in
      mkPointInfo (Some point) (Some pos) (calcTick point bounds depth) in
    let points := map pointAt (seq 0 (Z.to_nat numPoints)) in
    Ok (mkChunkReader schema bounds id depth bytes (std_sort points)).

(** [QueryRange(begin, end)]: iterators are positions in [m_points]. *)
Record QueryRange : Type := mkQueryRange {
  range_begin : nat;
  range_end : nat
}.

Definition lower_bound (l : list PointInfo) (value : PointInfo) : nat :=
  partition_point (fun e => PointInfo_lt e value) l.
Definition upper_bound (l : list PointInfo) (value : PointInfo) : nat :=
  partition_point (fun e => negb (PointInfo_lt value e)) l.

Definition candidates (r : ChunkReader) (queryBounds : Bounds)
  : QueryRange :=
  let min :=
    PointInfo_key (calcTick (Bounds_min queryBounds) (m_bounds r)
                            (m_depth r)) in
  let max :=
    PointInfo_key (calcTick (Bounds_max queryBounds) (m_bounds r)
                            (m_depth r)) in
  mkQueryRange (lower_bound (m_points r) min)
               (upper_bound (m_points r) max).

End WithGeometry.

(** An insertion sort by tick: one admissible [std::sort]. *)
Section InsertionSort.
Context `{TG : TickGeometry}.

Fixpoint insert_by_tick (x : PointInfo) (l : list PointInfo)
  : list PointInfo :=
  match l with
  | [] => [x]
  | y :: l' =>
      if PointInfo_lt y x then y :: insert_by_tick x l' else x :: y :: l'
  end.

Definition sort_by_tick (l : list PointInfo) : list PointInfo :=
  foldr insert_by_tick [] l.

Definition insertion_StdSort : StdSort := {| std_sort := sort_by_tick |}.
End InsertionSort.

End ChunkReaderCpp.

(* --------------------------------------------------------------------- *)
(** ** query.cpp                                                         *)
(* --------------------------------------------------------------------- *)

Module QueryCpp.

(** Geometry and point-table operations used by [Query::processPoint]:
    [BBox::contains], [BBox::mid], [PointRef::getFieldAs<double>],
    [PointRef::getField], the double subtraction and the conversion to
    [float] whose four bytes are copied out. *)
Class PointOps : Type := {
  Point : Type;
  BBox : Type;
  Double : Type;
  BBox_contains : BBox -> Point -> bool;
  BBox_mid_x : BBox -> Double;
  BBox_mid_y : BBox -> Double;
  BBox_mid_z : BBox -> Double;
  getFieldAs_double : list byte -> string -> Double;
  double_sub : Double -> Double -> Double;
  float_bytes : Double -> list byte;
  getField : list byte -> string -> string * N -> list byte
}.

(** Modelled from the spec: the accessors of [DimInfo] and
    [pdal::Dimension::size] (their headers are not among the sources).  The
    id of a dimension is its name, its type is the scalar type together
    with the byte size, and [Dimension::size] of a type is that size. *)
Definition dim_id (d : DimInfo) : string := dim_name d.
Definition dim_type_of (d : DimInfo) : string * N := (dim_type d, dim_size d).
Definition Dimension_size (t : string * N) : Z := Z.of_N t.2.

(** Contract of the point table: a field is written with the size of its
    type, and a [float] has four bytes. *)
Class PointOpsOk `{PointOps} : Prop := {
  float_bytes_length : forall d, length (float_bytes d) = 4%nat;
  getField_length :
    forall data id t,
      Z.of_nat (length (getField data id t)) = Dimension_size t
}.

Definition fetchesPerIteration : Z := 4.

Section WithPointOps.
Context `{PO : PointOps}.

(** [PointInfo]: the point and the address of its record, modelled by
    the bytes found there. *)
Record PointInfo : Type := mkPointInfo {
  pi_point : Point;
  pi_data : list byte
}.

(** Modelled from the spec: [Tube] ([tube.hpp] is not among the sources):
    one primary cell and an ordered mapping from tick to secondary cells;
    a tube is empty when its primary cell holds no point. *)
Record Tube : Type := mkTube {
  primaryCell : option PointInfo;
  secondaryCells : list (Z * PointInfo)
}.

Definition Tube_empty (t : Tube) : bool :=
  match primaryCell t with
  | Some _ => false
  | None => true
  end.

Record Structure : Type := mkStructure {
  baseDepthBegin : Z;
  baseDepthEnd : Z;
  baseIndexBegin : Z;
  coldDepthBegin : Z
}.

(** [Reader]: [base()] is a nullable pointer to the base chunk, whose
    [getTube] is a lookup by index. *)
Record Reader : Type := mkReader {
  reader_structure : Structure;
  reader_bbox : BBox;
  reader_path : string;
  reader_base : option (Z -> Tube)
}.

(** *** SplitClimber *)

(** Modelled from the spec: [SplitClimber] (its sources are absent).
    The octree restricted to a query is a tree of nodes carrying their
    index and whether their bounds intersect the query bounds.  The
    climber's state is the current node with its depth on top of the
    stack of next-sibling bookmarks.  [next(terminate)] advances in
    depth-first pre-order; it does not descend when [terminate] is set,
    when the current node does not intersect the query bounds, or when
    its depth is [depthEnd - 1]; it returns [false] when the walk is
    complete. *)
#[warnings="-register-all"]
Inductive Node : Type :=
| mkNode (index : Z) (overlaps : bool) (children : list Node).

Definition node_index (n : Node) : Z :=
  match n with mkNode i _ _ => i end.
Definition node_overlaps (n : Node) : bool :=
  match n with mkNode _ o _ => o end.
Definition node_children (n : Node) : list Node :=
  match n with mkNode _ _ cs => cs end.

Record SplitClimber : Type := mkSplitClimber {
  sc_stack : list (Node * Z);
  sc_depthEnd : Z
}.

Definition SplitClimber_index (s : SplitClimber) : option Z :=
  match sc_stack s with
  | (n, _) :: _ => Some (node_index n)
  | [] => None
  end.

Definition SplitClimber_depth (s : SplitClimber) : option Z :=
  match sc_stack s with
  | (_, d) :: _ => Some d
  | [] => None
  end.

Definition SplitClimber_next (s : SplitClimber) (terminate : bool)
  : bool * SplitClimber :=
  match sc_stack s with
  | [] => (false, s)
  | (n, d) :: bookmarks =>
      let descend :=
        negb terminate && node_overlaps n
        && negb (d =? sc_depthEnd s - 1) in
      let stack :=
        if descend
        then map (fun c => (c, d + 1)) (node_children n) ++ bookmarks
        else bookmarks in
      (negb (bool_decide (stack = [])),
       mkSplitClimber stack (sc_depthEnd s))
  end.

(** *** Cache *)

Record FetchInfo : Type := mkFetchInfo {
  fi_id : Z;
  fi_numPoints : Z;
  fi_depth : Z
}.

(** A hydrated chunk as the query sees it: [candidates(qbox)] is the
    range the query iterates, keyed by tick. *)
Record ChunkReader : Type := mkChunkReader {
  candidates : BBox -> list (Z * PointInfo)
}.

(** [Block::chunkMap()]: chunk id to (nullable) reader, in key order. *)
Definition Block : Type := list (Z * option ChunkReader).

(** Collaborators reached through references held by the query: the
    cache's [acquire] and the [SplitClimber] constructor. *)
Class QueryDeps : Type := {
  Cache_acquire : string -> list FetchInfo -> option Block;
  SplitClimber_ctor :
    Structure -> BBox -> BBox -> Z -> Z -> SplitClimber
}.

Context `{QD : QueryDeps}.

(** *** Query state *)

(** Observation log: which base tubes were fetched and which points were
    handed to [processPoint], with the index they were stored at.  No
    code path reads it. *)
Inductive event : Type :=
| EvTube (index : Z)
| EvPoint (index : Z) (info : PointInfo).

(** Members fixed at construction. *)
Record QueryConfig : Type := mkQueryConfig {
  m_reader : Reader;
  m_structure : Structure;
  m_qbox : BBox;
  m_depthBegin : Z;
  m_depthEnd : Z;
  m_outSchema : Schema;
  m_normalize : bool
}.

(** Mutable members of [BaseQuery] and [Query].  [m_buffer] is the
    pointer to the caller's buffer, modelled by the buffer's contents;
    [m_table] is the record the point table was last set to. *)
Record Query : Type := mkQuery {
  config : QueryConfig;
  m_chunks : list FetchInfo;
  m_block : option Block;
  m_chunkReaderIt : nat;
  m_numPoints : Z;
  m_base : bool;
  m_done : bool;
  m_buffer : option (list byte);
  m_table : option (list byte);
  trace : list event
}.

Definition set_chunks v q :=
  mkQuery (config q) v (m_block q) (m_chunkReaderIt q) (m_numPoints q)
    (m_base q) (m_done q) (m_buffer q) (m_table q) (trace q).
Definition set_block v q :=
  mkQuery (config q) (m_chunks q) v (m_chunkReaderIt q) (m_numPoints q)
    (m_base q) (m_done q) (m_buffer q) (m_table q) (trace q).
Definition set_chunkReaderIt v q :=
  mkQuery (config q) (m_chunks q) (m_block q) v (m_numPoints q)
    (m_base q) (m_done q) (m_buffer q) (m_table q) (trace q).
Definition set_numPoints v q :=
  mkQuery (config q) (m_chunks q) (m_block q) (m_chunkReaderIt q) v
    (m_base q) (m_done q) (m_buffer q) (m_table q) (trace q).
Definition set_base v q :=
  mkQuery (config q) (m_chunks q) (m_block q) (m_chunkReaderIt q)
    (m_numPoints q) v (m_done q) (m_buffer q) (m_table q) (trace q).
Definition set_done v q :=
  mkQuery (config q) (m_chunks q) (m_block q) (m_chunkReaderIt q)
    (m_numPoints q) (m_base q) v (m_buffer q) (m_table q) (trace q).
Definition set_buffer v q :=
  mkQuery (config q) (m_chunks q) (m_block q) (m_chunkReaderIt q)
    (m_numPoints q) (m_base q) (m_done q) v (m_table q) (trace q).
Definition set_table v q :=
  mkQuery (config q) (m_chunks q) (m_block q) (m_chunkReaderIt q)
    (m_numPoints q) (m_base q) (m_done q) (m_buffer q) v (trace q).
Definition log (e : event) q :=
  mkQuery (config q) (m_chunks q) (m_block q) (m_chunkReaderIt q)
    (m_numPoints q) (m_base q) (m_done q) (m_buffer q) (m_table q)
    (trace q ++ [e]).

(** A member function returns a value and the object's new state, or
    raises with the state reached at that point. *)
Inductive outcome (A : Type) : Type :=
| Ret (a : A) (q : Query)
| Raise (e : error) (q : Query).
Arguments Ret {A} a q.
Arguments Raise {A} e q.

Definition bind {A B} (o : outcome A) (k : A -> Query -> outcome B)
  : outcome B :=
  match o with
  | Ret a q => k a q
  | Raise e q => Raise e q
  end.

(** *** Query::processPoint *)

(** [memcpy]/[getField] of [bytes] to offset [pos] of [buffer]. *)
Definition poke (buffer : list byte) (pos : nat) (bytes : list byte)
  : result (list byte) :=
  if (length buffer <? pos + length bytes)%nat then Err Undefined
  else Ok (take pos buffer ++ bytes ++ drop (pos + length bytes) buffer).

(** The bytes one iteration of the loop over [m_outSchema.dims()] writes
    at [pos]. *)
Definition field_bytes (cfg : QueryConfig) (data : list byte)
    (dim : DimInfo) : list byte :=
  if m_normalize cfg then
    let isX := bool_decide (dim_id dim = "X"%string) in
    let isY := bool_decide (dim_id dim = "Y"%string) in
    let isZ := bool_decide (dim_id dim = "Z"%string) in
    if (isX || isY || isZ) && (Dimension_size (dim_type_of dim) =? 4)
    then
      let d := getFieldAs_double data (dim_id dim) in
      let mid :=
        if isX then BBox_mid_x (reader_bbox (m_reader cfg))
        else if isY then BBox_mid_y (reader_bbox (m_reader cfg))
        else BBox_mid_z (reader_bbox (m_reader cfg)) in
      float_bytes (double_sub d mid)
    else getField data (dim_id dim) (dim_type_of dim)
  else getField data (dim_id dim) (dim_type_of dim).

Fixpoint write_dims (cfg : QueryConfig) (data : list byte)
    (ds : DimList) (buffer : list byte) (pos : nat)
  : result (list byte) :=
  match ds with
  | [] => Ok buffer
  | dim :: ds' =>
      buffer ← poke buffer pos (field_bytes cfg data dim);
      write_dims cfg data ds' buffer (pos + N.to_nat (dim_size dim))
  end.

Definition processPoint (info : PointInfo) (q : Query) : outcome bool :=
  match m_buffer q with
  | None => Raise (Throw "Query buffer not set"%string) q
  | Some buffer =>
      if BBox_contains (m_qbox (config q)) (pi_point info) then
        let size := Z.to_nat (pointSize (m_outSchema (config q))) in
        let buffer := buffer ++ replicate size Byte.x00 in
        let q := set_buffer (Some buffer) q in
        let pos := (length buffer - size)%nat in
        let q := set_table (Some (pi_data info)) q in
        match write_dims (config q) (pi_data info)
                (dims (m_outSchema (config q))) buffer pos with
        | Ok buffer => Ret true (set_buffer (Some buffer) q)
        | Err e => Raise e q
        end
      else Ret false q
  end.

(** [if (processPoint(info)) ++m_numPoints;], with the log entry. *)
Definition countPoint (index : Z) (info : PointInfo) (q : Query)
  : outcome bool :=
  bind (processPoint info (log (EvPoint index info) q))
    (fun inside q =>
       if inside
       then Ret true (set_numPoints (wrap (m_numPoints q + 1)) q)
       else Ret false q).

(** A range-[for] or [while] over a list of infos; the flag accumulates
    [dataExisted]. *)
Fixpoint countPoints (index : Z) (infos : list PointInfo) (flag : bool)
    (q : Query) : outcome bool :=
  match infos with
  | [] => Ret flag q
  | info :: infos' =>
      bind (countPoint index info q)
        (fun inside q => countPoints index infos' (inside || flag) q)
  end.

(** *** BaseQuery::getBase *)

Fixpoint getBase_loop (fuel : nat) (base : Z -> Tube)
    (splitter : SplitClimber) (dataExisted : bool) (q : Query)
  : outcome bool :=
  match fuel with
  | O => Raise OutOfFuel q
  | S fuel' =>
      match SplitClimber_index splitter with
      | None => Raise Undefined q
      | Some index =>
          let tube := base index in
          let q := log (EvTube index) q in
          let step :=
            if negb (Tube_empty tube) then
              match primaryCell tube with
              | None => Raise Undefined q
              | Some primary =>
                  bind (countPoints index
                          (primary :: map snd (secondaryCells tube))
                          dataExisted q)
                    (fun existed q => Ret (existed, false) q)
              end
            else Ret (dataExisted, true) q in
          bind step (fun r q =>
            let '(dataExisted, terminate) := r in
            let '(more, splitter) := SplitClimber_next splitter terminate in
            if more then getBase_loop fuel' base splitter dataExisted q
            else Ret dataExisted q)
      end
  end.

Definition getBase (fuel : nat) (q : Query) : outcome bool :=
  let cfg := config q in
  match reader_base (m_reader cfg) with
  | Some base =>
      if (m_depthBegin cfg <? baseDepthEnd (m_structure cfg))
         && (baseDepthBegin (m_structure cfg) <? m_depthEnd cfg)
      then
        let splitter :=
          SplitClimber_ctor (m_structure cfg)
            (reader_bbox (m_reader cfg)) (m_qbox cfg) (m_depthBegin cfg)
            (Z.min (m_depthEnd cfg) (baseDepthEnd (m_structure cfg))) in
        match SplitClimber_index splitter with
        | None => Raise Undefined q
        | Some index =>
            if index <? baseIndexBegin (m_structure cfg)
            then Ret false q
            else getBase_loop fuel base splitter false q
        end
      else Ret false q
  | None => Ret false q
  end.

(** *** BaseQuery::getChunked *)

Definition getChunked (q : Query) : outcome unit :=
  let q :=
    match m_block q with
    | None =>
        if (0 <? length (m_chunks q))%nat then
          let n :=
            Z.to_nat (Z.min fetchesPerIteration
                            (Z.of_nat (length (m_chunks q)))) in
          let subset := take n (m_chunks q) in
          let block :=
            Cache_acquire (reader_path (m_reader (config q))) subset in
          let q := set_block block q in
          let q := set_chunks (drop n (m_chunks q)) q in
          match block with
          | Some _ => set_chunkReaderIt O q
          | None => q
          end
        else q
    | Some _ => q
    end in
  let finish (q : Query) : outcome unit :=
    Ret tt
      (set_done
         (negb (bool_decide (is_Some (m_block q)))
          && bool_decide (m_chunks q = [])) q) in
  match m_block q with
  | Some block =>
      match block !! m_chunkReaderIt q with
      | None => Raise Undefined q
      | Some (id, Some cr) =>
          let range := candidates cr (m_qbox (config q)) in
          bind (countPoints id (map snd range) false q)
            (fun _ q =>
               let q := set_chunkReaderIt (S (m_chunkReaderIt q)) q in
               let q :=
                 if (m_chunkReaderIt q =? length block)%nat
                 then set_block None q else q in
               finish q)
      | Some (_, None) => Raise (Throw "Reservation failure"%string) q
      end
  | None => finish q
  end.

(** *** BaseQuery::next and Query::next *)

Definition BaseQuery_next (fuel : nat) (q : Query) : outcome bool :=
  if m_done q
  then Raise (Throw "Called next after query completed"%string) q
  else
    let body :=
      if m_base q then
        let q := set_base false q in
        bind (getBase fuel q)
          (fun dataExisted q =>
             if negb dataExisted then
               if bool_decide (m_chunks q = [])
               then Ret tt (set_done true q)
               else getChunked q
             else Ret tt q)
      else getChunked q in
    bind body (fun _ q => Ret (negb (m_done q)) q).

Definition Query_next (fuel : nat) (buffer : list byte) (q : Query)
  : outcome bool :=
  if (0 <? length buffer)%nat
  then Raise (Throw "Query buffer not empty"%string) q
  else BaseQuery_next fuel (set_buffer (Some buffer) q).

(** *** Specification-side vocabulary for the base pass *)

(** The indices and the nodes of the subtree rooted at a node, the indices
    strictly below a node, and the same over a traversal stack. *)
Fixpoint subtree_indices (n : Node) : list Z :=
  match n with
  | mkNode i _ cs => i :: flat_map subtree_indices cs
  end.

Fixpoint subtree_nodes (n : Node) : list Node :=
  match n with
  | mkNode i o cs => mkNode i o cs :: flat_map subtree_nodes cs
  end.

Definition descendant_indices (n : Node) : list Z :=
  flat_map subtree_indices (node_children n).

Definition forest_indices (stack : list (Node * Z)) : list Z :=
  flat_map (fun p => subtree_indices p.1) stack.

Definition forest_nodes (stack : list (Node * Z)) : list Node :=
  flat_map (fun p => subtree_nodes p.1) stack.

Definition event_index (e : event) : Z :=
  match e with
  | EvTube i => i
  | EvPoint i _ => i
  end.

(** An event respects the empty tubes of a traversal stack when it concerns
    an index of the stack that is not strictly below a node whose tube is
    empty. *)
Definition respects_empty_tubes (base : Z -> Tube) (stack : list (Node * Z))
    (e : event) : Prop :=
  event_index e ∈ forest_indices stack
  /\ forall a, a ∈ forest_nodes stack ->
               Tube_empty (base (node_index a)) = true ->
               event_index e ∉ descendant_indices a.

(** The state a call ends in, whether it returns or raises. *)
Definition final_state {A} (o : outcome A) : Query :=
  match o with
  | Ret _ q => q
  | Raise _ q => q
  end.

Definition out_of_fuel {A} (o : outcome A) : bool :=
  match o with
  | Raise OutOfFuel _ => true
  | _ => false
  end.

(** What a run of the base-pass loop may log: it does not run out of fuel
    and only appends events that respect the empty tubes of the stack. *)
Definition loop_logs (base : Z -> Tube) (stack : list (Node * Z))
    (q : Query) (o : outcome bool) : Prop :=
  out_of_fuel o = false
  /\ exists new,
      trace (final_state o) = trace q ++ new
      /\ Forall (respects_empty_tubes base stack) new.

End WithPointOps.

Arguments Ret {PO A} a q.
Arguments Raise {PO A} e q.

End QueryCpp.

(* --------------------------------------------------------------------- *)
(** ** Specification-side definitions                                    *)
(* --------------------------------------------------------------------- *)

Section ChunkSpec.
Context `{Cmp : Compression} `{PV : PointView}.

(** Invariants of a sparse chunk in memory: every key is a raw index of
    the chunk, every entry owns [pointSize] bytes (both constructors of
    [SparseEntry] allocate exactly that), and the sizes involved fit a
    [size_t]. *)
Record SparseChunkData_wf (c : SparseChunkData) : Prop := {
  wf_id : 0 <= m_id (sparse_base c);
  wf_end : m_id (sparse_base c) + m_maxPoints (sparse_base c) < 2 ^ 64;
  wf_keys :
    forall k e, m_entries c !! k = Some e ->
      m_id (sparse_base c) <= k
      < m_id (sparse_base c) + m_maxPoints (sparse_base c);
  wf_data :
    forall k e, m_entries c !! k = Some e ->
      Z.of_nat (length (data e)) = pointSize (m_schema (sparse_base c));
  wf_point : pointSize (m_schema (sparse_base c)) + 8 < 2 ^ 64;
  wf_size :
    Z.of_nat (size (m_entries c))
    * (pointSize (m_schema (sparse_base c)) + 8) < 2 ^ 64
}.

(** The exact ratio the density threshold is meant to be. *)
Definition threshold_ratio (schema : Schema) : Q :=
  Qmake (pointSize schema) (Z.to_pos (pointSize schema + sizeof_size_t)).

(** The [[id, id + chunkPoints)] slices starting at [id]. *)
Fixpoint slices (n : nat) (id chunkPoints : Z) : list (Z * Z) :=
  match n with
  | O => []
  | S n' => (id, id + chunkPoints) :: slices n' (id + chunkPoints) chunkPoints
  end.

(** Number of slices needed to get from [id] up to [endId]. *)
Definition slice_count (id endId chunkPoints : Z) : nat :=
  Z.to_nat ((endId - id + chunkPoints - 1) / chunkPoints).

(** The ranges [finalize] is to write: the prefix below [start], if any,
    then the slices from [max start m_id] up to [endId]. *)
Definition finalize_ranges (b : ChunkDataBase) (start chunkPoints : Z)
  : list (Z * Z) :=
  (if m_id b <? start then [(m_id b, start)] else [])
  ++ slices (slice_count (Z.max start (m_id b)) (endId b) chunkPoints)
       (Z.max start (m_id b)) chunkPoints.

(** Writing a list of ranges in order, recording each begin id. *)
Fixpoint write_ranges (c : ChunkData) (ranges : list (Z * Z))
    (st : Source * list Z) : result (Source * list Z) :=
  match ranges with
  | [] => Ok st
  | (begin, end_) :: ranges' =>
      source ← write c st.1 begin end_;
      write_ranges c ranges' (source, st.2 ++ [begin])
  end.

(** The record [squash] emits for one entry: the key, then the entry's
    bytes. *)
Definition cell_bytes (e : Z * SparseEntry) : list byte :=
  store_u64 e.1 ++ data e.2.

(** The cells of a squashed buffer as the decoding loop meets them: the
    key and the bytes that follow it, for each [sparsePointSize]-byte
    cell. *)
Fixpoint cells (fuel : nat) (sparsePointSize : Z) (pos : list byte)
  : list (Z * list byte) :=
  match pos, fuel with
  | _ :: _, S fuel' =>
      (load_u64 pos, drop 8 pos)
      :: cells fuel' sparsePointSize (drop (Z.to_nat sparsePointSize) pos)
  | _, _ => []
  end.

End ChunkSpec.

(* --------------------------------------------------------------------- *)
(** ** Reference collaborators and sample data                           *)
(* --------------------------------------------------------------------- *)

(** The identity codec, which checks the announced size. *)
Definition identity_Compression : Compression := {|
  compress := fun data _ => data;
  decompress := fun data _ size =>
    if Z.of_nat (length data) =? size then Ok data
    else Err (Throw "Decompressed size mismatch"%string)
|}.

(** A point view over records whose first two bytes are X and Y; the empty
    coordinate is [0xff]. *)
Definition byte_PointView : PointView := {|
  Coord := Z;
  getFieldAs_X := fun _ pos => byte.unsigned (nth 0 pos Byte.x00);
  getFieldAs_Y := fun _ pos => byte.unsigned (nth 1 pos Byte.x00);
  Point_exists := fun x y => negb ((x =? 255) && (y =? 255))
|}.

Definition xy_schema : Schema :=
  mkSchema [mkDimInfo "X"%string "unsigned"%string 1;
            mkDimInfo "Y"%string "unsigned"%string 1].

Definition xyz_schema : Schema :=
  mkSchema [mkDimInfo "X"%string "floating"%string 8;
            mkDimInfo "Y"%string "floating"%string 8;
            mkDimInfo "Z"%string "floating"%string 8].

Section Samples.
Context `{PV : PointView}.

Definition sample_entry (x y : byte) : SparseEntry :=
  mkSparseEntry [x; y] (mkEntry None).

(** Scenario S3: indices 10, 42 and 1000 populated out of 4096. *)
Definition sample_sparse : SparseChunkData :=
  mkSparseChunkData (mkChunkDataBase xy_schema 0 4096)
    (<[1000 := sample_entry Byte.x05 Byte.x06]>
       (<[42 := sample_entry Byte.x03 Byte.x04]>
          (<[10 := sample_entry Byte.x01 Byte.x02]> ∅))).

(** A sparse cold chunk spanning two slices of four points. *)
Definition sample_cold : SparseChunkData :=
  mkSparseChunkData (mkChunkDataBase xy_schema 8 8)
    (<[13 := sample_entry Byte.x03 Byte.x04]>
       (<[9 := sample_entry Byte.x01 Byte.x02]> ∅)).

(** The body of a sparse blob (marker already popped) holding the records of
    indices 10 and 42 under the identity codec, and the reader it decodes
    to. *)
Definition sample_reader_blob : list byte :=
  (store_u64 10 ++ [Byte.x01; Byte.x02])
  ++ (store_u64 42 ++ [Byte.x03; Byte.x04])
  ++ store_u64 2.

Definition sample_reader : SparseReader :=
  mkSparseReader 0 xy_schema
    (<[42 := [Byte.x03; Byte.x04]]> (<[10 := [Byte.x01; Byte.x02]]> ∅)).
End Samples.

(** A one-dimensional geometry for examples: a point is its height, read
    from the first byte of the record, bounds are an interval of heights and
    the tick of a point is its height scaled by the depth. *)
Definition z_TickGeometry : ChunkReaderCpp.TickGeometry := {|
  ChunkReaderCpp.Point := Z;
  ChunkReaderCpp.Bounds := Z * Z;
  ChunkReaderCpp.Bounds_min := fst;
  ChunkReaderCpp.Bounds_max := snd;
  ChunkReaderCpp.calcTick := fun p b depth => (p - b.1) * 2 ^ depth;
  ChunkReaderCpp.readPoint := fun _ pos => byte.unsigned (nth 0 pos Byte.x00)
|}.

Definition z_schema : Schema :=
  mkSchema [mkDimInfo "Z"%string "unsigned"%string 1].

Section ReaderSamples.
#[local] Existing Instance z_TickGeometry.
#[local] Existing Instance ChunkReaderCpp.insertion_StdSort.

(** Metadata whose envelope is the bare payload, one byte per point. *)
Definition sample_metadata : ChunkReaderCpp.Metadata :=
  ChunkReaderCpp.mkMetadata z_schema (0, 8)
    (fun data => Ok (data, Z.of_nat (length data))).

Definition sample_payload : list byte :=
  [Byte.x05; Byte.x01; Byte.x03; Byte.x01].

(** The reader built from [sample_payload] at depth 1: ticks 2, 2, 6, 10. *)
Definition sample_chunk_reader : ChunkReaderCpp.ChunkReader :=
  ChunkReaderCpp.mkChunkReader z_schema (0, 8) 7 1 sample_payload
    [ChunkReaderCpp.mkPointInfo (Some 1) (Some 1%nat) 2;
     ChunkReaderCpp.mkPointInfo (Some 1) (Some 3%nat) 2;
     ChunkReaderCpp.mkPointInfo (Some 3) (Some 2%nat) 6;
     ChunkReaderCpp.mkPointInfo (Some 5) (Some 0%nat) 10].
End ReaderSamples.

(** Point operations for examples: a point is its height, a box is an
    interval, doubles are integers, a [float] is four little-endian bytes
    and [getField] copies (zero-padded) bytes of the record. *)
Definition z_PointOps : QueryCpp.PointOps := {|
  QueryCpp.Point := Z;
  QueryCpp.BBox := Z * Z;
  QueryCpp.Double := Z;
  QueryCpp.BBox_contains := fun b p => (b.1 <=? p) && (p <=? b.2);
  QueryCpp.BBox_mid_x := fun b => (b.1 + b.2) / 2;
  QueryCpp.BBox_mid_y := fun b => (b.1 + b.2) / 2;
  QueryCpp.BBox_mid_z := fun b => (b.1 + b.2) / 2;
  QueryCpp.getFieldAs_double := fun data _ =>
    byte.unsigned (nth 0 data Byte.x00);
  QueryCpp.double_sub := Z.sub;
  QueryCpp.float_bytes := le_split 4;
  QueryCpp.getField := fun data _ t =>
    take (N.to_nat t.2) (data ++ replicate (N.to_nat t.2) Byte.x00)
|}.

Section QuerySamples.
#[local] Existing Instance z_PointOps.

(** A root with an empty tube at index 1 whose child 5 holds a point, and a
    populated sibling 2. *)
Definition sample_tree : QueryCpp.Node :=
  QueryCpp.mkNode 0 true
    [QueryCpp.mkNode 1 true [QueryCpp.mkNode 5 true []];
     QueryCpp.mkNode 2 true []].

Definition sample_info (z : Z) : QueryCpp.PointInfo :=
  QueryCpp.mkPointInfo z [byte.of_Z z].

Definition sample_base (index : Z) : QueryCpp.Tube :=
  if (index =? 0) || (index =? 2) || (index =? 5)
  then QueryCpp.mkTube (Some (sample_info index)) []
  else QueryCpp.mkTube None [].

Definition sample_QueryDeps : QueryCpp.QueryDeps := {|
  QueryCpp.Cache_acquire := fun _ _ => None;
  QueryCpp.SplitClimber_ctor := fun _ _ _ depthBegin depthEnd =>
    QueryCpp.mkSplitClimber [(sample_tree, depthBegin)] depthEnd
|}.

Definition sample_structure : QueryCpp.Structure :=
  QueryCpp.mkStructure 0 4 0 4.

Definition sample_config : QueryCpp.QueryConfig :=
  QueryCpp.mkQueryConfig
    (QueryCpp.mkReader sample_structure (0, 8) "path"%string
       (Some sample_base))
    sample_structure (0, 8) 0 4 z_schema false.

(** A fresh query, and the same query after completion. *)
Definition sample_query : QueryCpp.Query :=
  QueryCpp.mkQuery sample_config [] None O 0 true false None None [].

Definition sample_query_done : QueryCpp.Query :=
  QueryCpp.set_done true sample_query.
End QuerySamples.

(* --------------------------------------------------------------------- *)
(** ** chunk.cpp: the remaining members                                  *)
(* --------------------------------------------------------------------- *)

(** [SimplePointTable] as [makeEmpty] uses it: the bytes of a table of [n]
    points after X and Y of each point have been set to
    [Point::emptyCoord()]. *)
Class EmptyTable : Type := { emptyPoints : Schema -> Z -> list byte }.

(** Contract of the empty table for one schema: it holds [n] records, and
    the point read back from each of them does not exist. *)
Class EmptyTableOk `{PointView} `{EmptyTable} (schema : Schema) : Prop := {
  emptyPoints_length :
    forall n, 0 <= n ->
      Z.of_nat (length (emptyPoints schema n)) = n * pointSize schema;
  emptyPoints_absent :
    forall n (i : nat), Z.of_nat i < n ->
      let pos :=
        drop (i * Z.to_nat (pointSize schema)) (emptyPoints schema n) in
      Point_exists (getFieldAs_X schema pos) (getFieldAs_Y schema pos) = false
}.

Section ChunkCppMore.
Context `{Cmp : Compression} `{PV : PointView} `{ET : EmptyTable}.

(** [makeEmpty]: the new [m_entries] and [m_data]; every entry is built by
    the [Entry] constructor that takes only the data pointer and leaves the
    point null. *)
Definition makeEmpty (b : ChunkDataBase) : list Entry * list byte :=
  (replicate (Z.to_nat (m_maxPoints b)) (mkEntry None),
   emptyPoints (m_schema b) (m_maxPoints b)).

(** [ContiguousChunkData(schema, id, maxPoints)]. *)
Definition ContiguousChunkData_new (schema : Schema) (id maxPoints : Z)
  : ContiguousChunkData :=
  let b := mkChunkDataBase schema id maxPoints in
  mkContiguousChunkData b (makeEmpty b).1 (makeEmpty b).2.

(** [Chunk(schema, id, maxPoints)]: sparse unless the id is 0. *)
Definition Chunk_new (schema : Schema) (id maxPoints : Z) : Chunk :=
  mkChunk
    (if negb (id =? 0)
     then SparseData (SparseChunkData_empty schema id maxPoints)
     else ContiguousData (ContiguousChunkData_new schema id maxPoints))
    (getThreshold schema).

(** [Chunk::getEntry]: forwards to the chunk data; a sparse chunk may gain
    an entry. *)
Definition Chunk_getEntry (c : Chunk) (rawIndex : Z) : result (Entry * Chunk) :=
  match m_chunkData c with
  | SparseData s =>
      let r := SparseChunkData_getEntry s rawIndex in
      Ok (r.1, mkChunk (SparseData r.2) (m_threshold c))
  | ContiguousData d =>
      e ← ContiguousChunkData_getEntry d rawIndex;
      Ok (e, c)
  end.

Definition Chunk_save (c : Chunk) (source : Source) : result Source :=
  save (m_chunkData c) source.

(** Calling [getEntry] on each raw index of a list in turn. *)
Definition getEntry_all (c : SparseChunkData) (rawIndices : list Z)
  : SparseChunkData :=
  foldl (fun c rawIndex => (SparseChunkData_getEntry c rawIndex).2)
        c rawIndices.

(** *** ChunkReader::create and ContiguousReader *)

Record ContiguousReader : Type := mkContiguousReader {
  cr_id : Z;
  cr_schema : Schema;
  cr_data : list byte
}.

Inductive ChunkReader : Type :=
| SparseReaderOf (r : SparseReader)
| ContiguousReaderOf (r : ContiguousReader).

Definition ChunkReader_create (id : Z) (schema : Schema) (data : list byte)
  : result ChunkReader :=
  '(type, data) ← getChunkType data;
  match type with
  | Sparse => SparseReaderOf <$> SparseReader_load id schema data
  | Contiguous => Ok (ContiguousReaderOf (mkContiguousReader id schema data))
  end.

(** [ContiguousReader::getData]: the pointer [m_data->data() + normal *
    pointSize], modelled by the bytes from there to the end of the buffer;
    a pointer past the buffer is [Undefined]. *)
Definition ContiguousReader_getData (r : ContiguousReader) (rawIndex : Z)
  : result (list byte) :=
  let normal := wrap (rawIndex - cr_id r) in
  let offset := wrap (normal * pointSize (cr_schema r)) in
  if Z.of_nat (length (cr_data r)) <? offset then Err Undefined
  else Ok (drop (Z.to_nat offset) (cr_data r)).

(** *** Specification-side vocabulary *)

(** The entry the loading constructor builds for slot [i] of a buffer. *)
Definition loaded_entry (schema : Schema) (m_data : list byte) (i : nat)
  : Entry :=
  let pos := drop (i * Z.to_nat (pointSize schema)) m_data in
  let x := getFieldAs_X schema pos in
  let y := getFieldAs_Y schema pos in
  mkEntry (if Point_exists x y then Some (mkPoint x y) else None).

(** Invariants of a contiguous chunk in memory: one buffer of [maxPoints]
    records, one entry per record, and sizes that fit a [size_t]. *)
Record ContiguousChunkData_wf (c : ContiguousChunkData) : Prop := {
  cwf_id : 0 <= m_id (contiguous_base c);
  cwf_max : 0 <= m_maxPoints (contiguous_base c);
  cwf_end :
    m_id (contiguous_base c) + m_maxPoints (contiguous_base c) < 2 ^ 64;
  cwf_data :
    Z.of_nat (length (c_data c))
    = m_maxPoints (contiguous_base c)
      * pointSize (m_schema (contiguous_base c));
  cwf_entries :
    Z.of_nat (length (c_entries c)) = m_maxPoints (contiguous_base c);
  cwf_size :
    m_maxPoints (contiguous_base c)
    * pointSize (m_schema (contiguous_base c)) < 2 ^ 64
}.

(** The bytes of the records [[begin, end)] of a contiguous chunk. *)
Definition slice_bytes (c : ContiguousChunkData) (begin end_ : Z)
  : list byte :=
  let pointSize := pointSize (m_schema (contiguous_base c)) in
  take (Z.to_nat ((end_ - begin) * pointSize))
       (drop (Z.to_nat ((begin - m_id (contiguous_base c)) * pointSize))
             (c_data c)).

End ChunkCppMore.

(* --------------------------------------------------------------------- *)
(** ** chunk-reader.cpp: BaseChunkReader                                 *)
(* --------------------------------------------------------------------- *)

Module BaseChunkReaderCpp.
Import ChunkReaderCpp.

(** [pointRef.getFieldAs<uint64_t>(tubeId)] on the record at [pos]. *)
Class CelledTable : Type := { readTubeId : Schema -> list byte -> Z }.

Section WithTables.
Context `{Cmp : Compression} `{TG : TickGeometry} `{CT : CelledTable}.

(** What the constructor takes from [Metadata]: the envelope decoder
    ([acquireRawBytes], [numPoints]), [format().compress()] and
    [structure().baseIndexSpan()]. *)
Record BaseMetadata : Type := mkBaseMetadata {
  bmd_unpackRaw : list byte -> result (list byte * Z);
  bmd_compress : bool;
  bmd_baseIndexSpan : Z
}.

(** An element of a tube: the point and the offset of its native record
    ([pos + dataOffset]). *)
Record TubeEntry : Type := mkTubeEntry {
  te_point : Point;
  te_data : nat
}.

Record BaseChunkReader : Type := mkBaseChunkReader {
  b_id : Z;
  b_data : list byte;
  b_tubes : list (list TubeEntry)
}.

(** [m_tubes.at(tube).emplace_back(entry)]; [at] throws
    [std::out_of_range], whose message is implementation-defined. *)
Definition place (tubes : list (list TubeEntry)) (tube : Z) (e : TubeEntry)
  : result (list (list TubeEntry)) :=
  if Z.of_nat (length tubes) <=? tube
  then Err (Throw "out_of_range"%string)
  else Ok (alter (fun t => t ++ [e]) (Z.to_nat tube) tubes).

(** The tube id and the tube entry read from the record at [pos]. *)
Definition record_at (celledSchema : Schema) (data : list byte) (pos : nat)
  : Z * TubeEntry :=
  (wrap (readTubeId celledSchema (drop pos data)),
   mkTubeEntry (readPoint celledSchema (drop pos data)) (pos + 8)).

(** The loop over the records, [pos] advancing by [pointSize]. *)
Fixpoint place_records (celledSchema : Schema) (data : list byte)
    (positions : list nat) (tubes : list (list TubeEntry))
  : result (list (list TubeEntry)) :=
  match positions with
  | [] => Ok tubes
  | pos :: positions' =>
      let r := record_at celledSchema data pos in
      tubes ← place tubes r.1 r.2;
      place_records celledSchema data positions' tubes
  end.

Definition positions (pointSize numPoints : Z) : list nat :=
  map (fun i => (i * Z.to_nat pointSize)%nat) (seq 0 (Z.to_nat numPoints)).

Definition BaseChunkReader_ctor (metadata : BaseMetadata)
    (celledSchema : Schema) (id : Z) (data : list byte)
  : result BaseChunkReader :=
  '(raw, numPoints) ← bmd_unpackRaw metadata data;
  m_data ← (if bmd_compress metadata
            then decompress raw celledSchema numPoints
            else Ok raw);
  let pointSize := pointSize celledSchema in
  if Z.of_nat (length m_data) <? numPoints * pointSize then Err Undefined
  else
    tubes ← place_records celledSchema m_data (positions pointSize numPoints)
              (replicate (Z.to_nat (bmd_baseIndexSpan metadata)) []);
    Ok (mkBaseChunkReader id m_data tubes).

(** The decoded records in buffer order. *)
Definition records (celledSchema : Schema) (data : list byte)
    (numPoints : Z) : list (Z * TubeEntry) :=
  map (record_at celledSchema data)
      (positions (pointSize celledSchema) numPoints).

End WithTables.
End BaseChunkReaderCpp.

(* --------------------------------------------------------------------- *)
(** ** Further sample data                                               *)
(* --------------------------------------------------------------------- *)

(** An empty table whose every byte is the empty coordinate [0xff]. *)
Definition ff_EmptyTable : EmptyTable := {|
  emptyPoints := fun schema n =>
    replicate (Z.to_nat (n * pointSize schema)) Byte.xff
|}.

(** A celled table whose tube id is the first eight bytes of the record. *)
Definition le_CelledTable : BaseChunkReaderCpp.CelledTable := {|
  BaseChunkReaderCpp.readTubeId := fun _ pos => load_u64 pos
|}.

(** The geometry of celled records: the height is the byte after the
    8-byte tube id. *)
Definition celled_z_TickGeometry : ChunkReaderCpp.TickGeometry := {|
  ChunkReaderCpp.Point := Z;
  ChunkReaderCpp.Bounds := Z * Z;
  ChunkReaderCpp.Bounds_min := fst;
  ChunkReaderCpp.Bounds_max := snd;
  ChunkReaderCpp.calcTick := fun p b depth => (p - b.1) * 2 ^ depth;
  ChunkReaderCpp.readPoint := fun _ pos => byte.unsigned (nth 8 pos Byte.x00)
|}.

(** The celled schema of [z_schema]: an 8-byte tube id, then the height. *)
Definition celled_z_schema : Schema :=
  mkSchema [mkDimInfo "TubeId"%string "unsigned"%string 8;
            mkDimInfo "Z"%string "unsigned"%string 1].

Section MoreSamples.
#[local] Existing Instance byte_PointView.
#[local] Existing Instance z_TickGeometry.
#[local] Existing Instance le_CelledTable.

(** A contiguous chunk of four two-byte points starting at raw index 4. *)
Definition sample_contiguous : ContiguousChunkData :=
  mkContiguousChunkData (mkChunkDataBase xy_schema 4 4)
    (replicate 4 (mkEntry None))
    [Byte.x01; Byte.x02; Byte.x03; Byte.x04;
     Byte.xff; Byte.xff; Byte.x07; Byte.x08].

(** An uncompressed base payload: heights 7, 8, 9 in tubes 1, 0, 1. *)
Definition sample_base_payload : list byte :=
  (store_u64 1 ++ [Byte.x07]) ++ (store_u64 0 ++ [Byte.x08])
  ++ (store_u64 1 ++ [Byte.x09]).

Definition sample_base_metadata : BaseChunkReaderCpp.BaseMetadata :=
  BaseChunkReaderCpp.mkBaseMetadata (fun data => Ok (data, 3)) false 2.
End MoreSamples.

Section BaseReaderSample.
#[local] Existing Instance celled_z_TickGeometry.

(** The base reader of [sample_base_payload]: height 8 in tube 0, heights
    7 and 9 in tube 1. *)
Definition sample_base_reader : BaseChunkReaderCpp.BaseChunkReader :=
  BaseChunkReaderCpp.mkBaseChunkReader 0 sample_base_payload
    [[BaseChunkReaderCpp.mkTubeEntry 8 17];
     [BaseChunkReaderCpp.mkTubeEntry 7 8;
      BaseChunkReaderCpp.mkTubeEntry 9 26]].
End BaseReaderSample.

(* --------------------------------------------------------------------- *)
(** ** Specification-side vocabulary for a running query                 *)
(* --------------------------------------------------------------------- *)

Section QueryVocabulary.
Context `{PO : QueryCpp.PointOps}.

(** The record [processPoint] appends for the point data [data]: the bytes
    of each dimension of the output schema, in schema order. *)
Definition output_record (cfg : QueryCpp.QueryConfig) (data : list byte)
  : list byte :=
  concat (map (QueryCpp.field_bytes cfg data)
              (dims (QueryCpp.m_outSchema cfg))).

(** Specification side.  The bytes a record holds for one dimension of the
    output schema, in the words of the specification: a field is copied as
    the point table returns it, except that a normalizing query emits an X,
    Y or Z of byte size 4 as the [float] of the stored value minus the
    matching coordinate of the midpoint of the reader's bounds. *)
Definition spec_field (cfg : QueryCpp.QueryConfig) (data : list byte)
    (dim : DimInfo) : list byte :=
  let copied :=
    QueryCpp.getField data (dim_name dim) (dim_type dim, dim_size dim) in
  let centered (mid : QueryCpp.Double) :=
    QueryCpp.float_bytes
      (QueryCpp.double_sub (QueryCpp.getFieldAs_double data (dim_name dim))
         mid) in
  let bounds := QueryCpp.reader_bbox (QueryCpp.m_reader cfg) in
  if negb (QueryCpp.m_normalize cfg) then copied
  else if negb (dim_size dim =? 4)%N then copied
  else if String.eqb (dim_name dim) "X" then
    centered (QueryCpp.BBox_mid_x bounds)
  else if String.eqb (dim_name dim) "Y" then
    centered (QueryCpp.BBox_mid_y bounds)
  else if String.eqb (dim_name dim) "Z" then
    centered (QueryCpp.BBox_mid_z bounds)
  else copied.

Definition spec_record (cfg : QueryCpp.QueryConfig) (data : list byte)
  : list byte :=
  concat (map (spec_field cfg data) (dims (QueryCpp.m_outSchema cfg))).

(** The points a stretch of the log handed to [processPoint], in order. *)
Definition logged_points (t : list QueryCpp.event)
  : list QueryCpp.PointInfo :=
  omap (fun e => match e with
                 | QueryCpp.EvPoint _ info => Some info
                 | QueryCpp.EvTube _ => None
                 end) t.

(** Those of [infos] that lie inside the query bounds, and their records. *)
Definition selected (cfg : QueryCpp.QueryConfig)
    (infos : list QueryCpp.PointInfo) : list QueryCpp.PointInfo :=
  List.filter
    (fun info =>
       QueryCpp.BBox_contains (QueryCpp.m_qbox cfg) (QueryCpp.pi_point info))
    infos.

Definition output_records (cfg : QueryCpp.QueryConfig)
    (infos : list QueryCpp.PointInfo) : list byte :=
  concat (map (fun info => output_record cfg (QueryCpp.pi_data info))
              (selected cfg infos)).

(** Between the states [q0] and [q] the events [new] were logged and their
    points emitted: the configuration is the same, the caller's buffer grew
    by the records of the logged points inside the bounds, and the point
    count advanced by their number (modulo 2^64). *)
Definition emitted (q0 q : QueryCpp.Query) (new : list QueryCpp.event)
  : Prop :=
  QueryCpp.config q = QueryCpp.config q0
  /\ QueryCpp.trace q = QueryCpp.trace q0 ++ new
  /\ wrap (QueryCpp.m_numPoints q)
     = wrap (QueryCpp.m_numPoints q0
             + Z.of_nat (length (selected (QueryCpp.config q0)
                                   (logged_points new))))
  /\ exists b0,
      QueryCpp.m_buffer q0 = Some b0
      /\ QueryCpp.m_buffer q
         = Some (b0 ++ output_records (QueryCpp.config q0)
                         (logged_points new)).

(** Two states agree on the members that steer the traversal. *)
Definition same_control (q q' : QueryCpp.Query) : Prop :=
  QueryCpp.config q' = QueryCpp.config q
  /\ QueryCpp.m_chunks q' = QueryCpp.m_chunks q
  /\ QueryCpp.m_block q' = QueryCpp.m_block q
  /\ QueryCpp.m_chunkReaderIt q' = QueryCpp.m_chunkReaderIt q
  /\ QueryCpp.m_base q' = QueryCpp.m_base q
  /\ QueryCpp.m_done q' = QueryCpp.m_done q.

End QueryVocabulary.

(* ===================================================================== *)
(** * Part II: properties                                                *)
(* ===================================================================== *)

(** ** Machine integers and buffers *)

Lemma wrap_small z : 0 <= z < 2 ^ 64 -> wrap z = z.
Proof. intros Hz. unfold wrap. apply Z.mod_small. exact Hz. Qed.

Lemma wrap_range z : 0 <= wrap z < 2 ^ 64.
Proof. unfold wrap. apply Z.mod_pos_bound. lia. Qed.

Lemma length_store_u64 n : length (store_u64 n) = 8%nat.
Proof. apply length_le_split. Qed.

Lemma load_store_u64 n rest :
  0 <= n < 2 ^ 64 -> load_u64 (store_u64 n ++ rest) = n.
Proof.
  intros Hn. unfold load_u64.
  rewrite take_app_length' by (symmetry; apply length_store_u64).
  unfold store_u64. rewrite le_combine_split.
  apply Z.mod_small. exact Hn.
Qed.

Lemma pointSize_nonneg s : 0 <= pointSize s.
Proof. unfold pointSize. lia. Qed.

Lemma pointSize_makeSparse s :
  pointSize (mkSchema (makeSparse s)) = 8 + pointSize s.
Proof. unfold pointSize, makeSparse. simpl. lia. Qed.

Lemma char_to_int_0 c : char_to_int c = 0 <-> c = Byte.x00.
Proof. destruct c; vm_compute; split; congruence. Qed.

Lemma char_to_int_1 c : char_to_int c = 1 <-> c = Byte.x01.
Proof. destruct c; vm_compute; split; congruence. Qed.

(** ** The chunk factory *)

Section FactoryProps.
Context `{Cmp : Compression} `{PV : PointView}.

Lemma getChunkType_nil :
  getChunkType [] = Err (Throw "Invalid chunk data detected"%string).
Proof. reflexivity. Qed.

Lemma getChunkType_snoc body marker :
  getChunkType (body ++ [marker]) =
  if Byte.eqb marker Byte.x00 then Ok (Sparse, body)
  else if Byte.eqb marker Byte.x01 then Ok (Contiguous, body)
  else Err (Throw "Invalid chunk type detected"%string).
Proof.
  unfold getChunkType. rewrite last_snoc, removelast_last.
  change (ChunkType_value Sparse) with 0.
  change (ChunkType_value Contiguous) with 1.
  destruct (Byte.eqb marker Byte.x00) eqn:E0.
  - apply Byte.byte_dec_bl in E0. subst marker. reflexivity.
  - destruct (char_to_int marker =? 0) eqn:C0.
    + apply Z.eqb_eq, char_to_int_0 in C0. subst marker. discriminate E0.
    + destruct (Byte.eqb marker Byte.x01) eqn:E1.
      * apply Byte.byte_dec_bl in E1. subst marker. reflexivity.
      * destruct (char_to_int marker =? 1) eqn:C1; [|reflexivity].
        apply Z.eqb_eq, char_to_int_1 in C1. subst marker. discriminate E1.
Qed.

(** C3.  [ChunkDataFactory::create] on an empty vector raises "Invalid
    chunk data detected".  On a non-empty vector the trailing byte is
    popped: a trailing [0x00] hands the remaining bytes to the
    [SparseChunkData] constructor, a trailing [0x01] hands them to the
    [ContiguousChunkData] constructor, and any other trailing byte raises
    "Invalid chunk type detected". *)
Theorem factory_marker_dispatch (schema : Schema) (id maxPoints : Z) :
  ChunkDataFactory_create schema id maxPoints []
  = Err (Throw "Invalid chunk data detected"%string)
  /\ forall body marker,
      ChunkDataFactory_create schema id maxPoints (body ++ [marker]) =
      if Byte.eqb marker Byte.x00
      then SparseData <$> SparseChunkData_load schema id maxPoints body
      else if Byte.eqb marker Byte.x01
      then ContiguousData
             <$> ContiguousChunkData_load schema id maxPoints body
      else Err (Throw "Invalid chunk type detected"%string).
Proof.
  split; [reflexivity|].
  intros body marker. unfold ChunkDataFactory_create.
  rewrite getChunkType_snoc.
  destruct (Byte.eqb marker Byte.x00); [reflexivity|].
  destruct (Byte.eqb marker Byte.x01); reflexivity.
Qed.

End FactoryProps.

(** ** The density threshold *)

(** C2 (as the code computes it).  For every schema with a positive point
    size that does not overflow, [getThreshold] returns 0: the quotient
    [pointSize / (pointSize + sizeof(size_t))] is taken on [std::size_t]
    operands and truncates, whereas the exact ratio is positive. *)
Theorem getThreshold_truncates (schema : Schema) :
  0 < pointSize schema ->
  pointSize schema + sizeof_size_t < 2 ^ 64 ->
  getThreshold schema = Ok 0%Q /\ (0 < threshold_ratio schema)%Q.
Proof.
  intros Hpos Hfit. unfold sizeof_size_t in Hfit. split.
  - unfold getThreshold, sizeof_size_t.
    rewrite (wrap_small (pointSize schema)) by lia.
    rewrite (wrap_small (pointSize schema + 8)) by lia.
    destruct (pointSize schema + 8 =? 0) eqn:E; [lia|].
    rewrite Z.div_small by lia. reflexivity.
  - unfold threshold_ratio, Qlt. simpl. lia.
Qed.

Lemma getThreshold_truncates_witness :
  getThreshold xyz_schema = Ok 0%Q /\ (0 < threshold_ratio xyz_schema)%Q.
Proof.
  apply (getThreshold_truncates xyz_schema); vm_compute; reflexivity.
Defined.

(** ** The sparse blob: count field *)

Section SparseWriteProps.
Context `{Cmp : Compression} `{PV : PointView}.

(** C1 (as the code behaves).  Writing the range [[0, 100)] of the chunk
    holding indices 10, 42 and 1000 serializes the two records in range,
    stores the blob under the name "0" and ends it with the Sparse marker,
    but the eight bytes before the marker encode 3, the size of the whole
    entry map, not the number of records in the blob. *)
Theorem sparse_write_counts_all_entries :
  let sparse := mkSchema (makeSparse xy_schema) in
  exists squashed,
    squash sample_sparse sparse 0 100 = Ok squashed
    /\ Z.of_nat (length squashed) = 2 * pointSize sparse
    /\ SparseChunkData_write sample_sparse ∅ 0 100
       = Ok (Source_put ∅ "0"%string
               (pushNumPoints (compress squashed sparse) 3
                  ++ [ChunkType_char Sparse]))
    /\ load_u64 (store_u64 3) = 3.
Proof.
  eexists. split; [vm_compute; reflexivity|].
  split; [vm_compute; reflexivity|].
  split; [|vm_compute; reflexivity].
  vm_compute. reflexivity.
Qed.

End SparseWriteProps.

(** ** Sparse round trip: write, then the factory *)

Lemma partition_point_none {A} (p : A -> bool) l :
  Forall (fun x => p x = false) l -> partition_point p l = O.
Proof.
  destruct 1 as [|x l Hx _]; simpl; [reflexivity|].
  rewrite Hx. reflexivity.
Qed.

Lemma partition_point_all {A} (p : A -> bool) l :
  Forall (fun x => p x = true) l -> partition_point p l = length l.
Proof.
  induction 1 as [|x l Hx _ IH]; simpl; [reflexivity|].
  rewrite Hx, IH. reflexivity.
Qed.

Section SparseRoundTrip.
Context `{Cmp : Compression} `{PV : PointView}.

Lemma in_order_perm {V} (m : gmap Z V) :
  Permutation (in_order m) (map_to_list m).
Proof. unfold in_order. apply merge_sort_Permutation. Qed.

Lemma in_order_Forall {V} (P : Z * V -> Prop) (m : gmap Z V) :
  (forall k v, m !! k = Some v -> P (k, v)) ->
  Forall P (in_order m).
Proof.
  intros HP. rewrite (in_order_perm m). apply Forall_forall.
  intros [k v] Hin. apply elem_of_map_to_list in Hin. auto.
Qed.

Lemma list_to_map_in_order {V} (m : gmap Z V) :
  list_to_map (in_order m) = m.
Proof.
  rewrite <- (list_to_map_to_list m) at 2.
  apply list_to_map_proper.
  - rewrite (in_order_perm m). apply NoDup_fst_map_to_list.
  - apply in_order_perm.
Qed.

Lemma length_in_order {V} (m : gmap Z V) : length (in_order m) = size m.
Proof. rewrite (in_order_perm m). apply length_map_to_list. Qed.

Lemma rmapM_squash_record nps (l : list (Z * SparseEntry)) :
  Forall (fun e => Z.of_nat (length (data e.2)) = nps) l ->
  rmapM (squash_record nps) l = Ok (map cell_bytes l).
Proof.
  induction 1 as [|e l He _ IH]; [reflexivity|].
  cbn [rmapM map]. rewrite IH. unfold squash_record.
  destruct (Z.of_nat (length (data e.2)) <? nps) eqn:E; [lia|].
  simpl. unfold cell_bytes at 1.
  rewrite firstn_all2 by lia. reflexivity.
Qed.

Lemma length_concat_cells nps (l : list (Z * SparseEntry)) :
  Forall (fun e => Z.of_nat (length (data e.2)) = nps) l ->
  Z.of_nat (length (concat (map cell_bytes l)))
  = Z.of_nat (length l) * (nps + 8).
Proof.
  induction 1 as [|e l He _ IH]; [simpl; lia|].
  cbn [map concat length]. rewrite length_app. unfold cell_bytes at 1.
  rewrite length_app, length_store_u64. lia.
Qed.

Lemma squash_full_range (c : SparseChunkData) :
  SparseChunkData_wf c ->
  squash c (mkSchema (makeSparse (m_schema (sparse_base c))))
    (m_id (sparse_base c)) (endId (sparse_base c))
  = Ok (concat (map cell_bytes (in_order (m_entries c)))).
Proof.
  intros [Hid Hend Hkeys Hdata Hpoint Hsize]. unfold squash.
  rewrite pointSize_makeSparse.
  pose proof (pointSize_nonneg (m_schema (sparse_base c))) as Hps.
  unfold sizeof_uint64_t. rewrite wrap_small by lia.
  replace (pointSize (m_schema (sparse_base c)) + 8 =?
           8 + pointSize (m_schema (sparse_base c))) with true
    by (symmetry; apply Z.eqb_eq; lia).
  cbn [negb].
  assert (Hlo : map_lower_bound (m_entries c) (m_id (sparse_base c)) = O).
  { apply partition_point_none, in_order_Forall.
    intros k v Hkv. apply Hkeys in Hkv. simpl. apply Z.ltb_ge. lia. }
  assert (Hhi : map_upper_bound (m_entries c)
                  (wrap (endId (sparse_base c) - 1))
                = length (in_order (m_entries c))).
  { apply partition_point_all, in_order_Forall.
    intros k v Hkv. apply Hkeys in Hkv. simpl. apply Z.leb_le.
    unfold endId. rewrite (wrap_small (_ + _)) by lia.
    rewrite wrap_small by lia. lia. }
  rewrite Hlo, Hhi.
  replace (length (in_order (m_entries c)) <? 0)%nat with false
    by (symmetry; apply Nat.ltb_ge; lia).
  rewrite Nat.sub_0_r, drop_0, firstn_all.
  rewrite rmapM_squash_record; [reflexivity|].
  apply in_order_Forall. intros k v Hkv. simpl. eauto.
Qed.

Lemma decode_records_step {V} fuel sps (mk : list byte -> V) pos acc :
  (0 < length pos)%nat ->
  decode_records (S fuel) sps mk pos acc =
  if Z.of_nat (length pos) <? sps then Err Undefined
  else decode_records fuel sps mk (drop (Z.to_nat sps) pos)
         (map_emplace (load_u64 pos) (mk (drop 8 pos)) acc).
Proof. destruct pos; simpl; [lia|reflexivity]. Qed.

Lemma emplace_union_data k (v e : SparseEntry) (acc M : gmap Z SparseEntry) :
  data v = data e ->
  data <$> (map_emplace k v acc ∪ M) = data <$> (acc ∪ <[k := e]> M).
Proof.
  intros Hd. apply map_eq. intros j.
  rewrite !lookup_fmap, !lookup_union. unfold map_emplace.
  destruct (acc !! k) eqn:Hk.
  - destruct (decide (j = k)) as [->|Hne].
    + rewrite Hk. rewrite lookup_insert_eq. destruct (M !! k); reflexivity.
    + rewrite lookup_insert_ne by congruence. reflexivity.
  - destruct (decide (j = k)) as [->|Hne].
    + rewrite Hk, !lookup_insert_eq. simpl.
      destruct (M !! k); simpl; rewrite Hd; reflexivity.
    + rewrite !lookup_insert_ne by congruence. reflexivity.
Qed.

Lemma decode_cell_bytes schema (l : list (Z * SparseEntry)) :
  forall fuel acc,
    Forall (fun e => 0 <= e.1 < 2 ^ 64
                     /\ Z.of_nat (length (data e.2)) = pointSize schema) l ->
    (length l <= fuel)%nat ->
    exists m',
      decode_records fuel (8 + pointSize schema) (SparseEntry_at schema)
        (concat (map cell_bytes l)) acc = Ok m'
      /\ data <$> m' = data <$> (acc ∪ list_to_map l).
Proof.
  induction l as [|[k e] l IH]; intros fuel acc Hall Hfuel.
  - exists acc. split; [destruct fuel; reflexivity|].
    simpl. rewrite (right_id_L ∅ (∪)). reflexivity.
  - inversion Hall as [|? ? [Hk Hlen] Hall']; subst. simpl in Hk, Hlen.
    destruct fuel as [|fuel]; [simpl in Hfuel; lia|].
    cbn [map concat]. unfold cell_bytes at 1. cbn [fst snd].
    set (rest := concat (map cell_bytes l)).
    pose proof (pointSize_nonneg schema) as Hps.
    rewrite decode_records_step
      by (rewrite !length_app, length_store_u64; lia).
    replace (Z.of_nat (length ((store_u64 k ++ data e) ++ rest))
             <? 8 + pointSize schema) with false
      by (symmetry; apply Z.ltb_ge;
          rewrite !length_app, length_store_u64; lia).
    assert (Hload : load_u64 ((store_u64 k ++ data e) ++ rest) = k)
      by (rewrite <- app_assoc; apply load_store_u64; exact Hk).
    assert (Hd8 : drop 8 ((store_u64 k ++ data e) ++ rest) = data e ++ rest)
      by (rewrite <- app_assoc; apply drop_app_length';
          rewrite length_store_u64; reflexivity).
    assert (Hds : drop (Z.to_nat (8 + pointSize schema))
                    ((store_u64 k ++ data e) ++ rest) = rest)
      by (apply drop_app_length';
          rewrite length_app, length_store_u64; lia).
    rewrite Hload, Hd8, Hds.
    destruct (IH fuel
                (map_emplace k (SparseEntry_at schema (data e ++ rest)) acc)
                Hall' ltac:(simpl in Hfuel; lia)) as (m' & Hdec & Hm').
    exists m'. split; [exact Hdec|].
    rewrite Hm'. cbn [list_to_map foldr fst snd].
    apply emplace_union_data.
    unfold SparseEntry_at. cbn [data].
    apply take_app_length'. lia.
Qed.

Lemma fmap_data_dom (m1 m2 : gmap Z SparseEntry) :
  data <$> m1 = data <$> m2 -> dom m1 = dom m2.
Proof.
  intros H. rewrite <- (dom_fmap_L data m1), <- (dom_fmap_L data m2).
  rewrite H. reflexivity.
Qed.

Lemma popNumPoints_pushNumPoints body n :
  0 <= n < 2 ^ 64 -> popNumPoints (pushNumPoints body n) = Ok (n, body).
Proof.
  intros Hn. unfold popNumPoints, pushNumPoints, sizeof_uint64_t.
  rewrite length_app, length_store_u64.
  destruct (Z.of_nat (length body + 8) <? 8) eqn:E;
    [apply Z.ltb_lt in E; lia|].
  replace (length body + 8 - 8)%nat with (length body) by lia.
  rewrite drop_app_length, take_app_length.
  rewrite <- (app_nil_r (store_u64 n)), load_store_u64 by exact Hn.
  reflexivity.
Qed.

Lemma create_sparse_marker schema id maxPoints body :
  ChunkDataFactory_create schema id maxPoints (body ++ [ChunkType_char Sparse])
  = SparseData <$> SparseChunkData_load schema id maxPoints body.
Proof.
  unfold ChunkDataFactory_create. rewrite getChunkType_snoc. reflexivity.
Qed.

Section RoundTrip.
Context `{CmpOk : !CompressionOk}.

(** C4.  Round trip of a sparse chunk.  For a well-formed sparse chunk with
    any set of raw indices populated, and a codec that round-trips,
    [save] (that is [write] over [[m_id, endId)]) succeeds and stores a
    blob under the chunk's id; the factory applied to that blob builds a
    sparse chunk of the same id and capacity whose populated index set is
    the original one and whose bytes at every index are the original
    bytes. *)
Theorem sparse_write_factory_roundtrip (c : SparseChunkData) (source : Source) :
  SparseChunkData_wf c ->
  exists source' blob c',
    save (SparseData c) source = Ok source'
    /\ source' !! to_string (m_id (sparse_base c)) = Some blob
    /\ ChunkDataFactory_create (m_schema (sparse_base c))
         (m_id (sparse_base c)) (m_maxPoints (sparse_base c)) blob
       = Ok (SparseData c')
    /\ sparse_base c' = sparse_base c
    /\ dom (m_entries c') = dom (m_entries c)
    /\ data <$> m_entries c' = data <$> m_entries c.
Proof.
  intros Hwf. pose proof (squash_full_range c Hwf) as Hsq.
  destruct Hwf as [Hid Hend Hkeys Hdata Hpoint Hsize].
  destruct c as [[schema id maxPoints] entries].
  cbn [sparse_base m_entries m_schema m_id m_maxPoints] in *.
  set (sparse := mkSchema (makeSparse schema)) in *.
  set (l := in_order entries) in *.
  set (squashed := concat (map cell_bytes l)) in *.
  pose proof (pointSize_nonneg schema) as Hps.
  assert (Hl : Forall (fun e => 0 <= e.1 < 2 ^ 64
                 /\ Z.of_nat (length (data e.2)) = pointSize schema) l).
  { apply in_order_Forall. intros k e Hke. simpl.
    split; [apply Hkeys in Hke; lia|eauto]. }
  assert (Hlen : Z.of_nat (length squashed)
                 = Z.of_nat (size entries) * (pointSize schema + 8)).
  { unfold squashed. rewrite (length_concat_cells (pointSize schema)).
    - unfold l. rewrite length_in_order. reflexivity.
    - eapply Forall_impl; [exact Hl|]. intros e [_ He]. exact He. }
  assert (Hn : 0 <= Z.of_nat (size entries) < 2 ^ 64) by nia.
  destruct (decode_cell_bytes schema l (S (length squashed)) ∅ Hl)
    as (m' & Hdec & Hm').
  { unfold l in *. rewrite length_in_order in *. nia. }
  set (blob := pushNumPoints (compress squashed sparse)
                 (wrap (Z.of_nat (size entries)))
               ++ [ChunkType_char Sparse]).
  exists (Source_put source (to_string id) blob), blob,
         (mkSparseChunkData (mkChunkDataBase schema id maxPoints) m').
  split.
  { unfold save, write, SparseChunkData_write.
    cbn [base_of sparse_base m_entries m_schema m_id].
    fold sparse. rewrite Hsq. reflexivity. }
  split; [apply lookup_insert_eq|].
  split.
  { unfold blob. rewrite create_sparse_marker.
    unfold SparseChunkData_load.
    rewrite popNumPoints_pushNumPoints by apply wrap_range.
    cbn [mbind result_bind].
    rewrite (wrap_small (Z.of_nat (size entries))) by exact Hn.
    rewrite pointSize_makeSparse. fold sparse.
    replace (wrap (Z.of_nat (size entries) * (8 + pointSize schema)))
      with (Z.of_nat (length squashed))
      by (rewrite wrap_small by lia; lia).
    rewrite decompress_compress. cbn [mbind result_bind].
    fold squashed in Hdec. rewrite Hdec. reflexivity. }
  split; [reflexivity|].
  cbn [m_entries].
  rewrite (left_id_L ∅ (∪)) in Hm'. unfold l in Hm'.
  rewrite list_to_map_in_order in Hm'.
  split; [apply fmap_data_dom|]; exact Hm'.
Qed.
End RoundTrip.
End SparseRoundTrip.

(** The identity codec honours the codec contract. *)
Lemma identity_CompressionOk : @CompressionOk identity_Compression.
Proof.
  constructor. intros data schema. simpl.
  rewrite Z.eqb_refl. reflexivity.
Qed.

Section RoundTripWitness.
#[local] Existing Instance identity_Compression.
#[local] Existing Instance byte_PointView.

Lemma sparse_write_factory_roundtrip_witness :
  SparseChunkData_wf sample_sparse
  /\ exists source' blob c',
      save (SparseData sample_sparse) ∅ = Ok source'
      /\ source' !! to_string 0 = Some blob
      /\ ChunkDataFactory_create xy_schema 0 4096 blob = Ok (SparseData c')
      /\ sparse_base c' = sparse_base sample_sparse
      /\ dom (m_entries c') = dom (m_entries sample_sparse)
      /\ data <$> m_entries c' = data <$> m_entries sample_sparse.
Proof.
  assert (Hwf : SparseChunkData_wf sample_sparse).
  { constructor.
    - vm_compute. discriminate.
    - vm_compute. reflexivity.
    - apply (bool_decide_unpack (map_Forall (fun k _ => 0 <= k < 0 + 4096) _)).
      vm_compute. reflexivity.
    - apply (bool_decide_unpack
               (map_Forall
                  (fun _ (e : SparseEntry) => Z.of_nat (length (data e)) = 2)
                  _)).
      vm_compute. reflexivity.
    - vm_compute. reflexivity.
    - vm_compute. reflexivity. }
  split; [exact Hwf|].
  exact (sparse_write_factory_roundtrip (CmpOk := identity_CompressionOk)
           sample_sparse ∅ Hwf).
Defined.
End RoundTripWitness.

(** ** The sparse reader *)

Section SparseReaderProps.
Context `{Cmp : Compression} `{PV : PointView}.

Lemma emplace_union {V} k (v : V) (acc M : gmap Z V) :
  map_emplace k v acc ∪ M = acc ∪ <[k := v]> M.
Proof.
  apply map_eq. intros j. rewrite !lookup_union. unfold map_emplace.
  destruct (acc !! k) eqn:Hk.
  - destruct (decide (j = k)) as [->|Hne].
    + rewrite Hk, lookup_insert_eq. destruct (M !! k); reflexivity.
    + rewrite lookup_insert_ne by congruence. reflexivity.
  - destruct (decide (j = k)) as [->|Hne].
    + rewrite Hk, !lookup_insert_eq. destruct (M !! k); reflexivity.
    + rewrite !lookup_insert_ne by congruence. reflexivity.
Qed.

(** The decoding loop inserts the cells in buffer order, the first
    occurrence of a key winning. *)
Lemma decode_records_cells {V} (mk : list byte -> V) sps fuel :
  forall pos acc m',
    decode_records fuel sps mk pos acc = Ok m' ->
    m' = acc ∪ list_to_map ((fun c => (c.1, mk c.2)) <$> cells fuel sps pos).
Proof.
  induction fuel as [|fuel IH]; intros pos acc m' Hdec.
  - destruct pos; simpl in Hdec; [|discriminate].
    inversion Hdec; subst. simpl. rewrite (right_id_L ∅ (∪)). reflexivity.
  - destruct pos as [|b pos'].
    + simpl in Hdec. inversion Hdec; subst. simpl.
      rewrite (right_id_L ∅ (∪)). reflexivity.
    + cbn [decode_records cells] in *.
      destruct (Z.of_nat (length (b :: pos')) <? sps); [discriminate|].
      apply IH in Hdec. rewrite Hdec.
      cbn [fmap list_fmap list_to_map foldr fst snd].
      apply emplace_union.
Qed.

(** C9.  A [SparseReader] built from a blob holds the cells of the
    decompressed buffer.  [getData] of a raw index that is not the key of
    any decoded cell returns the null pointer, with no error raised; for a
    raw index that is the key of a decoded cell it returns the point bytes
    of a cell with that key, the [pointSize] bytes that follow the key. *)
Theorem SparseReader_getData_decoded (id : Z) (schema : Schema)
    (blob : list byte) (r : SparseReader) :
  SparseReader_load id schema blob = Ok r ->
  let sparse := mkSchema (makeSparse schema) in
  exists numPoints body squashed,
    popNumPoints blob = Ok (numPoints, body)
    /\ decompress body sparse (wrap (numPoints * pointSize sparse))
       = Ok squashed
    /\ let decoded := cells (S (length squashed)) (pointSize sparse) squashed in
       (forall rawIndex,
           rawIndex ∉ decoded.*1 -> SparseReader_getData r rawIndex = None)
       /\ (forall rawIndex,
              rawIndex ∈ decoded.*1 ->
              exists after,
                (rawIndex, after) ∈ decoded
                /\ SparseReader_getData r rawIndex
                   = Some (take (Z.to_nat (pointSize schema)) after)).
Proof.
  intros Hload sparse. unfold SparseReader_load in Hload.
  destruct (popNumPoints blob) as [[numPoints body]|e] eqn:Hpop;
    [|discriminate].
  cbn [mbind result_bind] in Hload. fold sparse in Hload.
  destruct (decompress body sparse (wrap (numPoints * pointSize sparse)))
    as [squashed|e] eqn:Hdecomp; [|discriminate].
  cbn [mbind result_bind] in Hload.
  destruct (decode_records (S (length squashed)) (pointSize sparse)
              (SparseReader_point (pointSize sparse)) squashed ∅)
    as [m|e] eqn:Hdec; [|discriminate].
  cbn [mbind result_bind] in Hload. inversion Hload; subst r. clear Hload.
  apply decode_records_cells in Hdec.
  rewrite (left_id_L ∅ (∪)) in Hdec.
  exists numPoints, body, squashed.
  split; [reflexivity|]. split; [exact Hdecomp|].
  set (decoded := cells (S (length squashed)) (pointSize sparse) squashed) in *.
  assert (Hkeys : ((fun c => (c.1, SparseReader_point (pointSize sparse) c.2))
                     <$> decoded).*1 = decoded.*1).
  { rewrite <- list_fmap_compose. apply list_fmap_ext.
    intros i [k after] _. reflexivity. }
  cbv zeta. unfold SparseReader_getData. cbn [r_data]. split.
  - intros rawIndex Hnot. rewrite Hdec.
    rewrite (not_elem_of_list_to_map_1 _ rawIndex); [reflexivity|].
    rewrite Hkeys. exact Hnot.
  - intros rawIndex Hin. rewrite Hdec.
    destruct (list_to_map
                ((fun c => (c.1, SparseReader_point (pointSize sparse) c.2))
                   <$> decoded) !! rawIndex) as [point|] eqn:Hlk.
    + apply elem_of_list_to_map_2 in Hlk.
      apply list_elem_of_fmap in Hlk as ([k after] & Heq & Hel).
      inversion Heq; subst. exists after. split; [exact Hel|].
      unfold SparseReader_point, sparse. rewrite pointSize_makeSparse.
      pose proof (pointSize_nonneg schema).
      replace (Z.to_nat (8 + pointSize schema) - 8)%nat
        with (Z.to_nat (pointSize schema)) by lia.
      reflexivity.
    + apply not_elem_of_list_to_map_2 in Hlk.
      rewrite Hkeys in Hlk. contradiction.
Qed.

End SparseReaderProps.

Section SparseReaderWitness.
#[local] Existing Instance identity_Compression.
#[local] Existing Instance byte_PointView.

Lemma SparseReader_getData_decoded_witness :
  SparseReader_load 0 xy_schema sample_reader_blob = Ok sample_reader
  /\ exists numPoints body squashed,
      popNumPoints sample_reader_blob = Ok (numPoints, body)
      /\ decompress body (mkSchema (makeSparse xy_schema))
           (wrap (numPoints * pointSize (mkSchema (makeSparse xy_schema))))
         = Ok squashed
      /\ let decoded :=
           cells (S (length squashed))
             (pointSize (mkSchema (makeSparse xy_schema))) squashed in
         (forall rawIndex,
             rawIndex ∉ decoded.*1 ->
             SparseReader_getData sample_reader rawIndex = None)
         /\ (forall rawIndex,
                rawIndex ∈ decoded.*1 ->
                exists after,
                  (rawIndex, after) ∈ decoded
                  /\ SparseReader_getData sample_reader rawIndex
                     = Some (take (Z.to_nat (pointSize xy_schema)) after)).
Proof.
  assert (Hload : SparseReader_load 0 xy_schema sample_reader_blob
                  = Ok sample_reader) by (vm_compute; reflexivity).
  split; [exact Hload|].
  exact (SparseReader_getData_decoded 0 xy_schema sample_reader_blob
           sample_reader Hload).
Defined.
End SparseReaderWitness.

(** ** finalize *)

Section FinalizeProps.
Context `{Cmp : Compression} `{PV : PointView}.

Lemma slice_count_done id E cp :
  0 < cp -> slice_count id E cp = O -> E <= id.
Proof.
  unfold slice_count. intros Hcp H0.
  destruct (Z_lt_le_dec id E) as [Hlt|Hle]; [|exact Hle].
  assert (1 <= (E - id + cp - 1) / cp)
    by (apply Z.div_le_lower_bound; lia).
  lia.
Qed.

Lemma slice_count_more id E cp n :
  0 < cp -> slice_count id E cp = S n ->
  id < E /\ slice_count (id + cp) E cp = n.
Proof.
  unfold slice_count. intros Hcp HS.
  assert (Hq : 1 <= (E - id + cp - 1) / cp) by lia.
  split.
  - destruct (Z_lt_le_dec id E) as [Hlt|Hle]; [exact Hlt|].
    assert ((E - id + cp - 1) / cp < 1)
      by (apply Z.div_lt_upper_bound; lia).
    lia.
  - replace (E - (id + cp) + cp - 1) with (E - id + cp - 1 + (-1) * cp) by lia.
    rewrite Z.div_add by lia. lia.
Qed.

Lemma finalize_loop_slices (c : ChunkData) (cp : Z) :
  0 < cp ->
  endId (base_of c) + cp <= 2 ^ 64 ->
  forall n fuel id st,
    0 <= id ->
    slice_count id (endId (base_of c)) cp = n ->
    (n <= fuel)%nat ->
    finalize_loop fuel c cp id st = write_ranges c (slices n id cp) st.
Proof.
  intros Hcp Hfit. induction n as [|n IH]; intros fuel id st Hid Hn Hfuel.
  - apply slice_count_done in Hn; [|exact Hcp].
    destruct fuel; cbn [finalize_loop slices write_ranges];
      destruct (id <? endId (base_of c)) eqn:E; try reflexivity;
      apply Z.ltb_lt in E; lia.
  - apply slice_count_more in Hn as [Hlt Hn]; [|exact Hcp].
    destruct fuel as [|fuel]; [lia|].
    cbn [finalize_loop slices write_ranges].
    destruct (id <? endId (base_of c)) eqn:E;
      [|apply Z.ltb_ge in E; lia].
    rewrite (wrap_small (id + cp)) by lia.
    destruct (write c st.1 id (id + cp)) as [source|e];
      cbn [mbind result_bind]; [|reflexivity].
    apply IH; [lia|exact Hn|lia].
Qed.

Lemma write_ranges_app c rs1 rs2 st :
  write_ranges c (rs1 ++ rs2) st
  = write_ranges c rs1 st ≫= write_ranges c rs2.
Proof.
  revert st. induction rs1 as [|[b e] rs1 IH]; intros st; [reflexivity|].
  cbn [app write_ranges].
  destruct (write c st.1 b e); cbn [mbind result_bind]; [apply IH|reflexivity].
Qed.

Lemma write_ranges_ids c rs :
  forall source ids source' ids',
    write_ranges c rs (source, ids) = Ok (source', ids') ->
    ids' = ids ++ rs.*1.
Proof.
  induction rs as [|[b e] rs IH]; intros source ids source' ids' H.
  - inversion H; subst. simpl. rewrite app_nil_r. reflexivity.
  - cbn [write_ranges fst snd] in H.
    destruct (write c source b e) as [s|]; [|discriminate].
    cbn [mbind result_bind] in H. apply IH in H. subst ids'.
    cbn [fmap list_fmap fst]. rewrite <- app_assoc. reflexivity.
Qed.

Lemma write_put c source b e source' :
  write c source b e = Ok source' ->
  exists blob, source' = Source_put source (to_string b) blob.
Proof.
  destruct c as [s|d]; cbn [write].
  - unfold SparseChunkData_write.
    destruct (squash s _ b e); cbn [mbind result_bind]; [|discriminate].
    intros H; inversion H. eexists. reflexivity.
  - unfold ContiguousChunkData_write.
    destruct (normalize _ b); cbn [mbind result_bind]; [|discriminate].
    match goal with |- context [if ?t then _ else _] => destruct t end;
      [discriminate|].
    intros H; inversion H. eexists. reflexivity.
Qed.

Lemma write_keeps c source b e source' name :
  write c source b e = Ok source' ->
  is_Some (source !! name) -> is_Some (source' !! name).
Proof.
  intros Hw Hs. apply write_put in Hw as [blob ->]. unfold Source_put.
  destruct (decide (to_string b = name)) as [->|Hne].
  - rewrite lookup_insert_eq. eauto.
  - rewrite lookup_insert_ne by exact Hne. exact Hs.
Qed.

Lemma write_ranges_keeps c rs :
  forall st st' name,
    write_ranges c rs st = Ok st' ->
    is_Some (st.1 !! name) -> is_Some (st'.1 !! name).
Proof.
  induction rs as [|[b e] rs IH]; intros st st' name H Hs.
  - inversion H; subst. exact Hs.
  - cbn [write_ranges] in H.
    destruct (write c st.1 b e) as [s|] eqn:Hw; [|discriminate].
    cbn [mbind result_bind] in H.
    eapply IH in H; [exact H|]. cbn [fst].
    eapply write_keeps; eauto.
Qed.

Lemma write_ranges_blobs c rs :
  forall st st',
    write_ranges c rs st = Ok st' ->
    forall b e, (b, e) ∈ rs -> is_Some (st'.1 !! to_string b).
Proof.
  induction rs as [|[b0 e0] rs IH]; intros st st' H b e Hin.
  - inversion Hin.
  - cbn [write_ranges] in H.
    destruct (write c st.1 b0 e0) as [s|] eqn:Hw; [|discriminate].
    cbn [mbind result_bind] in H.
    apply elem_of_cons in Hin as [Heq|Hin].
    + inversion Heq; subst.
      eapply write_ranges_keeps; [exact H|]. cbn [fst].
      apply write_put in Hw as [blob ->]. unfold Source_put.
      rewrite lookup_insert_eq. eauto.
    + eapply IH; eauto.
Qed.

(** C7 (amended).  With a positive [chunkPoints] and no [size_t] overflow,
    [finalize] writes exactly the ranges of [finalize_ranges], in order, for
    Contiguous and Sparse chunks alike: the prefix [[m_id, start)] when
    [start > m_id], then one blob per [[id, id + chunkPoints)] slice from
    [max start m_id] up to [endId]; when it succeeds the begin id of each
    range has been appended to [ids] and a blob is stored under the name of
    each begin id. *)
Theorem finalize_writes_ranges (fuel : nat) (c : ChunkData)
    (source : Source) (ids : list Z) (start chunkPoints : Z) :
  0 <= m_id (base_of c) ->
  0 <= m_maxPoints (base_of c) ->
  0 <= start ->
  0 < chunkPoints ->
  m_id (base_of c) + m_maxPoints (base_of c) + chunkPoints <= 2 ^ 64 ->
  (slice_count (Z.max start (m_id (base_of c))) (endId (base_of c))
     chunkPoints <= fuel)%nat ->
  let ranges := finalize_ranges (base_of c) start chunkPoints in
  finalize fuel c source ids start chunkPoints
  = write_ranges c ranges (source, ids)
  /\ forall source' ids',
      finalize fuel c source ids start chunkPoints = Ok (source', ids') ->
      ids' = ids ++ ranges.*1
      /\ forall b e, (b, e) ∈ ranges -> is_Some (source' !! to_string b).
Proof.
  intros Hid Hmax Hstart Hcp Hfit Hfuel ranges.
  assert (Heq : finalize fuel c source ids start chunkPoints
                = write_ranges c ranges (source, ids)).
  { unfold ranges, finalize_ranges, finalize.
    rewrite write_ranges_app.
    assert (Hend : endId (base_of c) + chunkPoints <= 2 ^ 64)
      by (unfold endId; rewrite wrap_small by lia; lia).
    destruct (m_id (base_of c) <? start).
    - cbn [write_ranges fst snd].
      destruct (write c source (m_id (base_of c)) start);
        cbn [mbind result_bind]; [|reflexivity].
      apply finalize_loop_slices; try assumption; try reflexivity; lia.
    - cbn [write_ranges mbind result_bind].
      apply finalize_loop_slices; try assumption; try reflexivity; lia. }
  split; [exact Heq|].
  intros source' ids' Hok. rewrite Heq in Hok. split.
  - eapply write_ranges_ids; exact Hok.
  - intros b e Hin.
    exact (write_ranges_blobs c ranges _ _ Hok b e Hin).
Qed.

End FinalizeProps.

Section FinalizeExamples.
#[local] Existing Instance identity_Compression.
#[local] Existing Instance byte_PointView.

Lemma finalize_writes_ranges_witness :
  let c := SparseData sample_cold in
  let ranges := finalize_ranges (base_of c) 0 4 in
  finalize 2 c ∅ [] 0 4 = write_ranges c ranges (∅, [])
  /\ forall source' ids',
      finalize 2 c ∅ [] 0 4 = Ok (source', ids') ->
      ids' = [] ++ ranges.*1
      /\ forall b e, (b, e) ∈ ranges -> is_Some (source' !! to_string b).
Proof.
  apply (finalize_writes_ranges 2 (SparseData sample_cold) ∅ [] 0 4);
    vm_compute; try reflexivity; try discriminate; lia.
Defined.

(** C7 as stated fails for Sparse chunks: finalizing the sparse chunk of id
    8 and capacity 8 with [chunkPoints = 4] writes two blobs, named "8" and
    "12", one per slice, and none for the entire chunk. *)
Lemma finalize_sparse_two_blobs :
  isSparse (SparseData sample_cold) = true
  /\ exists source',
      finalize 2 (SparseData sample_cold) ∅ [] 0 4 = Ok (source', [8; 12])
      /\ size source' = 2%nat
      /\ is_Some (source' !! "8"%string)
      /\ is_Some (source' !! "12"%string).
Proof.
  split; [reflexivity|]. eexists. split; [vm_compute; reflexivity|].
  split; [vm_compute; reflexivity|].
  split; vm_compute; eexists; reflexivity.
Qed.
End FinalizeExamples.

(** ** The tick-sorted chunk reader *)

Lemma partition_point_before {A} (p : A -> bool) (l : list A) :
  forall i x, l !! i = Some x -> (i < partition_point p l)%nat -> p x = true.
Proof.
  induction l as [|y l IH]; intros i x Hx Hi; [discriminate|].
  cbn [partition_point] in Hi. destruct (p y) eqn:Hy; [|lia].
  destruct i as [|i]; simpl in Hx.
  - congruence.
  - apply (IH i); [exact Hx|lia].
Qed.

Lemma partition_point_after {A} (R : relation A) (p : A -> bool)
    (l : list A) :
  (forall a b, R a b -> p b = true -> p a = true) ->
  StronglySorted R l ->
  forall i x, l !! i = Some x -> (partition_point p l <= i)%nat -> p x = false.
Proof.
  intros Hmono. induction 1 as [|y l Hl IH Hy]; intros i x Hx Hi;
    [discriminate|].
  cbn [partition_point] in Hi. destruct (p y) eqn:Hpy.
  - destruct i as [|i]; [lia|]. simpl in Hx. apply (IH i); [exact Hx|lia].
  - destruct i as [|i]; simpl in Hx; [congruence|].
    destruct (p x) eqn:Hpx; [|reflexivity].
    apply list_elem_of_lookup_2 in Hx.
    rewrite Forall_forall in Hy. specialize (Hy x Hx).
    rewrite (Hmono y x Hy Hpx) in Hpy. discriminate.
Qed.

Lemma Sorted_weaken {A} (R R' : relation A) (l : list A) :
  (forall a b, R a b -> R' a b) -> Sorted R l -> Sorted R' l.
Proof.
  intros Himp. induction 1 as [|x l Hl IH Hhd]; constructor; [exact IH|].
  destruct Hhd; constructor. auto.
Qed.

Section ChunkReaderProps.
Import ChunkReaderCpp.
Context `{TG : TickGeometry} `{SS : !StdSort} `{SOk : !StdSortOk}.

Lemma tick_le_trans : Transitive tick_le.
Proof. unfold tick_le. intros a b c. lia. Qed.

Lemma std_sort_tick_sorted (l : list PointInfo) :
  StronglySorted tick_le (std_sort l).
Proof.
  apply Sorted.Sorted_StronglySorted; [apply tick_le_trans|].
  eapply Sorted_weaken; [|apply std_sort_sorted].
  intros a b Hab. simpl in Hab. unfold PointInfo_lt in Hab. unfold tick_le.
  apply Z.ltb_ge in Hab. exact Hab.
Qed.

Lemma ctor_points_sorted metadata id depth data r :
  ChunkReader_ctor metadata id depth data = Ok r ->
  StronglySorted tick_le (m_points r).
Proof.
  unfold ChunkReader_ctor. intros H.
  destruct (md_unpack metadata data) as [[bytes numPoints]|];
    cbn [mbind result_bind] in H; [|discriminate].
  match type of H with (if ?t then _ else _) = _ => destruct t end;
    [discriminate|].
  inversion H; subst r. cbn [m_points]. apply std_sort_tick_sorted.
Qed.

(** C5.  For a [ChunkReader] built by the constructor and any query bounds
    [B], the range [candidates B] is sorted ascending by tick, every record
    at a position of the range has its tick in the closed interval from
    [calcTick (min B)] to [calcTick (max B)], and every stored record whose
    tick lies in that interval is at a position of the range. *)
Theorem candidates_tick_range (metadata : Metadata) (id depth : Z)
    (data : list byte) (r : ChunkReader) (B : Bounds) :
  ChunkReader_ctor metadata id depth data = Ok r ->
  let lo := calcTick (Bounds_min B) (m_bounds r) (m_depth r) in
  let hi := calcTick (Bounds_max B) (m_bounds r) (m_depth r) in
  let range := candidates r B in
  StronglySorted tick_le
    (take (range_end range - range_begin range)
          (drop (range_begin range) (m_points r)))
  /\ (forall i info,
         m_points r !! i = Some info ->
         (range_begin range <= i < range_end range)%nat ->
         lo <= pi_tick info <= hi)
  /\ (forall i info,
         m_points r !! i = Some info ->
         lo <= pi_tick info <= hi ->
         (range_begin range <= i < range_end range)%nat).
Proof.
  intros Hctor lo hi range.
  pose proof (ctor_points_sorted _ _ _ _ _ Hctor) as Hsorted.
  set (below := fun e : PointInfo => PointInfo_lt e (PointInfo_key lo)).
  set (upto := fun e : PointInfo => negb (PointInfo_lt (PointInfo_key hi) e)).
  assert (Hbelow : forall a b, tick_le a b -> below b = true -> below a = true).
  { unfold below, PointInfo_lt, tick_le. cbn [pi_tick PointInfo_key].
    intros a b Hab Hb. apply Z.ltb_lt in Hb. apply Z.ltb_lt. lia. }
  assert (Hupto : forall a b, tick_le a b -> upto b = true -> upto a = true).
  { unfold upto, PointInfo_lt, tick_le. cbn [pi_tick PointInfo_key].
    intros a b Hab Hb. apply negb_true_iff, Z.ltb_ge in Hb.
    apply negb_true_iff, Z.ltb_ge. lia. }
  change (range_begin range) with (partition_point below (m_points r)).
  change (range_end range) with (partition_point upto (m_points r)).
  split; [|split].
  - eapply StronglySorted_app_1_l. rewrite take_drop.
    eapply StronglySorted_app_1_r. rewrite take_drop. exact Hsorted.
  - intros i info Hi [Hb He]. split.
    + pose proof (partition_point_after tick_le below _ Hbelow Hsorted
                    i info Hi Hb) as H.
      unfold below, PointInfo_lt in H. cbn [pi_tick PointInfo_key] in H.
      apply Z.ltb_ge in H. exact H.
    + pose proof (partition_point_before upto _ i info Hi He) as H.
      unfold upto, PointInfo_lt in H. cbn [pi_tick PointInfo_key] in H.
      apply negb_true_iff, Z.ltb_ge in H. exact H.
  - intros i info Hi [Hlo Hhi]. split.
    + destruct (le_lt_dec (partition_point below (m_points r)) i)
        as [Hle|Hlt]; [exact Hle|].
      pose proof (partition_point_before below _ i info Hi Hlt) as H.
      unfold below, PointInfo_lt in H. cbn [pi_tick PointInfo_key] in H.
      apply Z.ltb_lt in H. lia.
    + destruct (le_lt_dec (partition_point upto (m_points r)) i)
        as [Hle|Hlt]; [|exact Hlt].
      pose proof (partition_point_after tick_le upto _ Hupto Hsorted
                    i info Hi Hle) as H.
      unfold upto, PointInfo_lt in H. cbn [pi_tick PointInfo_key] in H.
      apply negb_false_iff, Z.ltb_lt in H. lia.
Qed.

End ChunkReaderProps.

Section InsertionSortProps.
Import ChunkReaderCpp.
Context `{TG : TickGeometry}.

Lemma insert_by_tick_perm x l : Permutation (insert_by_tick x l) (x :: l).
Proof.
  induction l as [|y l IH]; cbn [insert_by_tick]; [reflexivity|].
  destruct (PointInfo_lt y x); [|reflexivity].
  eapply perm_trans; [apply perm_skip; exact IH|apply perm_swap].
Qed.

Lemma insert_by_tick_sorted x l :
  Sorted (fun a b => PointInfo_lt b a = false) l ->
  Sorted (fun a b => PointInfo_lt b a = false) (insert_by_tick x l).
Proof.
  induction 1 as [|y l Hl IH Hhd]; cbn [insert_by_tick].
  - constructor; constructor.
  - destruct (PointInfo_lt y x) eqn:Hyx.
    + constructor; [exact IH|].
      destruct Hhd as [|z l Hz]; cbn [insert_by_tick].
      * constructor. unfold PointInfo_lt in *.
        apply Z.ltb_lt in Hyx. apply Z.ltb_ge. lia.
      * destruct (PointInfo_lt z x); constructor; [exact Hz|].
        unfold PointInfo_lt in *.
        apply Z.ltb_lt in Hyx. apply Z.ltb_ge. lia.
    + constructor; [constructor; assumption|].
      constructor. exact Hyx.
Qed.

Lemma insertion_StdSortOk : StdSortOk (H := insertion_StdSort).
Proof.
  constructor; intros l; cbn [std_sort insertion_StdSort];
    induction l as [|x l IH]; cbn [sort_by_tick foldr].
  - reflexivity.
  - eapply perm_trans; [apply insert_by_tick_perm|].
    apply perm_skip. exact IH.
  - constructor.
  - apply insert_by_tick_sorted. exact IH.
Qed.
End InsertionSortProps.

Section ChunkReaderWitness.
Import ChunkReaderCpp.
#[local] Existing Instance z_TickGeometry.
#[local] Existing Instance insertion_StdSort.

Lemma candidates_tick_range_witness :
  let r := sample_chunk_reader in
  let B : Bounds := (1, 3) in
  ChunkReader_ctor sample_metadata 7 1 sample_payload = Ok r
  /\ let lo := calcTick (Bounds_min B) (m_bounds r) (m_depth r) in
     let hi := calcTick (Bounds_max B) (m_bounds r) (m_depth r) in
     let range := candidates r B in
     StronglySorted tick_le
       (take (range_end range - range_begin range)
             (drop (range_begin range) (m_points r)))
     /\ (forall i info,
            m_points r !! i = Some info ->
            (range_begin range <= i < range_end range)%nat ->
            lo <= pi_tick info <= hi)
     /\ (forall i info,
            m_points r !! i = Some info ->
            lo <= pi_tick info <= hi ->
            (range_begin range <= i < range_end range)%nat).
Proof.
  intros r B.
  assert (Hctor : ChunkReader_ctor sample_metadata 7 1 sample_payload = Ok r)
    by (vm_compute; reflexivity).
  split; [exact Hctor|].
  exact (candidates_tick_range (SOk := insertion_StdSortOk)
           sample_metadata 7 1 sample_payload r B Hctor).
Defined.
End ChunkReaderWitness.

(** ** Query::processPoint *)

Lemma pointSize_cons d ds :
  pointSize (mkSchema (d :: ds))
  = Z.of_N (dim_size d) + pointSize (mkSchema ds).
Proof. unfold pointSize. cbn [dims foldr]. lia. Qed.

Section ProcessPointProps.
Import QueryCpp.
Context `{PO : PointOps} `{POk : !PointOpsOk} `{QD : !QueryDeps}.

Lemma field_bytes_length cfg data dim :
  length (field_bytes cfg data dim) = N.to_nat (dim_size dim).
Proof.
  unfold field_bytes.
  assert (Hget : length (getField data (dim_id dim) (dim_type_of dim))
                 = N.to_nat (dim_size dim)).
  { pose proof (getField_length data (dim_id dim) (dim_type_of dim)) as H.
    change (Dimension_size (dim_type_of dim)) with (Z.of_N (dim_size dim))
      in H.
    lia. }
  destruct (m_normalize cfg); [|exact Hget].
  match goal with |- context [if ?t then _ else _] => destruct t eqn:E end;
    [|exact Hget].
  apply andb_true_iff in E as [_ E]. apply Z.eqb_eq in E.
  change (Dimension_size (dim_type_of dim)) with (Z.of_N (dim_size dim)) in E.
  rewrite float_bytes_length. lia.
Qed.

Lemma length_fields cfg data ds :
  Z.of_nat (length (concat (map (field_bytes cfg data) ds)))
  = pointSize (mkSchema ds).
Proof.
  induction ds as [|d ds IH]; [reflexivity|].
  cbn [map concat]. rewrite length_app, field_bytes_length, pointSize_cons.
  lia.
Qed.

Lemma write_dims_content cfg data ds :
  forall buffer pos,
    (pos + Z.to_nat (pointSize (mkSchema ds)) <= length buffer)%nat ->
    write_dims cfg data ds buffer pos
    = Ok (take pos buffer
          ++ concat (map (field_bytes cfg data) ds)
          ++ drop (pos + Z.to_nat (pointSize (mkSchema ds))) buffer).
Proof.
  induction ds as [|dim ds IH]; intros buffer pos Hfit.
  - cbn [write_dims map concat app]. change (pointSize (mkSchema [])) with 0.
    cbn [Z.to_nat]. rewrite Nat.add_0_r, take_drop. reflexivity.
  - rewrite pointSize_cons in *.
    pose proof (pointSize_nonneg (mkSchema ds)) as Hps.
    pose proof (field_bytes_length cfg data dim) as Hlen.
    set (bytes := field_bytes cfg data dim) in *.
    cbn [write_dims]. fold bytes. unfold poke.
    destruct (length buffer <? pos + length bytes)%nat eqn:E;
      [apply Nat.ltb_lt in E; lia|].
    cbn [mbind result_bind].
    rewrite IH by (rewrite !length_app, length_take, length_drop; lia).
    f_equal. cbn [map concat]. fold bytes.
    assert (Hpre : take (pos + N.to_nat (dim_size dim))
                     (take pos buffer ++ bytes
                      ++ drop (pos + length bytes) buffer)
                   = take pos buffer ++ bytes).
    { rewrite app_assoc. apply take_app_length'.
      rewrite length_app, length_take. lia. }
    assert (Hpost : drop (pos + N.to_nat (dim_size dim)
                          + Z.to_nat (pointSize (mkSchema ds)))
                      (take pos buffer ++ bytes
                       ++ drop (pos + length bytes) buffer)
                    = drop (pos + Z.to_nat (Z.of_N (dim_size dim)
                                            + pointSize (mkSchema ds)))
                        buffer).
    { rewrite app_assoc, drop_app_ge
        by (rewrite length_app, length_take; lia).
      rewrite length_app, length_take, drop_drop. f_equal. lia. }
    rewrite Hpre, Hpost, <- !app_assoc. reflexivity.
Qed.

Lemma processPoint_inside (info : PointInfo) (q : Query) (buffer : list byte) :
  m_buffer q = Some buffer ->
  BBox_contains (m_qbox (config q)) (pi_point info) = true ->
  processPoint info q
  = Ret true
      (set_buffer
         (Some (buffer ++ output_record (config q) (pi_data info)))
         (set_table (Some (pi_data info)) q)).
Proof.
  intros Hbuf Hin. unfold processPoint. rewrite Hbuf, Hin. cbv zeta.
  change (config (set_table (Some (pi_data info))
            (set_buffer
               (Some (buffer ++ replicate
                        (Z.to_nat (pointSize (m_outSchema (config q))))
                        Byte.x00)) q)))
    with (config q).
  pose proof (pointSize_nonneg (m_outSchema (config q))) as Hps.
  assert (Hsch : mkSchema (dims (m_outSchema (config q)))
                 = m_outSchema (config q))
    by (destruct (m_outSchema (config q)); reflexivity).
  remember (Z.to_nat (pointSize (m_outSchema (config q)))) as size eqn:Hsize.
  rewrite write_dims_content.
  2:{ rewrite Hsch, <- Hsize, !length_app, length_replicate. lia. }
  rewrite Hsch, <- Hsize, !length_app, length_replicate.
  replace (length buffer + size - size)%nat with (length buffer) by lia.
  rewrite take_app_length.
  rewrite drop_ge by (rewrite length_app, length_replicate; lia).
  unfold output_record. rewrite app_nil_r. reflexivity.
Qed.

Lemma processPoint_outside (info : PointInfo) (q : Query) (buffer : list byte) :
  m_buffer q = Some buffer ->
  BBox_contains (m_qbox (config q)) (pi_point info) = false ->
  processPoint info q = Ret false q.
Proof. intros Hbuf Hout. unfold processPoint. rewrite Hbuf, Hout. reflexivity. Qed.

(** C6.  With the caller's buffer set, [Query::processPoint] on a point
    inside the query bounds appends exactly one record to the buffer,
    leaving the bytes already there untouched, and returns true: the record
    is the point's output record, the bytes written for each dimension of
    the output schema in schema order, and has [outSchema.pointSize] bytes.
    On a point outside the bounds it returns false and changes nothing.
    Hence a point is emitted only if the query bounds contain it. *)
Theorem processPoint_contains (info : PointInfo) (q : Query)
    (buffer : list byte) :
  m_buffer q = Some buffer ->
  (BBox_contains (m_qbox (config q)) (pi_point info) = true ->
   Z.of_nat (length (output_record (config q) (pi_data info)))
   = pointSize (m_outSchema (config q))
   /\ processPoint info q
      = Ret true
          (set_buffer
             (Some (buffer ++ output_record (config q) (pi_data info)))
             (set_table (Some (pi_data info)) q)))
  /\ (BBox_contains (m_qbox (config q)) (pi_point info) = false ->
      processPoint info q = Ret false q)
  /\ (forall q', processPoint info q = Ret true q' ->
                 BBox_contains (m_qbox (config q)) (pi_point info) = true).
Proof.
  intros Hbuf. split; [|split].
  - intros Hin. split; [apply length_fields|].
    exact (processPoint_inside info q buffer Hbuf Hin).
  - intros Hout. exact (processPoint_outside info q buffer Hbuf Hout).
  - intros q' H.
    destruct (BBox_contains (m_qbox (config q)) (pi_point info)) eqn:Hin;
      [reflexivity|].
    rewrite (processPoint_outside info q buffer Hbuf Hin) in H.
    discriminate.
Qed.

End ProcessPointProps.

Lemma z_PointOpsOk : QueryCpp.PointOpsOk (H := z_PointOps).
Proof.
  constructor.
  - intros d. apply length_le_split.
  - intros data id t. cbn [QueryCpp.getField z_PointOps].
    rewrite length_take, length_app, length_replicate.
    unfold QueryCpp.Dimension_size. lia.
Qed.

Section ProcessPointWitness.
Import QueryCpp.
#[local] Existing Instance z_PointOps.

Lemma processPoint_contains_witness :
  let q := set_buffer (Some [Byte.x07]) sample_query in
  let info := sample_info 3 in
  m_buffer q = Some [Byte.x07]
  /\ (BBox_contains (m_qbox (config q)) (pi_point info) = true ->
      Z.of_nat (length (output_record (config q) (pi_data info)))
      = pointSize (m_outSchema (config q))
      /\ processPoint info q
         = Ret true
             (set_buffer
                (Some ([Byte.x07] ++ output_record (config q) (pi_data info)))
                (set_table (Some (pi_data info)) q)))
  /\ (BBox_contains (m_qbox (config q)) (pi_point info) = false ->
      processPoint info q = Ret false q)
  /\ (forall q', processPoint info q = Ret true q' ->
                 BBox_contains (m_qbox (config q)) (pi_point info) = true).
Proof.
  intros q info. split; [reflexivity|].
  exact (processPoint_contains (POk := z_PointOpsOk) info q [Byte.x07]
           eq_refl).
Defined.
End ProcessPointWitness.

(** ** Misuse of next *)

Section NextProps.
Import QueryCpp.
Context `{PO : PointOps} `{QD : !QueryDeps}.

(** C8.  Calling [BaseQuery::next] on a completed query raises "Called next
    after query completed" and leaves the query state as it was; calling
    [Query::next] with a non-empty buffer raises "Query buffer not empty"
    with the state as it was, so before the buffer is installed and before
    any point is processed. *)
Theorem next_misuse_raises (fuel : nat) (q1 q2 : Query) (buffer : list byte) :
  m_done q1 = true ->
  buffer <> [] ->
  BaseQuery_next fuel q1
  = Raise (Throw "Called next after query completed"%string) q1
  /\ Query_next fuel buffer q2
     = Raise (Throw "Query buffer not empty"%string) q2.
Proof.
  intros Hdone Hbuf. split.
  - unfold BaseQuery_next. rewrite Hdone. reflexivity.
  - unfold Query_next. destruct buffer as [|b buffer]; [congruence|].
    reflexivity.
Qed.
End NextProps.

Section NextWitness.
Import QueryCpp.
#[local] Existing Instance z_PointOps.
#[local] Existing Instance sample_QueryDeps.

Lemma next_misuse_raises_witness :
  m_done sample_query_done = true
  /\ [Byte.x01] <> []
  /\ BaseQuery_next 10 sample_query_done
     = Raise (Throw "Called next after query completed"%string)
         sample_query_done
  /\ Query_next 10 [Byte.x01] sample_query
     = Raise (Throw "Query buffer not empty"%string) sample_query.
Proof.
  split; [reflexivity|]. split; [discriminate|].
  apply (next_misuse_raises 10 sample_query_done sample_query [Byte.x01]);
    [reflexivity|discriminate].
Defined.
End NextWitness.

(** ** The base pass and empty tubes *)

Lemma elem_of_flat_map {A B} (f : A -> list B) (l : list A) (x : B) :
  x ∈ flat_map f l <-> exists y, y ∈ l /\ x ∈ f y.
Proof.
  rewrite list_elem_of_In, in_flat_map.
  split; intros (y & Hy & Hx); exists y; split;
    apply list_elem_of_In; assumption.
Qed.

Lemma flat_map_fmap {A B C} (f : B -> list C) (g : A -> B) (l : list A) :
  flat_map f (map g l) = flat_map (fun x => f (g x)) l.
Proof.
  induction l as [|x l IH]; simpl; [reflexivity|].
  rewrite IH. reflexivity.
Qed.

Section BasePassProps.
Import QueryCpp.
Context `{PO : PointOps} `{QD : !QueryDeps}.

(** Induction over a node with the hypothesis for all its children. *)
Lemma Node_children_ind (P : Node -> Prop) :
  (forall i o cs, Forall P cs -> P (mkNode i o cs)) -> forall n, P n.
Proof.
  intros H. fix IH 1. intros [i o cs]. apply H.
  induction cs as [|c cs IHcs]; constructor; [apply IH|exact IHcs].
Qed.

Lemma subtree_indices_unfold n :
  subtree_indices n = node_index n :: descendant_indices n.
Proof. destruct n; reflexivity. Qed.

Lemma subtree_nodes_unfold n :
  subtree_nodes n = n :: flat_map subtree_nodes (node_children n).
Proof. destruct n; reflexivity. Qed.

Lemma descendants_in_subtree n x :
  x ∈ descendant_indices n -> x ∈ subtree_indices n.
Proof.
  rewrite subtree_indices_unfold. intros H. apply elem_of_cons. right. exact H.
Qed.

Lemma descendants_of_subtree_node n :
  forall a x,
    a ∈ subtree_nodes n -> x ∈ descendant_indices a ->
    x ∈ descendant_indices n.
Proof.
  induction n as [i o cs IH] using Node_children_ind. intros a x Ha Hx.
  rewrite subtree_nodes_unfold in Ha. apply elem_of_cons in Ha as [->|Ha];
    [exact Hx|].
  cbn [node_children] in Ha. apply elem_of_flat_map in Ha as (c & Hc & Ha).
  unfold descendant_indices. cbn [node_children].
  apply elem_of_flat_map. exists c. split; [exact Hc|].
  apply descendants_in_subtree.
  rewrite Forall_forall in IH. exact (IH c Hc a x Ha Hx).
Qed.

Lemma forest_indices_cons n d rest :
  forest_indices ((n, d) :: rest) = subtree_indices n ++ forest_indices rest.
Proof. reflexivity. Qed.

Lemma forest_nodes_cons n d rest :
  forest_nodes ((n, d) :: rest) = subtree_nodes n ++ forest_nodes rest.
Proof. reflexivity. Qed.

Lemma forest_indices_children cs (d : Z) rest :
  forest_indices (map (fun c => (c, d)) cs ++ rest)
  = flat_map subtree_indices cs ++ forest_indices rest.
Proof.
  unfold forest_indices. rewrite flat_map_app, flat_map_fmap. reflexivity.
Qed.

Lemma forest_nodes_children cs (d : Z) rest :
  forest_nodes (map (fun c => (c, d)) cs ++ rest)
  = flat_map subtree_nodes cs ++ forest_nodes rest.
Proof.
  unfold forest_nodes. rewrite flat_map_app, flat_map_fmap. reflexivity.
Qed.

Lemma descendants_in_forest stack a x :
  a ∈ forest_nodes stack -> x ∈ descendant_indices a ->
  x ∈ forest_indices stack.
Proof.
  unfold forest_nodes, forest_indices. intros Ha Hx.
  apply elem_of_flat_map in Ha as ([n d] & Hn & Ha). cbn [fst] in Ha.
  apply elem_of_flat_map. exists (n, d). split; [exact Hn|]. cbn [fst].
  apply descendants_in_subtree.
  exact (descendants_of_subtree_node n a x Ha Hx).
Qed.

(** The index on top of a duplicate-free stack is below no node of it. *)
Lemma top_index_not_descendant n d rest a :
  NoDup (forest_indices ((n, d) :: rest)) ->
  a ∈ forest_nodes ((n, d) :: rest) ->
  node_index n ∉ descendant_indices a.
Proof.
  rewrite forest_indices_cons, forest_nodes_cons, subtree_indices_unfold.
  intros Hnd Ha Hx. cbn [app] in Hnd. apply NoDup_cons in Hnd as [Hnot _].
  apply Hnot. apply elem_of_app. apply elem_of_app in Ha as [Ha|Ha].
  - left. exact (descendants_of_subtree_node n a _ Ha Hx).
  - right. exact (descendants_in_forest rest a _ Ha Hx).
Qed.

(** *** Traces of the point-processing helpers *)

Lemma write_dims_error cfg data ds :
  forall buffer pos e,
    write_dims cfg data ds buffer pos = Err e -> e = Undefined.
Proof.
  induction ds as [|dim ds IH]; intros buffer pos e H; [discriminate|].
  cbn [write_dims] in H. unfold poke in H.
  destruct (length buffer <? pos + length (field_bytes cfg data dim))%nat;
    cbn [mbind result_bind] in H; [congruence|].
  eapply IH. exact H.
Qed.

Lemma processPoint_trace info q :
  trace (final_state (processPoint info q)) = trace q
  /\ out_of_fuel (processPoint info q) = false.
Proof.
  unfold processPoint. destruct (m_buffer q); [|split; reflexivity].
  destruct (BBox_contains _ _); [|split; reflexivity].
  match goal with |- context [write_dims ?c ?d ?ds ?b ?p] =>
    destruct (write_dims c d ds b p) as [b'|e] eqn:Hw end.
  - split; reflexivity.
  - apply write_dims_error in Hw. subst e. split; reflexivity.
Qed.

Lemma countPoint_trace index info q :
  trace (final_state (countPoint index info q))
  = trace q ++ [EvPoint index info]
  /\ out_of_fuel (countPoint index info q) = false.
Proof.
  unfold countPoint.
  destruct (processPoint_trace info (log (EvPoint index info) q)) as [Ht Hf].
  destruct (processPoint info (log (EvPoint index info) q)) as [inside q'|e q'];
    cbn [bind final_state] in *.
  - destruct inside; split; first [exact Ht|reflexivity].
  - split; [exact Ht|exact Hf].
Qed.

Lemma countPoints_trace index infos :
  forall flag q,
    out_of_fuel (countPoints index infos flag q) = false
    /\ exists new,
        trace (final_state (countPoints index infos flag q)) = trace q ++ new
        /\ Forall (fun e => event_index e = index) new.
Proof.
  induction infos as [|info infos IH]; intros flag q.
  - split; [reflexivity|]. exists []. split; [|constructor].
    cbn [countPoints final_state]. rewrite app_nil_r. reflexivity.
  - cbn [countPoints].
    destruct (countPoint_trace index info q) as [Ht Hf].
    destruct (countPoint index info q) as [inside q'|e q'];
      cbn [bind final_state] in *.
    + destruct (IH (inside || flag) q') as (Hf' & new & Hnew & Hall).
      split; [exact Hf'|].
      exists (EvPoint index info :: new). split.
      * rewrite Hnew, Ht, <- app_assoc. reflexivity.
      * constructor; [reflexivity|exact Hall].
    + split; [exact Hf|]. exists [EvPoint index info].
      split; [exact Ht|]. constructor; [reflexivity|constructor].
Qed.

(** *** Events and the traversal stack *)

Lemma respects_top base n d rest e :
  NoDup (forest_indices ((n, d) :: rest)) ->
  event_index e = node_index n ->
  respects_empty_tubes base ((n, d) :: rest) e.
Proof.
  intros Hnd He. unfold respects_empty_tubes. rewrite He. split.
  - rewrite forest_indices_cons, subtree_indices_unfold.
    apply elem_of_app. left. apply elem_of_cons. left. reflexivity.
  - intros a Ha _. exact (top_index_not_descendant n d rest a Hnd Ha).
Qed.

Lemma respects_from_children base n d rest e :
  Tube_empty (base (node_index n)) = false ->
  respects_empty_tubes base
    (map (fun c => (c, d + 1)) (node_children n) ++ rest) e ->
  respects_empty_tubes base ((n, d) :: rest) e.
Proof.
  unfold respects_empty_tubes.
  rewrite forest_indices_children, forest_nodes_children.
  rewrite forest_indices_cons, forest_nodes_cons.
  rewrite subtree_indices_unfold, subtree_nodes_unfold.
  intros Hfull [Hin Hbelow]. split.
  - cbn [app]. apply elem_of_cons. right. exact Hin.
  - intros a Ha Hempty. cbn [app] in Ha.
    apply elem_of_cons in Ha as [->|Ha]; [congruence|].
    exact (Hbelow a Ha Hempty).
Qed.

Lemma respects_from_rest base n d rest e :
  NoDup (forest_indices ((n, d) :: rest)) ->
  respects_empty_tubes base rest e ->
  respects_empty_tubes base ((n, d) :: rest) e.
Proof.
  unfold respects_empty_tubes.
  rewrite forest_indices_cons, forest_nodes_cons.
  intros Hnd [Hin Hbelow]. apply NoDup_app in Hnd as (_ & Hdisj & _). split.
  - apply elem_of_app. right. exact Hin.
  - intros a Ha Hempty. apply elem_of_app in Ha as [Ha|Ha].
    + intros Hx. apply (Hdisj (event_index e)); [|exact Hin].
      apply descendants_in_subtree.
      exact (descendants_of_subtree_node n a _ Ha Hx).
    + exact (Hbelow a Ha Hempty).
Qed.

Lemma NoDup_children_stack n (d d' : Z) rest :
  NoDup (forest_indices ((n, d) :: rest)) ->
  NoDup (forest_indices (map (fun c => (c, d')) (node_children n) ++ rest)).
Proof.
  rewrite forest_indices_children, forest_indices_cons,
    subtree_indices_unfold.
  cbn [app]. intros Hnd. apply NoDup_cons in Hnd as [_ Hnd]. exact Hnd.
Qed.

Lemma NoDup_rest_stack n (d : Z) rest :
  NoDup (forest_indices ((n, d) :: rest)) -> NoDup (forest_indices rest).
Proof.
  rewrite forest_indices_cons. intros Hnd.
  apply NoDup_app in Hnd as (_ & _ & Hnd). exact Hnd.
Qed.

Lemma length_children_stack n (d d' : Z) rest :
  S (length (forest_nodes (map (fun c => (c, d')) (node_children n) ++ rest)))
  = length (forest_nodes ((n, d) :: rest)).
Proof.
  rewrite forest_nodes_children, forest_nodes_cons, subtree_nodes_unfold.
  reflexivity.
Qed.

Lemma length_rest_stack n (d : Z) rest :
  (length (forest_nodes rest) < length (forest_nodes ((n, d) :: rest)))%nat.
Proof.
  rewrite forest_nodes_cons, subtree_nodes_unfold, length_app.
  cbn [length]. lia.
Qed.

Lemma loop_logs_prepend base stack q q' o head :
  trace q' = trace q ++ head ->
  Forall (respects_empty_tubes base stack) head ->
  loop_logs base stack q' o -> loop_logs base stack q o.
Proof.
  intros Hq Hhead (Hf & new & Hnew & Hall). split; [exact Hf|].
  exists (head ++ new). split.
  - rewrite Hnew, Hq, <- app_assoc. reflexivity.
  - apply Forall_app. split; assumption.
Qed.

Lemma getBase_loop_logs base depthEnd :
  forall fuel stack flag q,
    NoDup (forest_indices stack) ->
    (length (forest_nodes stack) < fuel)%nat ->
    loop_logs base stack q
      (getBase_loop fuel base (mkSplitClimber stack depthEnd) flag q).
Proof.
  induction fuel as [|fuel IH]; intros stack flag q Hnd Hfuel; [lia|].
  destruct stack as [|[n d] rest].
  { split; [reflexivity|]. exists []. split; [|constructor].
    cbn. rewrite app_nil_r. reflexivity. }
  assert (Hcont : forall terminate flag' q2,
             (terminate = false -> Tube_empty (base (node_index n)) = false) ->
             loop_logs base ((n, d) :: rest) q2
               (let '(more, splitter) :=
                  SplitClimber_next
                    (mkSplitClimber ((n, d) :: rest) depthEnd) terminate in
                if more then getBase_loop fuel base splitter flag' q2
                else Ret flag' q2)).
  { intros terminate flag' q2 Hterm.
    unfold SplitClimber_next. cbn [sc_stack sc_depthEnd].
    assert (Hdone : loop_logs base ((n, d) :: rest) q2 (Ret flag' q2)).
    { split; [reflexivity|]. exists []. split; [|constructor].
      cbn [final_state]. rewrite app_nil_r. reflexivity. }
    destruct (negb terminate && node_overlaps n
              && negb (d =? depthEnd - 1)) eqn:Hdescend.
    - assert (terminate = false) as ->
        by (destruct terminate; [discriminate|reflexivity]).
      destruct (bool_decide _); cbn [negb]; [exact Hdone|].
      destruct (IH (map (fun c => (c, d + 1)) (node_children n) ++ rest)
                  flag' q2) as (Hf & new & Hnew & Hall).
      + exact (NoDup_children_stack n d (d + 1) rest Hnd).
      + pose proof (length_children_stack n d (d + 1) rest). lia.
      + split; [exact Hf|]. exists new. split; [exact Hnew|].
        eapply Forall_impl; [exact Hall|]. intros e He.
        apply respects_from_children; [apply Hterm; reflexivity|exact He].
    - destruct (bool_decide _); cbn [negb]; [exact Hdone|].
      destruct (IH rest flag' q2) as (Hf & new & Hnew & Hall).
      + exact (NoDup_rest_stack n d rest Hnd).
      + pose proof (length_rest_stack n d rest). lia.
      + split; [exact Hf|]. exists new. split; [exact Hnew|].
        eapply Forall_impl; [exact Hall|]. intros e He.
        apply respects_from_rest; [exact Hnd|exact He]. }
  cbn [getBase_loop SplitClimber_index sc_stack].
  set (index := node_index n) in *.
  assert (Hlog : trace (log (EvTube index) q) = trace q ++ [EvTube index])
    by reflexivity.
  assert (Htop : forall e, event_index e = index ->
                           respects_empty_tubes base ((n, d) :: rest) e)
    by (intros e He; apply respects_top; assumption).
  destruct (Tube_empty (base index)) eqn:Hempty; cbn [negb].
  - cbn [bind].
    eapply loop_logs_prepend; [exact Hlog| |apply Hcont; discriminate].
    constructor; [apply Htop; reflexivity|constructor].
  - destruct (primaryCell (base index)) as [primary|] eqn:Hprimary;
      [|unfold Tube_empty in Hempty; rewrite Hprimary in Hempty; discriminate].
    destruct (countPoints_trace index
                (primary :: map snd (secondaryCells (base index))) flag
                (log (EvTube index) q)) as (Hf & new1 & Hnew1 & Hall1).
    destruct (countPoints index _ flag (log (EvTube index) q))
      as [existed q2|e q2]; cbn [bind final_state] in *.
    + eapply loop_logs_prepend; [| |apply Hcont; intros _; reflexivity].
      * rewrite Hnew1, Hlog, <- app_assoc. reflexivity.
      * cbn [app]. constructor; [apply Htop; reflexivity|].
        eapply Forall_impl; [exact Hall1|]. exact Htop.
    + split; [exact Hf|]. exists (EvTube index :: new1). split.
      * cbn [final_state]. rewrite Hnew1, Hlog, <- app_assoc. reflexivity.
      * constructor; [apply Htop; reflexivity|].
        eapply Forall_impl; [exact Hall1|]. exact Htop.
Qed.

(** C10.  In the base pass, a node whose tube is empty stops the descent:
    no index strictly below such a node is ever fetched from the base or
    handed to [processPoint], whatever the query bounds and depth band,
    and the pass terminates. *)
Theorem getBase_skips_below_empty_tube (fuel : nat) (q : Query)
    (base : Z -> Tube) :
  let cfg := config q in
  let splitter :=
    SplitClimber_ctor (m_structure cfg) (reader_bbox (m_reader cfg))
      (m_qbox cfg) (m_depthBegin cfg)
      (Z.min (m_depthEnd cfg) (baseDepthEnd (m_structure cfg))) in
  reader_base (m_reader cfg) = Some base ->
  NoDup (forest_indices (sc_stack splitter)) ->
  (length (forest_nodes (sc_stack splitter)) < fuel)%nat ->
  out_of_fuel (getBase fuel q) = false
  /\ exists new,
      trace (final_state (getBase fuel q)) = trace q ++ new
      /\ forall a d,
          a ∈ forest_nodes (sc_stack splitter) ->
          Tube_empty (base (node_index a)) = true ->
          d ∈ descendant_indices a ->
          (EvTube d ∉ new) /\ (forall info, EvPoint d info ∉ new).
Proof.
  intros cfg splitter Hbase Hnd Hfuel.
  assert (Hnone : out_of_fuel (Ret false q) = false
                  /\ exists new,
                      trace (final_state (Ret false q)) = trace q ++ new
                      /\ Forall (respects_empty_tubes base (sc_stack splitter))
                           new).
  { split; [reflexivity|]. exists []. split; [|constructor].
    cbn [final_state]. rewrite app_nil_r. reflexivity. }
  assert (Hlogs : loop_logs base (sc_stack splitter) q (getBase fuel q)).
  { unfold getBase. fold cfg. rewrite Hbase.
    destruct (_ && _); [|exact Hnone]. fold splitter.
    destruct (SplitClimber_index splitter) as [index|]; [|exact Hnone].
    destruct (index <? baseIndexBegin (m_structure cfg)); [exact Hnone|].
    destruct splitter as [stack depthEnd]. cbn [sc_stack] in *.
    apply getBase_loop_logs; assumption. }
  destruct Hlogs as (Hf & new & Hnew & Hall).
  split; [exact Hf|]. exists new. split; [exact Hnew|].
  intros a d Ha Hempty Hd. rewrite Forall_forall in Hall.
  split; [|intros info]; intros Hin; apply Hall in Hin as [_ Hbelow];
    exact (Hbelow a Ha Hempty Hd).
Qed.

End BasePassProps.

Section BasePassWitness.
Import QueryCpp.
#[local] Existing Instance z_PointOps.
#[local] Existing Instance sample_QueryDeps.

Lemma getBase_skips_below_empty_tube_witness :
  let q := set_buffer (Some []) sample_query in
  let splitter := mkSplitClimber [(sample_tree, 0)] 4 in
  reader_base (m_reader (config q)) = Some sample_base
  /\ NoDup (forest_indices (sc_stack splitter))
  /\ (length (forest_nodes (sc_stack splitter)) < 10)%nat
  /\ out_of_fuel (getBase 10 q) = false
  /\ exists new,
      trace (final_state (getBase 10 q)) = trace q ++ new
      /\ forall a d,
          a ∈ forest_nodes (sc_stack splitter) ->
          Tube_empty (sample_base (node_index a)) = true ->
          d ∈ descendant_indices a ->
          (EvTube d ∉ new) /\ (forall info, EvPoint d info ∉ new).
Proof.
  intros q splitter.
  assert (Hnd : NoDup (forest_indices (sc_stack splitter)))
    by (apply (bool_decide_unpack _); vm_compute; reflexivity).
  assert (Hfuel : (length (forest_nodes (sc_stack splitter)) < 10)%nat)
    by (vm_compute; lia).
  split; [reflexivity|]. split; [exact Hnd|]. split; [exact Hfuel|].
  exact (getBase_skips_below_empty_tube 10 q sample_base eq_refl Hnd Hfuel).
Defined.
End BasePassWitness.

(* ===================================================================== *)
(** * Part III: further properties of the code                           *)
(* ===================================================================== *)

(** ** The count field and truncated blobs *)

Lemma load_store_u64_wrap n : load_u64 (store_u64 n) = wrap n.
Proof.
  unfold load_u64. rewrite firstn_all2 by (rewrite length_store_u64; lia).
  unfold store_u64. rewrite le_combine_split. reflexivity.
Qed.

(** X1.  [popNumPoints] undoes [pushNumPoints]: it returns the pushed count
    reduced modulo 2^64 and restores the buffer. *)
Theorem popNumPoints_pushNumPoints_wrap (body : list byte) (n : Z) :
  popNumPoints (pushNumPoints body n) = Ok (wrap n, body).
Proof.
  unfold popNumPoints, pushNumPoints, sizeof_uint64_t.
  rewrite length_app, length_store_u64.
  destruct (Z.of_nat (length body + 8) <? 8) eqn:E;
    [apply Z.ltb_lt in E; lia|].
  replace (length body + 8 - 8)%nat with (length body) by lia.
  rewrite drop_app_length, take_app_length, load_store_u64_wrap.
  reflexivity.
Qed.

Section TruncatedBlob.
Context `{Cmp : Compression} `{PV : PointView}.

Lemma popNumPoints_short data :
  (length data < 8)%nat ->
  popNumPoints data = Err (Throw "Invalid serialized sparse chunk"%string).
Proof.
  intros Hlen. unfold popNumPoints, sizeof_uint64_t.
  destruct (Z.of_nat (length data) <? 8) eqn:E; [reflexivity|].
  apply Z.ltb_ge in E. lia.
Qed.

(** X2.  A blob with the Sparse marker and fewer than eight bytes before it
    is rejected with "Invalid serialized sparse chunk", by the factory of
    the build path and by [ChunkReader::create] of the read path alike. *)
Theorem truncated_sparse_blob_rejected (schema : Schema) (id maxPoints : Z)
    (body : list byte) :
  (length body < 8)%nat ->
  ChunkDataFactory_create schema id maxPoints (body ++ [Byte.x00])
  = Err (Throw "Invalid serialized sparse chunk"%string)
  /\ ChunkReader_create id schema (body ++ [Byte.x00])
     = Err (Throw "Invalid serialized sparse chunk"%string).
Proof.
  intros Hlen. split.
  - unfold ChunkDataFactory_create. rewrite getChunkType_snoc.
    change (Byte.eqb Byte.x00 Byte.x00) with true. cbn [mbind result_bind].
    unfold SparseChunkData_load. rewrite popNumPoints_short by exact Hlen.
    reflexivity.
  - unfold ChunkReader_create. rewrite getChunkType_snoc.
    change (Byte.eqb Byte.x00 Byte.x00) with true. cbn [mbind result_bind].
    unfold SparseReader_load. rewrite popNumPoints_short by exact Hlen.
    reflexivity.
Qed.

End TruncatedBlob.

Section TruncatedBlobWitness.
#[local] Existing Instance identity_Compression.
#[local] Existing Instance byte_PointView.

Lemma truncated_sparse_blob_rejected_witness :
  (length [Byte.x01; Byte.x02] < 8)%nat
  /\ ChunkDataFactory_create xy_schema 0 4096
       ([Byte.x01; Byte.x02] ++ [Byte.x00])
     = Err (Throw "Invalid serialized sparse chunk"%string)
  /\ ChunkReader_create 0 xy_schema ([Byte.x01; Byte.x02] ++ [Byte.x00])
     = Err (Throw "Invalid serialized sparse chunk"%string).
Proof.
  split; [simpl; lia|].
  apply (truncated_sparse_blob_rejected xy_schema 0 4096
           [Byte.x01; Byte.x02]).
  simpl. lia.
Defined.
End TruncatedBlobWitness.

(** ** SparseChunkData::getEntry *)

Section SparseGetEntry.
Context `{PV : PointView}.

(** X3.  [SparseChunkData::getEntry] finds or inserts.  It never fails,
    whatever the raw index; afterwards the index is populated and holds the
    returned entry; no other index changes; an index already populated
    keeps its entry and the chunk is unchanged; a fresh index gets
    [pointSize] zero bytes and no point; and asking again returns the same
    entry without further change. *)
Theorem sparse_getEntry_find_or_insert (c : SparseChunkData) (rawIndex : Z) :
  let r := SparseChunkData_getEntry c rawIndex in
  sparse_base r.2 = sparse_base c
  /\ (exists e, m_entries r.2 !! rawIndex = Some e /\ entry e = r.1)
  /\ (forall k, k <> rawIndex -> m_entries r.2 !! k = m_entries c !! k)
  /\ (forall e, m_entries c !! rawIndex = Some e ->
                r.2 = c /\ r.1 = entry e)
  /\ (m_entries c !! rawIndex = None ->
      m_entries r.2 !! rawIndex
      = Some (SparseEntry_new (m_schema (sparse_base c))))
  /\ SparseChunkData_getEntry r.2 rawIndex = r.
Proof.
  unfold SparseChunkData_getEntry.
  destruct (m_entries c !! rawIndex) as [e|] eqn:Hlk; cbn [fst snd].
  - split; [reflexivity|]. split; [eauto|]. split; [reflexivity|].
    split; [intros e' He'; inversion He'; subst; auto|].
    split; [discriminate|]. rewrite Hlk. reflexivity.
  - cbn [sparse_base m_entries]. split; [reflexivity|].
    split; [eexists; split; [apply lookup_insert_eq|reflexivity]|].
    split; [intros k Hk; apply lookup_insert_ne; congruence|].
    split; [discriminate|].
    split; [intros _; apply lookup_insert_eq|].
    rewrite lookup_insert_eq. reflexivity.
Qed.

Lemma getEntry_wf (c : SparseChunkData) (rawIndex : Z) :
  SparseChunkData_wf c ->
  m_id (sparse_base c) <= rawIndex
  < m_id (sparse_base c) + m_maxPoints (sparse_base c) ->
  (Z.of_nat (size (m_entries c)) + 1)
  * (pointSize (m_schema (sparse_base c)) + 8) < 2 ^ 64 ->
  SparseChunkData_wf (SparseChunkData_getEntry c rawIndex).2.
Proof.
  intros [Hid Hend Hkeys Hdata Hpoint Hsize] Hin Hroom.
  unfold SparseChunkData_getEntry.
  destruct (m_entries c !! rawIndex) as [e|] eqn:Hlk; cbn [snd].
  - constructor; assumption.
  - pose proof (pointSize_nonneg (m_schema (sparse_base c))) as Hps.
    constructor; cbn [sparse_base m_entries]; try assumption.
    + intros k e Hke. apply lookup_insert_Some in Hke as [[<- _]|[_ Hke]];
        [exact Hin|eauto].
    + intros k e Hke. apply lookup_insert_Some in Hke as [[_ <-]|[_ Hke]];
        [|eauto].
      unfold SparseEntry_new. cbn [data]. rewrite length_replicate. lia.
    + rewrite map_size_insert_None by exact Hlk. lia.
Qed.

Lemma getEntry_size (c : SparseChunkData) (rawIndex : Z) :
  (size (m_entries (SparseChunkData_getEntry c rawIndex).2)
   <= S (size (m_entries c)))%nat.
Proof.
  unfold SparseChunkData_getEntry.
  destruct (m_entries c !! rawIndex) as [e|] eqn:Hlk; cbn [snd m_entries].
  - lia.
  - rewrite map_size_insert_None by exact Hlk. lia.
Qed.

Lemma getEntry_all_base c l : sparse_base (getEntry_all c l) = sparse_base c.
Proof.
  revert c. induction l as [|i l IH]; intros c; [reflexivity|].
  cbn [getEntry_all foldl]. fold (getEntry_all (SparseChunkData_getEntry c i).2 l).
  rewrite IH. unfold SparseChunkData_getEntry.
  destruct (m_entries c !! i); reflexivity.
Qed.

Lemma getEntry_all_wf_gen (l : list Z) :
  forall c,
    SparseChunkData_wf c ->
    Forall (fun i => m_id (sparse_base c) <= i
                     < m_id (sparse_base c) + m_maxPoints (sparse_base c)) l ->
    (Z.of_nat (size (m_entries c)) + Z.of_nat (length l))
    * (pointSize (m_schema (sparse_base c)) + 8) < 2 ^ 64 ->
    SparseChunkData_wf (getEntry_all c l).
Proof.
  induction l as [|i l IH]; intros c Hwf Hall Hroom; [exact Hwf|].
  inversion Hall as [|? ? Hi Hall']; subst.
  cbn [getEntry_all foldl]. fold (getEntry_all (SparseChunkData_getEntry c i).2 l).
  pose proof (pointSize_nonneg (m_schema (sparse_base c))) as Hps.
  cbn [length] in Hroom.
  assert (Hb : sparse_base (SparseChunkData_getEntry c i).2 = sparse_base c).
  { unfold SparseChunkData_getEntry. destruct (m_entries c !! i); reflexivity. }
  apply IH.
  - apply getEntry_wf; [exact Hwf|exact Hi|nia].
  - rewrite Hb. exact Hall'.
  - rewrite Hb. pose proof (getEntry_size c i). nia.
Qed.

(** X4.  The invariants of a sparse chunk hold for every chunk built through
    the interface: starting from the empty chunk and calling [getEntry] on
    raw indices of the chunk's range keeps every key in range and every
    entry [pointSize] bytes long, as long as the sizes fit a [size_t]. *)
Theorem getEntry_all_well_formed (schema : Schema) (id maxPoints : Z)
    (rawIndices : list Z) :
  0 <= id ->
  id + maxPoints < 2 ^ 64 ->
  Forall (fun i => id <= i < id + maxPoints) rawIndices ->
  (1 + Z.of_nat (length rawIndices)) * (pointSize schema + 8) < 2 ^ 64 ->
  SparseChunkData_wf
    (getEntry_all (SparseChunkData_empty schema id maxPoints) rawIndices).
Proof.
  intros Hid Hend Hall Hroom.
  pose proof (pointSize_nonneg schema) as Hps.
  apply getEntry_all_wf_gen.
  - constructor; cbn [SparseChunkData_empty sparse_base m_entries m_id
                      m_maxPoints m_schema]; try assumption.
    + intros k e Hke. rewrite lookup_empty in Hke. discriminate.
    + intros k e Hke. rewrite lookup_empty in Hke. discriminate.
    + nia.
    + rewrite map_size_empty. lia.
  - exact Hall.
  - cbn [SparseChunkData_empty sparse_base m_entries m_schema].
    rewrite map_size_empty. nia.
Qed.
End SparseGetEntry.

Section GetEntryAllWitness.
#[local] Existing Instance byte_PointView.

Lemma getEntry_all_well_formed_witness :
  0 <= 0
  /\ 0 + 4096 < 2 ^ 64
  /\ Forall (fun i => 0 <= i < 0 + 4096) [10; 42; 10]
  /\ (1 + Z.of_nat (length [10; 42; 10])) * (pointSize xy_schema + 8) < 2 ^ 64
  /\ SparseChunkData_wf
       (getEntry_all (SparseChunkData_empty xy_schema 0 4096) [10; 42; 10]).
Proof.
  assert (H1 : 0 <= 0) by lia.
  assert (H2 : 0 + 4096 < 2 ^ 64) by (vm_compute; reflexivity).
  assert (H3 : Forall (fun i => 0 <= i < 0 + 4096) [10; 42; 10])
    by (repeat constructor; lia).
  assert (H4 : (1 + Z.of_nat (length [10; 42; 10]))
               * (pointSize xy_schema + 8) < 2 ^ 64)
    by (vm_compute; reflexivity).
  repeat (split; [assumption|]).
  exact (getEntry_all_well_formed xy_schema 0 4096 [10; 42; 10] H1 H2 H3 H4).
Defined.
End GetEntryAllWitness.

(** ** Windows of a sorted sequence *)

Lemma partition_point_mono {A} (p p' : A -> bool) (l : list A) :
  (forall x, p x = true -> p' x = true) ->
  (partition_point p l <= partition_point p' l)%nat.
Proof.
  intros Himp. induction l as [|x l IH]; cbn [partition_point]; [lia|].
  destruct (p x) eqn:Hp; [|lia]. rewrite (Himp x Hp). lia.
Qed.

Lemma partition_point_ext {A} (p p' : A -> bool) (l : list A) :
  (forall x, p x = p' x) -> partition_point p l = partition_point p' l.
Proof.
  intros Heq. induction l as [|x l IH]; cbn [partition_point]; [reflexivity|].
  rewrite Heq, IH. reflexivity.
Qed.

Lemma filter_none {A} (P : A -> Prop) `{!forall x, Decision (P x)}
    (l : list A) :
  Forall (fun x => ~ P x) l -> filter P l = [].
Proof.
  induction 1 as [|x l Hx _ IH]; [reflexivity|].
  rewrite filter_cons_False by exact Hx. exact IH.
Qed.

Lemma StronglySorted_filter {A} (R : relation A) (P : A -> Prop)
    `{!forall x, Decision (P x)} (l : list A) :
  StronglySorted R l -> StronglySorted R (filter P l).
Proof.
  induction 1 as [|x l Hl IH Hx]; [constructor|].
  rewrite filter_cons. destruct (decide (P x)); [|exact IH].
  constructor; [exact IH|]. apply Forall_forall. intros y Hy.
  apply list_elem_of_filter in Hy as [_ Hy].
  rewrite Forall_forall in Hx. auto.
Qed.

(** Between the lower bound of [lo] and the upper bound of [hi], a sequence
    sorted by key holds exactly its elements with key in [[lo, hi]]. *)
Lemma sorted_window {A} (key : A -> Z) (lo hi : Z) (l : list A) :
  StronglySorted (fun a b => key a <= key b) l ->
  (partition_point (fun e => (key e <? lo)%Z) l
   <= partition_point (fun e => (key e <=? hi)%Z) l)%nat ->
  take (partition_point (fun e => (key e <=? hi)%Z) l
        - partition_point (fun e => (key e <? lo)%Z) l)
       (drop (partition_point (fun e => (key e <? lo)%Z) l) l)
  = filter (fun e => lo <= key e <= hi) l.
Proof.
  induction 1 as [|x l Hl IH Hx]; intros Hle; [reflexivity|].
  cbn [partition_point] in *.
  destruct (key x <? lo) eqn:Hlo.
  - apply Z.ltb_lt in Hlo.
    destruct (key x <=? hi) eqn:Hhi; [|lia].
    rewrite filter_cons_False by lia.
    cbn [drop]. replace (S _ - S _)%nat
      with (partition_point (fun e => (key e <=? hi)%Z) l
            - partition_point (fun e => (key e <? lo)%Z) l)%nat by lia.
    apply IH. lia.
  - apply Z.ltb_ge in Hlo.
    assert (Hlb : partition_point (fun e => key e <? lo) l = O).
    { apply partition_point_none. eapply Forall_impl; [exact Hx|].
      intros y Hy. cbn beta in Hy. apply Z.ltb_ge. lia. }
    destruct (key x <=? hi) eqn:Hhi.
    + apply Z.leb_le in Hhi. rewrite filter_cons_True by lia.
      cbn [drop]. rewrite Nat.sub_0_r. cbn [take]. f_equal.
      rewrite Hlb, Nat.sub_0_r, drop_0 in IH. apply IH. lia.
    + apply Z.leb_gt in Hhi. rewrite filter_cons_False by lia.
      cbn [take drop]. symmetry. apply filter_none.
      eapply Forall_impl; [exact Hx|]. intros y Hy. cbn beta in Hy. lia.
Qed.

(** ** squash: the records of a range *)

Section SquashProps.
Context `{PV : PointView}.

Lemma key_le_trans {V} : Transitive (@key_le V).
Proof. unfold key_le. intros a b c. lia. Qed.

Lemma key_le_total {V} : Total (@key_le V).
Proof. unfold key_le. intros a b. lia. Qed.

Lemma in_order_sorted {V} (m : gmap Z V) :
  StronglySorted key_le (in_order m).
Proof.
  unfold in_order.
  apply (@StronglySorted_merge_sort _ key_le _ key_le_trans key_le_total).
Qed.

Lemma sorted_strict {V} (l : list (Z * V)) :
  StronglySorted key_le l -> NoDup l.*1 ->
  StronglySorted (fun a b => a.1 < b.1) l.
Proof.
  induction 1 as [|x l Hl IH Hx]; intros Hnd; constructor.
  - apply IH. cbn [fmap list_fmap] in Hnd. apply NoDup_cons in Hnd as [_ H].
    exact H.
  - cbn [fmap list_fmap] in Hnd. apply NoDup_cons in Hnd as [Hnot _].
    rewrite Forall_forall in *. intros y Hy.
    specialize (Hx y Hy). unfold key_le in Hx.
    destruct (decide (x.1 = y.1)) as [Heq|Hne]; [|lia].
    exfalso. apply Hnot. rewrite Heq.
    apply list_elem_of_fmap. exists y. split; [reflexivity|exact Hy].
Qed.

Lemma in_order_strict {V} (m : gmap Z V) :
  StronglySorted (fun a b => a.1 < b.1) (in_order m).
Proof.
  apply sorted_strict; [apply in_order_sorted|].
  rewrite (in_order_perm m). apply NoDup_fst_map_to_list.
Qed.

Lemma squash_upto (c : SparseChunkData) (begin end_ last : Z) :
  (forall k e, m_entries c !! k = Some e ->
     Z.of_nat (length (data e)) = pointSize (m_schema (sparse_base c))) ->
  pointSize (m_schema (sparse_base c)) + 8 < 2 ^ 64 ->
  wrap (end_ - 1) = last ->
  begin <= last + 1 ->
  squash c (mkSchema (makeSparse (m_schema (sparse_base c)))) begin end_
  = Ok (concat (map cell_bytes
                  (filter (fun e => begin <= e.1 <= last)
                          (in_order (m_entries c))))).
Proof.
  intros Hdata Hpoint Hlast Hle.
  unfold squash. rewrite pointSize_makeSparse.
  pose proof (pointSize_nonneg (m_schema (sparse_base c))) as Hps.
  unfold sizeof_uint64_t. rewrite wrap_small by lia.
  replace (pointSize (m_schema (sparse_base c)) + 8 =?
           8 + pointSize (m_schema (sparse_base c))) with true
    by (symmetry; apply Z.eqb_eq; lia).
  cbn [negb]. rewrite Hlast.
  unfold map_lower_bound, map_upper_bound.
  set (l := in_order (m_entries c)).
  assert (Hmono :
            (partition_point (fun e : Z * SparseEntry => (e.1 <? begin)%Z) l
             <= partition_point (fun e => (e.1 <=? last)%Z) l)%nat).
  { apply partition_point_mono. intros x Hx.
    apply Z.ltb_lt in Hx. apply Z.leb_le. lia. }
  destruct (_ <? _)%nat eqn:E; [apply Nat.ltb_lt in E; lia|].
  rewrite (sorted_window fst begin last l (in_order_sorted _) Hmono).
  rewrite (rmapM_squash_record (pointSize (m_schema (sparse_base c))));
    [reflexivity|].
  apply Forall_forall. intros [k e] Hin. cbn [snd].
  apply list_elem_of_filter in Hin as [_ Hin].
  unfold l in Hin. rewrite (in_order_perm (m_entries c)) in Hin.
  apply elem_of_map_to_list in Hin. eauto.
Qed.

(** X5.  For a chunk whose entries own [pointSize] bytes and a range with
    [begin <= end < 2^64]: when [0 < end], [squash] returns the records
    (8-byte key, then the entry's bytes) of exactly the entries with key in
    [[begin, end)], in strictly ascending key order; when [end = 0], the
    bound [end - 1] wraps to [2^64 - 1] and [squash] returns the records of
    every entry with key from [begin] up to [2^64 - 1], not the empty
    range. *)
Theorem squash_serializes_range (c : SparseChunkData) (begin end_ : Z) :
  (forall k e, m_entries c !! k = Some e ->
     Z.of_nat (length (data e)) = pointSize (m_schema (sparse_base c))) ->
  pointSize (m_schema (sparse_base c)) + 8 < 2 ^ 64 ->
  0 <= end_ < 2 ^ 64 ->
  begin <= end_ ->
  let sparse := mkSchema (makeSparse (m_schema (sparse_base c))) in
  (0 < end_ ->
   squash c sparse begin end_
   = Ok (concat (map cell_bytes
                   (filter (fun e => begin <= e.1 < end_)
                           (in_order (m_entries c))))))
  /\ (end_ = 0 ->
      squash c sparse begin end_
      = Ok (concat (map cell_bytes
                      (filter (fun e => begin <= e.1 <= 2 ^ 64 - 1)
                              (in_order (m_entries c))))))
  /\ StronglySorted (fun a b => a.1 < b.1)
       (filter (fun e => begin <= e.1 < end_) (in_order (m_entries c)))
  /\ StronglySorted (fun a b => a.1 < b.1)
       (filter (fun e => begin <= e.1 <= 2 ^ 64 - 1)
               (in_order (m_entries c))).
Proof.
  intros Hdata Hpoint Hend Hle sparse.
  split; [|split; [|split]].
  - intros Hpos. unfold sparse.
    rewrite (squash_upto c begin end_ (end_ - 1) Hdata Hpoint)
      by (try apply wrap_small; lia).
    do 3 f_equal. apply list_filter_iff. intros x. lia.
  - intros ->. unfold sparse.
    apply (squash_upto c begin 0 (2 ^ 64 - 1) Hdata Hpoint);
      [reflexivity|lia].
  - apply StronglySorted_filter, in_order_strict.
  - apply StronglySorted_filter, in_order_strict.
Qed.
End SquashProps.

Section SquashWitness.
#[local] Existing Instance byte_PointView.

Lemma squash_serializes_range_witness :
  let l := in_order (m_entries sample_sparse) in
  let sparse := mkSchema (makeSparse xy_schema) in
  (squash sample_sparse sparse 0 100
   = Ok (concat (map cell_bytes (filter (fun e => 0 <= e.1 < 100) l)))
   /\ StronglySorted (fun a b => a.1 < b.1)
        (filter (fun e => 0 <= e.1 < 100) l))
  /\ squash sample_sparse sparse 0 0
     = Ok (concat (map cell_bytes
                     (filter (fun e => 0 <= e.1 <= 2 ^ 64 - 1) l)))
  /\ length (filter (fun e : Z * SparseEntry => 0 <= e.1 <= 2 ^ 64 - 1) l)
     = 3%nat.
Proof.
  intros l sparse.
  assert (Hdata : forall k e, m_entries sample_sparse !! k = Some e ->
            Z.of_nat (length (data e)) = pointSize xy_schema).
  { apply (bool_decide_unpack
             (map_Forall
                (fun _ (e : SparseEntry) => Z.of_nat (length (data e)) = 2)
                _)).
    vm_compute. reflexivity. }
  assert (Hpoint : pointSize xy_schema + 8 < 2 ^ 64)
    by (vm_compute; reflexivity).
  split; [|split].
  - destruct (squash_serializes_range sample_sparse 0 100 Hdata Hpoint
                ltac:(lia) ltac:(lia)) as (H1 & _ & H3 & _).
    split; [exact (H1 ltac:(lia))|exact H3].
  - destruct (squash_serializes_range sample_sparse 0 0 Hdata Hpoint
                ltac:(lia) ltac:(lia)) as (_ & H2 & _).
    exact (H2 eq_refl).
  - vm_compute. reflexivity.
Defined.
End SquashWitness.

(** ** What write stores *)

Section WriteProps.
Context `{Cmp : Compression} `{PV : PointView}.

(** X6.  Whatever the chunk kind and the range, a successful [write] changes
    the store at the name [to_string begin] only, and the blob it puts
    there ends with the marker of the chunk's own kind, so that
    [getChunkType] recovers that kind and the bytes before the marker. *)
Theorem write_marks_kind (c : ChunkData) (source source' : Source)
    (begin end_ : Z) :
  write c source begin end_ = Ok source' ->
  let kind := if isSparse c then Sparse else Contiguous in
  exists body,
    source' = Source_put source (to_string begin)
                (body ++ [ChunkType_char kind])
    /\ getChunkType (body ++ [ChunkType_char kind]) = Ok (kind, body)
    /\ forall name, name <> to_string begin ->
                    source' !! name = source !! name.
Proof.
  intros Hw kind.
  assert (H : exists body,
             source' = Source_put source (to_string begin)
                         (body ++ [ChunkType_char kind])).
  { destruct c as [s|d]; cbn [write isSparse] in *; subst kind.
    - unfold SparseChunkData_write in Hw.
      destruct (squash s _ begin end_); cbn [mbind result_bind] in Hw;
        [|discriminate].
      inversion Hw. eexists. reflexivity.
    - unfold ContiguousChunkData_write in Hw.
      destruct (normalize _ begin); cbn [mbind result_bind] in Hw;
        [|discriminate].
      match type of Hw with (if ?t then _ else _) = _ => destruct t end;
        [discriminate|].
      inversion Hw. eexists. reflexivity. }
  destruct H as [body ->]. exists body. split; [reflexivity|]. split.
  - rewrite getChunkType_snoc. destruct (isSparse c); reflexivity.
  - intros name Hne. unfold Source_put. apply lookup_insert_ne. congruence.
Qed.
End WriteProps.

Section WriteWitness.
#[local] Existing Instance identity_Compression.
#[local] Existing Instance byte_PointView.

Lemma write_marks_kind_witness :
  let c := SparseData sample_cold in
  let source' :=
    Source_put ∅ "8"%string
      ((store_u64 9 ++ [Byte.x01; Byte.x02]) ++ store_u64 2 ++ [Byte.x00]) in
  write c ∅ 8 12 = Ok source'
  /\ exists body,
      source' = Source_put ∅ (to_string 8) (body ++ [ChunkType_char Sparse])
      /\ getChunkType (body ++ [ChunkType_char Sparse]) = Ok (Sparse, body)
      /\ forall name, name <> to_string 8 ->
                      source' !! name = (∅ : Source) !! name.
Proof.
  intros c source'.
  assert (Hw : write c ∅ 8 12 = Ok source') by (vm_compute; reflexivity).
  split; [exact Hw|].
  exact (write_marks_kind c ∅ source' 8 12 Hw).
Defined.
End WriteWitness.

(** ** From the build path to the read path *)

Section BuildToRead.
Context `{Cmp : Compression} `{PV : PointView}.

Lemma decode_cell_bytes_reader (ps : Z) (l : list (Z * SparseEntry)) :
  0 <= ps ->
  forall fuel acc,
    Forall (fun e => 0 <= e.1 < 2 ^ 64
                     /\ Z.of_nat (length (data e.2)) = ps) l ->
    (length l <= fuel)%nat ->
    decode_records fuel (8 + ps) (SparseReader_point (8 + ps))
      (concat (map cell_bytes l)) acc
    = Ok (acc ∪ list_to_map ((fun e => (e.1, data e.2)) <$> l)).
Proof.
  intros Hps. induction l as [|[k e] l IH]; intros fuel acc Hall Hfuel.
  - cbn [map concat fmap list_fmap list_to_map foldr].
    rewrite (right_id_L ∅ (∪)). destruct fuel; reflexivity.
  - apply Forall_cons in Hall as [[Hk Hlen] Hall']. simpl in Hk, Hlen.
    destruct fuel as [|fuel]; [simpl in Hfuel; lia|].
    cbn [map concat]. unfold cell_bytes at 1. cbn [fst snd].
    set (rest := concat (map cell_bytes l)).
    rewrite decode_records_step
      by (rewrite !length_app, length_store_u64; lia).
    replace (Z.of_nat (length ((store_u64 k ++ data e) ++ rest)) <? 8 + ps)
      with false
      by (symmetry; apply Z.ltb_ge;
          rewrite !length_app, length_store_u64; lia).
    assert (Hload : load_u64 ((store_u64 k ++ data e) ++ rest) = k)
      by (rewrite <- app_assoc; apply load_store_u64; exact Hk).
    assert (Hd8 : drop 8 ((store_u64 k ++ data e) ++ rest) = data e ++ rest)
      by (rewrite <- app_assoc; apply drop_app_length';
          rewrite length_store_u64; reflexivity).
    assert (Hds : drop (Z.to_nat (8 + ps))
                    ((store_u64 k ++ data e) ++ rest) = rest)
      by (apply drop_app_length';
          rewrite length_app, length_store_u64; lia).
    rewrite Hload, Hd8, Hds.
    rewrite IH by (try exact Hall'; simpl in Hfuel; lia).
    f_equal. cbn [fmap list_fmap list_to_map foldr fst snd].
    rewrite emplace_union. f_equal. f_equal.
    unfold SparseReader_point. apply take_app_length'. lia.
Qed.

Lemma list_to_map_data_in_order (m : gmap Z SparseEntry) :
  list_to_map ((fun e => (e.1, data e.2)) <$> in_order m) = data <$> m.
Proof.
  rewrite <- (list_to_map_in_order m) at 2.
  rewrite <- list_to_map_fmap. reflexivity.
Qed.

Context `{CmpOk : !CompressionOk}.

(** X7.  What the builder saves, the reader serves.  After [save] of a
    well-formed sparse chunk, [ChunkReader::create] on the stored blob
    builds a sparse reader whose [getData] returns, for every raw index,
    the bytes of the chunk's entry at that index, and the null pointer at
    every index the chunk does not populate. *)
Theorem sparse_save_then_read (c : SparseChunkData) (source : Source) :
  SparseChunkData_wf c ->
  exists source' blob r,
    save (SparseData c) source = Ok source'
    /\ source' !! to_string (m_id (sparse_base c)) = Some blob
    /\ ChunkReader_create (m_id (sparse_base c)) (m_schema (sparse_base c))
         blob = Ok (SparseReaderOf r)
    /\ forall rawIndex,
        SparseReader_getData r rawIndex = data <$> m_entries c !! rawIndex.
Proof.
  intros Hwf. pose proof (squash_full_range c Hwf) as Hsq.
  destruct Hwf as [Hid Hend Hkeys Hdata Hpoint Hsize].
  destruct c as [[schema id maxPoints] entries].
  cbn [sparse_base m_entries m_schema m_id m_maxPoints] in *.
  set (sparse := mkSchema (makeSparse schema)) in *.
  set (l := in_order entries) in *.
  set (squashed := concat (map cell_bytes l)) in *.
  pose proof (pointSize_nonneg schema) as Hps.
  assert (Hl : Forall (fun e => 0 <= e.1 < 2 ^ 64
                 /\ Z.of_nat (length (data e.2)) = pointSize schema) l).
  { apply in_order_Forall. intros k e Hke. simpl.
    split; [apply Hkeys in Hke; lia|eauto]. }
  assert (Hlen : Z.of_nat (length squashed)
                 = Z.of_nat (size entries) * (pointSize schema + 8)).
  { unfold squashed. rewrite (length_concat_cells (pointSize schema)).
    - unfold l. rewrite length_in_order. reflexivity.
    - eapply Forall_impl; [exact Hl|]. intros e [_ He]. exact He. }
  assert (Hn : 0 <= Z.of_nat (size entries) < 2 ^ 64) by nia.
  set (blob := pushNumPoints (compress squashed sparse)
                 (wrap (Z.of_nat (size entries)))
               ++ [ChunkType_char Sparse]).
  exists (Source_put source (to_string id) blob), blob,
         (mkSparseReader id schema (data <$> entries)).
  split.
  { unfold save, write, SparseChunkData_write.
    cbn [base_of sparse_base m_entries m_schema m_id].
    fold sparse. rewrite Hsq. reflexivity. }
  split; [apply lookup_insert_eq|].
  split.
  { unfold blob, ChunkReader_create. rewrite getChunkType_snoc.
    change (ChunkType_char Sparse) with Byte.x00.
    change (Byte.eqb Byte.x00 Byte.x00) with true. cbn [mbind result_bind].
    unfold SparseReader_load.
    rewrite popNumPoints_pushNumPoints by apply wrap_range.
    cbn [mbind result_bind].
    rewrite (wrap_small (Z.of_nat (size entries))) by exact Hn.
    rewrite pointSize_makeSparse. fold sparse.
    replace (wrap (Z.of_nat (size entries) * (8 + pointSize schema)))
      with (Z.of_nat (length squashed))
      by (rewrite wrap_small by lia; lia).
    rewrite decompress_compress. cbn [mbind result_bind].
    unfold squashed at 2.
    rewrite (decode_cell_bytes_reader (pointSize schema) l Hps).
    - cbn [mbind result_bind fmap result_fmap].
      rewrite (left_id_L ∅ (∪)). unfold l.
      rewrite list_to_map_data_in_order. reflexivity.
    - exact Hl.
    - unfold l in *. rewrite length_in_order in *. nia. }
  intros rawIndex. unfold SparseReader_getData. cbn [r_data].
  rewrite lookup_fmap. destruct (entries !! rawIndex); reflexivity.
Qed.
End BuildToRead.

Section BuildToReadWitness.
#[local] Existing Instance identity_Compression.
#[local] Existing Instance byte_PointView.

Lemma sample_sparse_wf : SparseChunkData_wf sample_sparse.
Proof.
  constructor.
  - vm_compute. discriminate.
  - vm_compute. reflexivity.
  - apply (bool_decide_unpack (map_Forall (fun k _ => 0 <= k < 0 + 4096) _)).
    vm_compute. reflexivity.
  - apply (bool_decide_unpack
             (map_Forall
                (fun _ (e : SparseEntry) => Z.of_nat (length (data e)) = 2)
                _)).
    vm_compute. reflexivity.
  - vm_compute. reflexivity.
  - vm_compute. reflexivity.
Defined.

Lemma sparse_save_then_read_witness :
  SparseChunkData_wf sample_sparse
  /\ exists source' blob r,
      save (SparseData sample_sparse) ∅ = Ok source'
      /\ source' !! to_string 0 = Some blob
      /\ ChunkReader_create 0 xy_schema blob = Ok (SparseReaderOf r)
      /\ forall rawIndex,
          SparseReader_getData r rawIndex
          = data <$> m_entries sample_sparse !! rawIndex.
Proof.
  split; [exact sample_sparse_wf|].
  exact (sparse_save_then_read (CmpOk := identity_CompressionOk)
           sample_sparse ∅ sample_sparse_wf).
Defined.
End BuildToReadWitness.

(** ** Contiguous chunks *)

Section ContiguousProps.
Context `{Cmp : Compression} `{PV : PointView}.

Lemma contiguous_write_slice (c : ContiguousChunkData) (source : Source)
    (begin end_ : Z) :
  ContiguousChunkData_wf c ->
  m_id (contiguous_base c) <= begin
  < m_id (contiguous_base c) + m_maxPoints (contiguous_base c) ->
  begin <= end_
  <= m_id (contiguous_base c) + m_maxPoints (contiguous_base c) ->
  ContiguousChunkData_write c source begin end_
  = Ok (Source_put source (to_string begin)
          (compress (slice_bytes c begin end_)
                    (m_schema (contiguous_base c))
           ++ [ChunkType_char Contiguous])).
Proof.
  intros [Hid Hmax Hend Hdata Hentries Hsize] Hb He.
  pose proof (pointSize_nonneg (m_schema (contiguous_base c))) as Hps.
  unfold ContiguousChunkData_write, normalize, slice_bytes.
  destruct (begin <? m_id (contiguous_base c)) eqn:E1;
    [apply Z.ltb_lt in E1; lia|].
  rewrite (wrap_small (_ + _)) by lia.
  destruct (begin <? m_id (contiguous_base c)
                       + m_maxPoints (contiguous_base c)) eqn:E2;
    [|apply Z.ltb_ge in E2; lia].
  cbn [negb mbind result_bind].
  rewrite (wrap_small (begin - _)) by lia.
  rewrite (wrap_small (end_ - begin)) by lia.
  rewrite (wrap_small ((begin - _) * _)) by nia.
  rewrite (wrap_small ((end_ - begin) * _)) by nia.
  match goal with |- context [if ?t then _ else _] =>
    destruct t eqn:E3 end; [apply Z.ltb_lt in E3; nia|].
  reflexivity.
Qed.

Lemma length_slice_bytes (c : ContiguousChunkData) (begin end_ : Z) :
  ContiguousChunkData_wf c ->
  m_id (contiguous_base c) <= begin ->
  begin <= end_
  <= m_id (contiguous_base c) + m_maxPoints (contiguous_base c) ->
  Z.of_nat (length (slice_bytes c begin end_))
  = (end_ - begin) * pointSize (m_schema (contiguous_base c)).
Proof.
  intros [Hid Hmax Hend Hdata Hentries Hsize] Hb He.
  pose proof (pointSize_nonneg (m_schema (contiguous_base c))) as Hps.
  unfold slice_bytes. rewrite length_take, length_drop. nia.
Qed.

Lemma contiguous_load_entries schema id maxPoints blob c :
  ContiguousChunkData_load schema id maxPoints blob = Ok c ->
  exists m_data,
    c = mkContiguousChunkData (mkChunkDataBase schema id maxPoints)
          (map (loaded_entry schema m_data) (seq 0 (Z.to_nat maxPoints)))
          m_data
    /\ decompress blob schema (wrap (maxPoints * pointSize schema))
       = Ok m_data
    /\ maxPoints * pointSize schema <= Z.of_nat (length m_data).
Proof.
  unfold ContiguousChunkData_load. intros H.
  destruct (decompress blob schema _) as [m_data|] eqn:Hd;
    cbn [mbind result_bind] in H; [|discriminate].
  match type of H with (if ?t then _ else _) = _ =>
    destruct t eqn:E end; [discriminate|].
  apply Z.ltb_ge in E.
  inversion H. exists m_data. split; [reflexivity|]. split; [reflexivity|].
  exact E.
Qed.

Lemma lookup_map_seq {A} (f : nat -> A) (n i : nat) :
  (i < n)%nat -> map f (seq 0 n) !! i = Some (f i).
Proof.
  intros Hi. change (map f (seq 0 n)) with (f <$> seq 0 n).
  rewrite list_lookup_fmap, lookup_seq_lt by exact Hi. reflexivity.
Qed.

(** X9.  A contiguous chunk loaded from a blob answers [getEntry] by
    position: for a raw index of the chunk the entry is the one built from
    the record at [rawIndex - id], holding a point exactly when
    [Point::exists] accepts the X and Y read there; for any other raw index
    the range assertion fails. *)
Theorem contiguous_load_getEntry (schema : Schema) (id maxPoints : Z)
    (blob : list byte) (c : ContiguousChunkData) (rawIndex : Z) :
  ContiguousChunkData_load schema id maxPoints blob = Ok c ->
  0 <= id -> 0 <= maxPoints -> id + maxPoints < 2 ^ 64 ->
  ContiguousChunkData_getEntry c rawIndex
  = if (id <=? rawIndex) && (rawIndex <? id + maxPoints)
    then Ok (loaded_entry schema (c_data c) (Z.to_nat (rawIndex - id)))
    else Err Undefined.
Proof.
  intros Hload Hid Hmax Hend.
  apply contiguous_load_entries in Hload as (m_data & -> & _ & _).
  unfold ContiguousChunkData_getEntry, normalize.
  cbn [contiguous_base c_entries c_data m_id m_maxPoints].
  rewrite (wrap_small (id + maxPoints)) by lia.
  destruct (rawIndex <? id) eqn:E1.
  - apply Z.ltb_lt in E1.
    replace (id <=? rawIndex) with false by (symmetry; apply Z.leb_gt; lia).
    reflexivity.
  - apply Z.ltb_ge in E1.
    replace (id <=? rawIndex) with true by (symmetry; apply Z.leb_le; lia).
    destruct (rawIndex <? id + maxPoints) eqn:E2; cbn [negb andb];
      [|reflexivity].
    apply Z.ltb_lt in E2. cbn [mbind result_bind].
    rewrite (wrap_small (rawIndex - id)) by lia.
    rewrite lookup_map_seq by lia. reflexivity.
Qed.

Context `{CmpOk : !CompressionOk}.

Lemma contiguous_load_compressed schema id n (d : list byte) :
  0 <= n ->
  Z.of_nat (length d) = n * pointSize schema ->
  n * pointSize schema < 2 ^ 64 ->
  ContiguousChunkData_load schema id n (compress d schema)
  = Ok (mkContiguousChunkData (mkChunkDataBase schema id n)
          (map (loaded_entry schema d) (seq 0 (Z.to_nat n))) d).
Proof.
  intros Hn Hlen Hfit. unfold ContiguousChunkData_load.
  pose proof (pointSize_nonneg schema) as Hps.
  rewrite wrap_small by nia. rewrite <- Hlen.
  rewrite decompress_compress. cbn [mbind result_bind].
  match goal with |- context [if ?t then _ else _] =>
    destruct t eqn:E end; [apply Z.ltb_lt in E; lia|].
  reflexivity.
Qed.

(** X8.  Round trip of a contiguous slice.  Writing the records
    [[begin, end)] of a well-formed contiguous chunk stores, under the name
    of [begin], a blob from which the factory rebuilds a contiguous chunk of
    id [begin] and capacity [end - begin] whose buffer is exactly the bytes
    of those records and whose entries are the ones read from them. *)
Theorem contiguous_slice_roundtrip (c : ContiguousChunkData)
    (source : Source) (begin end_ : Z) :
  ContiguousChunkData_wf c ->
  m_id (contiguous_base c) <= begin
  < m_id (contiguous_base c) + m_maxPoints (contiguous_base c) ->
  begin <= end_
  <= m_id (contiguous_base c) + m_maxPoints (contiguous_base c) ->
  let schema := m_schema (contiguous_base c) in
  let slice := slice_bytes c begin end_ in
  exists source' blob,
    write (ContiguousData c) source begin end_ = Ok source'
    /\ source' !! to_string begin = Some blob
    /\ ChunkDataFactory_create schema begin (end_ - begin) blob
       = Ok (ContiguousData
               (mkContiguousChunkData
                  (mkChunkDataBase schema begin (end_ - begin))
                  (map (loaded_entry schema slice)
                       (seq 0 (Z.to_nat (end_ - begin))))
                  slice)).
Proof.
  intros Hwf Hb He schema slice.
  pose proof (length_slice_bytes c begin end_ Hwf ltac:(lia) He) as Hlen.
  fold schema slice in Hlen.
  exists (Source_put source (to_string begin)
            (compress slice schema ++ [ChunkType_char Contiguous])),
         (compress slice schema ++ [ChunkType_char Contiguous]).
  split; [apply contiguous_write_slice; assumption|].
  split; [apply lookup_insert_eq|].
  unfold ChunkDataFactory_create. rewrite getChunkType_snoc.
  change (ChunkType_char Contiguous) with Byte.x01.
  change (Byte.eqb Byte.x01 Byte.x00) with false.
  change (Byte.eqb Byte.x01 Byte.x01) with true. cbn [mbind result_bind].
  rewrite contiguous_load_compressed; [reflexivity|lia|exact Hlen|].
  destruct Hwf as [Hid Hmax Hend Hdata Hentries Hsize].
  pose proof (pointSize_nonneg schema). fold schema in Hsize. nia.
Qed.

(** X10.  The read path keeps a contiguous blob as stored.  After [save] of
    a well-formed, non-empty contiguous chunk, [ChunkReader::create] on the
    stored blob builds a contiguous reader whose buffer is the compressed
    payload itself: no decompression takes place, and [getData] of the
    chunk's first raw index points at the start of that payload. *)
Theorem contiguous_reader_keeps_payload (c : ContiguousChunkData)
    (source : Source) :
  ContiguousChunkData_wf c ->
  0 < m_maxPoints (contiguous_base c) ->
  let schema := m_schema (contiguous_base c) in
  let id := m_id (contiguous_base c) in
  let r := mkContiguousReader id schema (compress (c_data c) schema) in
  exists source' blob,
    save (ContiguousData c) source = Ok source'
    /\ source' !! to_string id = Some blob
    /\ ChunkReader_create id schema blob = Ok (ContiguousReaderOf r)
    /\ ContiguousReader_getData r id = Ok (compress (c_data c) schema).
Proof.
  intros Hwf Hpos schema id r.
  pose proof Hwf as [Hid Hmax Hend Hdata Hentries Hsize].
  assert (Hslice : slice_bytes c id (id + m_maxPoints (contiguous_base c))
                   = c_data c).
  { unfold slice_bytes. fold id. rewrite Z.sub_diag, Z.mul_0_l.
    cbn [Z.to_nat drop]. apply firstn_all2.
    replace (id + m_maxPoints (contiguous_base c) - id)
      with (m_maxPoints (contiguous_base c)) by lia.
    lia. }
  exists (Source_put source (to_string id)
            (compress (c_data c) schema ++ [ChunkType_char Contiguous])),
         (compress (c_data c) schema ++ [ChunkType_char Contiguous]).
  split.
  { unfold save. cbn [base_of write]. unfold endId.
    rewrite wrap_small by (fold id; lia). fold id.
    rewrite contiguous_write_slice by (try assumption; fold id; lia).
    rewrite Hslice. reflexivity. }
  split; [apply lookup_insert_eq|]. split.
  - unfold ChunkReader_create. rewrite getChunkType_snoc. reflexivity.
  - unfold ContiguousReader_getData, r. cbn [cr_id cr_schema cr_data].
    rewrite Z.sub_diag. change (wrap 0) with 0. rewrite Z.mul_0_l.
    change (wrap 0) with 0.
    match goal with |- context [if ?t then _ else _] =>
      destruct t eqn:E end; [apply Z.ltb_lt in E; lia|].
    reflexivity.
Qed.

Context `{ET : EmptyTable}.

Lemma map_seq_replicate {A} (f : nat -> A) (v : A) (n : nat) :
  (forall i, (i < n)%nat -> f i = v) -> map f (seq 0 n) = replicate n v.
Proof.
  intros Hf. apply list_eq. intros i.
  destruct (decide (i < n)%nat) as [Hi|Hi].
  - rewrite lookup_map_seq by exact Hi.
    rewrite lookup_replicate_2 by exact Hi. f_equal. auto.
  - rewrite !lookup_ge_None_2; [reflexivity| |].
    + rewrite length_replicate. lia.
    + rewrite length_map, length_seq. lia.
Qed.

(** X11.  A freshly constructed contiguous chunk is well formed, every one of
    its entries is without a point, and saving it and loading the blob
    through the factory gives the very same chunk back. *)
Theorem fresh_contiguous_roundtrip (schema : Schema) (id maxPoints : Z)
    (source : Source) :
  EmptyTableOk schema ->
  0 <= id -> 0 < maxPoints -> id + maxPoints < 2 ^ 64 ->
  maxPoints * pointSize schema < 2 ^ 64 ->
  let c := ContiguousChunkData_new schema id maxPoints in
  ContiguousChunkData_wf c
  /\ (forall rawIndex, id <= rawIndex < id + maxPoints ->
        ContiguousChunkData_getEntry c rawIndex = Ok (mkEntry None))
  /\ exists source' blob,
      save (ContiguousData c) source = Ok source'
      /\ source' !! to_string id = Some blob
      /\ ChunkDataFactory_create schema id maxPoints blob
         = Ok (ContiguousData c).
Proof.
  intros HET Hid Hpos Hend Hsize c.
  pose proof (pointSize_nonneg schema) as Hps.
  assert (Hwf : ContiguousChunkData_wf c).
  { constructor; cbn; try lia.
    - apply emptyPoints_length. lia.
    - rewrite length_replicate. lia. }
  split; [exact Hwf|]. split.
  { intros rawIndex Hr. unfold ContiguousChunkData_getEntry, normalize.
    cbn [c contiguous_base ContiguousChunkData_new m_id m_maxPoints
         c_entries makeEmpty fst].
    rewrite (wrap_small (id + maxPoints)) by lia.
    destruct (rawIndex <? id) eqn:E1; [apply Z.ltb_lt in E1; lia|].
    destruct (rawIndex <? id + maxPoints) eqn:E2;
      [|apply Z.ltb_ge in E2; lia].
    cbn [negb mbind result_bind]. rewrite wrap_small by lia.
    rewrite lookup_replicate_2 by lia. reflexivity. }
  assert (Hslice : slice_bytes c id (id + maxPoints) = c_data c).
  { unfold slice_bytes. cbn [c contiguous_base ContiguousChunkData_new m_id
                             m_schema].
    rewrite Z.sub_diag, Z.mul_0_l. cbn [Z.to_nat drop]. apply firstn_all2.
    destruct Hwf as [_ _ _ Hdata _ _]. cbn in Hdata.
    replace (id + maxPoints - id) with maxPoints by lia.
    cbn [c_data c ContiguousChunkData_new makeEmpty snd m_schema
         m_maxPoints]. lia. }
  exists (Source_put source (to_string id)
            (compress (c_data c) schema ++ [ChunkType_char Contiguous])),
         (compress (c_data c) schema ++ [ChunkType_char Contiguous]).
  split.
  { unfold save. cbn [base_of write]. unfold endId.
    cbn [c contiguous_base ContiguousChunkData_new m_id m_maxPoints].
    rewrite wrap_small by lia.
    rewrite (contiguous_write_slice c source id (id + maxPoints) Hwf);
      [|cbn; lia|cbn; lia].
    rewrite Hslice. reflexivity. }
  split; [apply lookup_insert_eq|].
  unfold ChunkDataFactory_create. rewrite getChunkType_snoc.
  change (ChunkType_char Contiguous) with Byte.x01.
  change (Byte.eqb Byte.x01 Byte.x00) with false.
  change (Byte.eqb Byte.x01 Byte.x01) with true. cbn [mbind result_bind].
  rewrite contiguous_load_compressed;
    [|lia|destruct Hwf as [_ _ _ Hdata _ _]; exact Hdata|exact Hsize].
  cbn [fmap result_fmap]. do 2 f_equal. unfold c, ContiguousChunkData_new.
  cbn [makeEmpty fst snd m_schema m_maxPoints]. f_equal.
  apply map_seq_replicate. intros i Hi. unfold loaded_entry.
  pose proof (emptyPoints_absent maxPoints i ltac:(lia)) as Habs.
  cbv zeta in Habs. cbv zeta. cbn [c_data]. rewrite Habs. reflexivity.
Qed.

End ContiguousProps.

Lemma sample_contiguous_wf :
  ContiguousChunkData_wf (PV := byte_PointView) sample_contiguous.
Proof. constructor; vm_compute; first [reflexivity|discriminate]. Qed.

Lemma ff_EmptyTableOk :
  EmptyTableOk (H := byte_PointView) (H0 := ff_EmptyTable) xy_schema.
Proof.
  constructor.
  - intros n Hn. cbn [emptyPoints ff_EmptyTable].
    rewrite length_replicate. change (pointSize xy_schema) with 2. lia.
  - intros n i Hi. cbv zeta. cbn [emptyPoints ff_EmptyTable].
    change (pointSize xy_schema) with 2. rewrite drop_replicate.
    destruct (Z.to_nat (n * 2) - i * Z.to_nat 2)%nat as [|[|k]] eqn:E;
      [lia|lia|].
    reflexivity.
Qed.

Section ContiguousWitnesses.
#[local] Existing Instance identity_Compression.
#[local] Existing Instance byte_PointView.
#[local] Existing Instance ff_EmptyTable.

Lemma contiguous_load_getEntry_witness :
  let blob := c_data sample_contiguous in
  let c :=
    mkContiguousChunkData (mkChunkDataBase xy_schema 4 4)
      (map (loaded_entry xy_schema blob) (seq 0 4)) blob in
  ContiguousChunkData_load xy_schema 4 4 blob = Ok c
  /\ ContiguousChunkData_getEntry c 6
     = if (4 <=? 6) && (6 <? 4 + 4)
       then Ok (loaded_entry xy_schema (c_data c) (Z.to_nat (6 - 4)))
       else Err Undefined.
Proof.
  intros blob c.
  assert (Hload : ContiguousChunkData_load xy_schema 4 4 blob = Ok c)
    by (vm_compute; reflexivity).
  split; [exact Hload|].
  apply (contiguous_load_getEntry xy_schema 4 4 blob c 6 Hload);
    vm_compute; first [reflexivity|discriminate].
Defined.

Lemma contiguous_slice_roundtrip_witness :
  let c := sample_contiguous in
  let schema := xy_schema in
  let slice := slice_bytes c 6 8 in
  ContiguousChunkData_wf c
  /\ exists source' blob,
      write (ContiguousData c) ∅ 6 8 = Ok source'
      /\ source' !! to_string 6 = Some blob
      /\ ChunkDataFactory_create schema 6 (8 - 6) blob
         = Ok (ContiguousData
                 (mkContiguousChunkData
                    (mkChunkDataBase schema 6 (8 - 6))
                    (map (loaded_entry schema slice)
                         (seq 0 (Z.to_nat (8 - 6))))
                    slice)).
Proof.
  intros c schema slice. split; [exact sample_contiguous_wf|].
  apply (contiguous_slice_roundtrip (CmpOk := identity_CompressionOk)
           sample_contiguous ∅ 6 8 sample_contiguous_wf);
    split; vm_compute; first [reflexivity|discriminate].
Defined.

Lemma contiguous_reader_keeps_payload_witness :
  let c := sample_contiguous in
  let r := mkContiguousReader 4 xy_schema (compress (c_data c) xy_schema) in
  ContiguousChunkData_wf c
  /\ 0 < m_maxPoints (contiguous_base c)
  /\ exists source' blob,
      save (ContiguousData c) ∅ = Ok source'
      /\ source' !! to_string 4 = Some blob
      /\ ChunkReader_create 4 xy_schema blob = Ok (ContiguousReaderOf r)
      /\ ContiguousReader_getData r 4 = Ok (compress (c_data c) xy_schema).
Proof.
  intros c r. split; [exact sample_contiguous_wf|].
  split; [vm_compute; reflexivity|].
  apply (contiguous_reader_keeps_payload sample_contiguous ∅
           sample_contiguous_wf).
  vm_compute. reflexivity.
Defined.

Lemma fresh_contiguous_roundtrip_witness :
  let c := ContiguousChunkData_new xy_schema 0 4 in
  EmptyTableOk xy_schema
  /\ ContiguousChunkData_wf c
  /\ (forall rawIndex, 0 <= rawIndex < 0 + 4 ->
        ContiguousChunkData_getEntry c rawIndex = Ok (mkEntry None))
  /\ exists source' blob,
      save (ContiguousData c) ∅ = Ok source'
      /\ source' !! to_string 0 = Some blob
      /\ ChunkDataFactory_create xy_schema 0 4 blob = Ok (ContiguousData c).
Proof.
  intros c. split; [exact ff_EmptyTableOk|].
  apply (fresh_contiguous_roundtrip (CmpOk := identity_CompressionOk)
           xy_schema 0 4 ∅ ff_EmptyTableOk);
    vm_compute; first [reflexivity|discriminate].
Defined.
End ContiguousWitnesses.

(** ** finalize: ids, untouched blobs and a zero step *)

Section FinalizeMore.
Context `{Cmp : Compression} `{PV : PointView}.

Lemma finalize_as_write_ranges (fuel : nat) (c : ChunkData)
    (source : Source) (ids : list Z) (start chunkPoints : Z) :
  0 <= m_id (base_of c) ->
  0 <= m_maxPoints (base_of c) ->
  0 <= start ->
  0 < chunkPoints ->
  m_id (base_of c) + m_maxPoints (base_of c) + chunkPoints <= 2 ^ 64 ->
  (slice_count (Z.max start (m_id (base_of c))) (endId (base_of c))
     chunkPoints <= fuel)%nat ->
  finalize fuel c source ids start chunkPoints
  = write_ranges c (finalize_ranges (base_of c) start chunkPoints)
      (source, ids).
Proof.
  intros Hid Hmax Hstart Hcp Hfit Hfuel.
  unfold finalize_ranges, finalize. rewrite write_ranges_app.
  assert (Hend : endId (base_of c) + chunkPoints <= 2 ^ 64)
    by (unfold endId; rewrite wrap_small by lia; lia).
  destruct (m_id (base_of c) <? start).
  - cbn [write_ranges fst snd].
    destruct (write c source (m_id (base_of c)) start);
      cbn [mbind result_bind]; [|reflexivity].
    apply finalize_loop_slices; try assumption; try reflexivity; lia.
  - cbn [write_ranges mbind result_bind].
    apply finalize_loop_slices; try assumption; try reflexivity; lia.
Qed.

Lemma slices_begins (n : nat) :
  forall id cp,
    0 < cp ->
    StronglySorted Z.lt (slices n id cp).*1
    /\ Forall (fun i => id <= i) (slices n id cp).*1.
Proof.
  induction n as [|n IH]; intros id cp Hcp; cbn [slices fmap list_fmap fst].
  - split; constructor.
  - destruct (IH (id + cp) cp Hcp) as [Hs Hall]. split.
    + constructor; [exact Hs|].
      eapply Forall_impl; [exact Hall|]. intros i Hi. cbn beta in Hi. lia.
    + constructor; [lia|].
      eapply Forall_impl; [exact Hall|]. intros i Hi. cbn beta in Hi. lia.
Qed.

Lemma finalize_ranges_begins (b : ChunkDataBase) (start cp : Z) :
  0 < cp ->
  StronglySorted Z.lt (finalize_ranges b start cp).*1
  /\ Forall (fun i => m_id b <= i) (finalize_ranges b start cp).*1.
Proof.
  intros Hcp. unfold finalize_ranges. rewrite fmap_app.
  destruct (slices_begins (slice_count (Z.max start (m_id b)) (endId b) cp)
              (Z.max start (m_id b)) cp Hcp) as [Hs Hall].
  destruct (m_id b <? start) eqn:E; cbn [fmap list_fmap fst app].
  - apply Z.ltb_lt in E. split.
    + constructor; [exact Hs|].
      eapply Forall_impl; [exact Hall|]. intros i Hi. cbn beta in Hi. lia.
    + constructor; [lia|].
      eapply Forall_impl; [exact Hall|]. intros i Hi. cbn beta in Hi. lia.
  - split; [exact Hs|].
    eapply Forall_impl; [exact Hall|]. intros i Hi. cbn beta in Hi. lia.
Qed.

Lemma write_ranges_frame c rs :
  forall st st' name,
    write_ranges c rs st = Ok st' ->
    name ∉ to_string <$> rs.*1 ->
    st'.1 !! name = st.1 !! name.
Proof.
  induction rs as [|[b e] rs IH]; intros st st' name H Hname.
  - inversion H; subst. reflexivity.
  - cbn [write_ranges] in H.
    destruct (write c st.1 b e) as [s|] eqn:Hw; [|discriminate].
    cbn [mbind result_bind] in H.
    cbn [fmap list_fmap fst] in Hname.
    apply not_elem_of_cons in Hname as [Hne Hname].
    rewrite (IH _ _ name H Hname). cbn [fst].
    apply write_put in Hw as [blob ->]. unfold Source_put.
    apply lookup_insert_ne. congruence.
Qed.

(** X12.  A successful [finalize] (positive [chunkPoints], no overflow)
    appends to [ids] a strictly increasing run of raw indices, none below
    the chunk's id, and leaves every blob whose name is not one of those
    indices exactly as it was. *)
Theorem finalize_ids_ascending (fuel : nat) (c : ChunkData)
    (source source' : Source) (ids ids' : list Z) (start chunkPoints : Z) :
  0 <= m_id (base_of c) ->
  0 <= m_maxPoints (base_of c) ->
  0 <= start ->
  0 < chunkPoints ->
  m_id (base_of c) + m_maxPoints (base_of c) + chunkPoints <= 2 ^ 64 ->
  (slice_count (Z.max start (m_id (base_of c))) (endId (base_of c))
     chunkPoints <= fuel)%nat ->
  finalize fuel c source ids start chunkPoints = Ok (source', ids') ->
  exists new,
    ids' = ids ++ new
    /\ StronglySorted Z.lt new
    /\ Forall (fun i => m_id (base_of c) <= i) new
    /\ forall name, name ∉ to_string <$> new ->
                    source' !! name = source !! name.
Proof.
  intros Hid Hmax Hstart Hcp Hfit Hfuel Hok.
  rewrite finalize_as_write_ranges in Hok by assumption.
  exists (finalize_ranges (base_of c) start chunkPoints).*1.
  destruct (finalize_ranges_begins (base_of c) start chunkPoints Hcp)
    as [Hs Hall].
  split; [eapply write_ranges_ids; exact Hok|].
  split; [exact Hs|]. split; [exact Hall|].
  intros name Hname.
  exact (write_ranges_frame c _ _ _ name Hok Hname).
Qed.

Lemma finalize_loop_zero (c : ChunkData) (id : Z) :
  0 <= id < endId (base_of c) ->
  forall fuel st r, finalize_loop fuel c 0 id st <> Ok r.
Proof.
  intros Hid. pose proof (wrap_range (m_id (base_of c)
                                      + m_maxPoints (base_of c))) as Hend.
  fold (endId (base_of c)) in Hend.
  induction fuel as [|fuel IH]; intros st r; cbn [finalize_loop];
    destruct (id <? endId (base_of c)) eqn:E;
    try (apply Z.ltb_ge in E; lia); [discriminate|].
  rewrite Z.add_0_r, (wrap_small id) by lia.
  destruct (write c st.1 id id); cbn [mbind result_bind];
    [apply IH|discriminate].
Qed.

(** X13.  With [chunkPoints = 0] and raw indices left to write, the loop of
    [finalize] never advances: whatever the fuel, the call does not return
    normally (it keeps writing the range at the same id, unless a write
    fails). *)
Theorem finalize_zero_chunkPoints_never_returns (fuel : nat) (c : ChunkData)
    (source : Source) (ids : list Z) (start : Z)
    (r : Source * list Z) :
  0 <= m_id (base_of c) ->
  Z.max start (m_id (base_of c)) < endId (base_of c) ->
  finalize fuel c source ids start 0 <> Ok r.
Proof.
  intros Hid Hwork. unfold finalize.
  destruct (if m_id (base_of c) <? start then _ else _) as [st|];
    cbn [mbind result_bind]; [|discriminate].
  apply finalize_loop_zero. lia.
Qed.
End FinalizeMore.

Section FinalizeMoreWitness.
#[local] Existing Instance identity_Compression.
#[local] Existing Instance byte_PointView.

Lemma finalize_ids_ascending_witness :
  let c := SparseData sample_cold in
  let source' :=
    Source_put
      (Source_put ∅ "8"%string
         ((store_u64 9 ++ [Byte.x01; Byte.x02]) ++ store_u64 2 ++ [Byte.x00]))
      "12"%string
      ((store_u64 13 ++ [Byte.x03; Byte.x04]) ++ store_u64 2 ++ [Byte.x00]) in
  finalize 2 c ∅ [] 0 4 = Ok (source', [8; 12])
  /\ exists new,
      [8; 12] = [] ++ new
      /\ StronglySorted Z.lt new
      /\ Forall (fun i => m_id (base_of c) <= i) new
      /\ forall name, name ∉ to_string <$> new ->
                      source' !! name = (∅ : Source) !! name.
Proof.
  intros c source'.
  assert (Hok : finalize 2 c ∅ [] 0 4 = Ok (source', [8; 12]))
    by (vm_compute; reflexivity).
  split; [exact Hok|].
  apply (finalize_ids_ascending 2 c ∅ source' [] [8; 12] 0 4);
    try exact Hok; vm_compute; try reflexivity; try discriminate; lia.
Defined.

Lemma finalize_zero_chunkPoints_never_returns_witness :
  0 <= m_id (base_of (SparseData sample_cold))
  /\ Z.max 0 (m_id (base_of (SparseData sample_cold)))
     < endId (base_of (SparseData sample_cold))
  /\ finalize 50 (SparseData sample_cold) ∅ [] 0 0 <> Ok (∅, []).
Proof.
  assert (H1 : 0 <= m_id (base_of (SparseData sample_cold)))
    by (vm_compute; discriminate).
  assert (H2 : Z.max 0 (m_id (base_of (SparseData sample_cold)))
               < endId (base_of (SparseData sample_cold)))
    by (vm_compute; reflexivity).
  split; [exact H1|]. split; [exact H2|].
  exact (finalize_zero_chunkPoints_never_returns 50 (SparseData sample_cold)
           ∅ [] 0 (∅, []) H1 H2).
Defined.
End FinalizeMoreWitness.

(** ** The chunk reader: what it stores and what it hands out *)

Section ChunkReaderMore.
Import ChunkReaderCpp.
Context `{TG : TickGeometry} `{SS : !StdSort} `{SOk : !StdSortOk}.

(** X14.  The constructor keeps every decoded point exactly once: the
    stored records are a permutation of the [numPoints] records of the
    payload, each carrying the offset of its bytes and the tick computed
    from its point, the metadata's cubic bounds and the chunk's depth. *)
Theorem ChunkReader_ctor_keeps_points (metadata : Metadata) (id depth : Z)
    (data : list byte) (r : ChunkReader) :
  ChunkReader_ctor metadata id depth data = Ok r ->
  exists bytes numPoints,
    md_unpack metadata data = Ok (bytes, numPoints)
    /\ m_data r = bytes
    /\ m_depth r = depth
    /\ m_bounds r = md_boundsScaledCubic metadata
    /\ length (m_points r) = Z.to_nat numPoints
    /\ Permutation (m_points r)
         (map (fun i : nat =>
                 let pos := (i * Z.to_nat (pointSize (md_schema metadata)))%nat in
                 let point := readPoint (md_schema metadata) (drop pos bytes) in
                 mkPointInfo (Some point) (Some pos)
                   (calcTick point (md_boundsScaledCubic metadata) depth))
              (seq 0 (Z.to_nat numPoints))).
Proof.
  unfold ChunkReader_ctor. intros H.
  destruct (md_unpack metadata data) as [[bytes numPoints]|];
    cbn [mbind result_bind] in H; [|discriminate].
  match type of H with (if ?t then _ else _) = _ => destruct t end;
    [discriminate|].
  inversion H; subst r. clear H. exists bytes, numPoints.
  cbn [m_data m_depth m_bounds m_points].
  repeat (split; [reflexivity|]). split.
  - rewrite (Permutation_length (std_sort_perm _)).
    rewrite length_map, length_seq. reflexivity.
  - apply std_sort_perm.
Qed.

(** X15.  For query bounds whose minimum tick does not exceed the maximum
    tick, [candidates] returns a valid iterator range (begin before end,
    end within the array) and the records between the two iterators are
    exactly the stored records with tick in the closed interval, in stored
    order. *)
Theorem candidates_window (metadata : Metadata) (id depth : Z)
    (data : list byte) (r : ChunkReader) (B : Bounds) :
  ChunkReader_ctor metadata id depth data = Ok r ->
  let lo := calcTick (Bounds_min B) (m_bounds r) (m_depth r) in
  let hi := calcTick (Bounds_max B) (m_bounds r) (m_depth r) in
  let range := candidates r B in
  lo <= hi ->
  (range_begin range <= range_end range <= length (m_points r))%nat
  /\ take (range_end range - range_begin range)
          (drop (range_begin range) (m_points r))
     = filter (fun p => lo <= pi_tick p <= hi) (m_points r).
Proof.
  intros Hctor lo hi range Hle.
  pose proof (ctor_points_sorted _ _ _ _ _ Hctor) as Hsorted.
  assert (Hb : range_begin range
               = partition_point (fun e => (pi_tick e <? lo)%Z) (m_points r))
    by reflexivity.
  assert (He : range_end range
               = partition_point (fun e => (pi_tick e <=? hi)%Z) (m_points r)).
  { cbn [range candidates range_end]. unfold upper_bound.
    apply partition_point_ext. intros x. unfold PointInfo_lt.
    cbn [pi_tick PointInfo_key]. fold hi.
    destruct (hi <? pi_tick x) eqn:E1, (pi_tick x <=? hi) eqn:E2;
      try reflexivity; lia. }
  assert (Hmono : (range_begin range <= range_end range)%nat).
  { rewrite Hb, He. apply partition_point_mono. intros x Hx.
    apply Z.ltb_lt in Hx. apply Z.leb_le. lia. }
  split.
  - split; [exact Hmono|]. rewrite He. clear.
    induction (m_points r) as [|x l IH]; cbn [partition_point length]; [lia|].
    destruct (pi_tick x <=? hi); lia.
  - rewrite Hb, He in *.
    apply (sorted_window pi_tick lo hi (m_points r)); assumption.
Qed.
End ChunkReaderMore.

Section ChunkReaderMoreWitness.
Import ChunkReaderCpp.
#[local] Existing Instance z_TickGeometry.
#[local] Existing Instance insertion_StdSort.

Lemma sample_ctor :
  ChunkReader_ctor sample_metadata 7 1 sample_payload = Ok sample_chunk_reader.
Proof. vm_compute. reflexivity. Defined.

Lemma ChunkReader_ctor_keeps_points_witness :
  ChunkReader_ctor sample_metadata 7 1 sample_payload = Ok sample_chunk_reader
  /\ exists bytes numPoints,
      md_unpack sample_metadata sample_payload = Ok (bytes, numPoints)
      /\ m_data sample_chunk_reader = bytes
      /\ m_depth sample_chunk_reader = 1
      /\ m_bounds sample_chunk_reader = md_boundsScaledCubic sample_metadata
      /\ length (m_points sample_chunk_reader) = Z.to_nat numPoints
      /\ Permutation (m_points sample_chunk_reader)
           (map (fun i : nat =>
                   let pos :=
                     (i * Z.to_nat (pointSize (md_schema sample_metadata)))%nat in
                   let point :=
                     readPoint (md_schema sample_metadata) (drop pos bytes) in
                   mkPointInfo (Some point) (Some pos)
                     (calcTick point (md_boundsScaledCubic sample_metadata) 1))
                (seq 0 (Z.to_nat numPoints))).
Proof.
  split; [exact sample_ctor|].
  exact (ChunkReader_ctor_keeps_points (SOk := insertion_StdSortOk)
           sample_metadata 7 1 sample_payload sample_chunk_reader sample_ctor).
Defined.

Lemma candidates_window_witness :
  let r := sample_chunk_reader in
  let B : Bounds := (1, 3) in
  let lo := calcTick (Bounds_min B) (m_bounds r) (m_depth r) in
  let hi := calcTick (Bounds_max B) (m_bounds r) (m_depth r) in
  let range := candidates r B in
  ChunkReader_ctor sample_metadata 7 1 sample_payload = Ok r
  /\ lo <= hi
  /\ (range_begin range <= range_end range <= length (m_points r))%nat
  /\ take (range_end range - range_begin range)
          (drop (range_begin range) (m_points r))
     = filter (fun p => lo <= pi_tick p <= hi) (m_points r).
Proof.
  intros r B lo hi range.
  assert (Hle : lo <= hi) by (vm_compute; discriminate).
  split; [exact sample_ctor|]. split; [exact Hle|].
  exact (candidates_window (SOk := insertion_StdSortOk)
           sample_metadata 7 1 sample_payload r B sample_ctor Hle).
Defined.
End ChunkReaderMoreWitness.

(** ** The base chunk reader *)

Section BaseChunkReaderProps.
Import ChunkReaderCpp BaseChunkReaderCpp.
Context `{Cmp : Compression} `{TG : TickGeometry} `{CT : !CelledTable}.

Lemma place_records_groups (celledSchema : Schema) (data : list byte)
    (positions : list nat) :
  forall tubes tubes',
    place_records celledSchema data positions tubes = Ok tubes' ->
    length tubes' = length tubes
    /\ Forall (fun rec => rec.1 < Z.of_nat (length tubes))
         (map (record_at celledSchema data) positions)
    /\ forall t : nat,
        tubes' !! t
        = (fun old =>
             old ++ map snd
                      (filter (fun rec => rec.1 = Z.of_nat t)
                              (map (record_at celledSchema data) positions)))
          <$> tubes !! t.
Proof.
  induction positions as [|pos positions IH]; intros tubes tubes' H.
  - inversion H; subst. split; [reflexivity|]. split; [constructor|].
    intros t. cbn [map]. rewrite filter_nil. cbn [map].
    destruct (tubes' !! t) as [old|]; cbn [fmap option_fmap option_map];
      [rewrite app_nil_r|]; reflexivity.
  - cbn [place_records] in H. unfold place in H.
    set (rec := record_at celledSchema data pos) in *.
    assert (Hnonneg : 0 <= rec.1) by (cbn [rec record_at fst]; apply wrap_range).
    destruct (Z.of_nat (length tubes) <=? rec.1) eqn:E;
      cbn [mbind result_bind] in H; [discriminate|].
    apply Z.leb_gt in E.
    apply IH in H as (Hlen & Hall & Hlk). rewrite length_alter in Hlen, Hall.
    split; [exact Hlen|]. split; [cbn [map]; constructor; assumption|].
    intros t. rewrite Hlk. cbn [map]. fold rec.
    destruct (decide (t = Z.to_nat rec.1)) as [->|Hne].
    + rewrite list_lookup_alter_eq.
      rewrite filter_cons_True by lia.
      destruct (tubes !! Z.to_nat rec.1) as [old|];
        cbn [fmap option_fmap option_map map]; [|reflexivity].
      rewrite <- app_assoc. reflexivity.
    + rewrite list_lookup_alter_ne by congruence.
      rewrite filter_cons_False by lia. reflexivity.
Qed.

(** X16.  [BaseChunkReader] groups the records of the payload by tube id
    without reordering them: it is built only if every record's tube id is
    below [baseIndexSpan] (otherwise [at] throws), it then has one tube per
    base index, and the tube at an index holds the entries of exactly the
    records with that tube id, in payload order. *)
Theorem BaseChunkReader_groups_by_tube (metadata : BaseMetadata)
    (celledSchema : Schema) (id : Z) (data : list byte)
    (r : BaseChunkReader) :
  BaseChunkReader_ctor metadata celledSchema id data = Ok r ->
  exists raw numPoints,
    bmd_unpackRaw metadata data = Ok (raw, numPoints)
    /\ length (b_tubes r) = Z.to_nat (bmd_baseIndexSpan metadata)
    /\ Forall (fun rec => rec.1 < bmd_baseIndexSpan metadata)
         (records celledSchema (b_data r) numPoints)
    /\ forall t : nat,
        (t < length (b_tubes r))%nat ->
        b_tubes r !! t
        = Some (map snd
                  (filter (fun rec => rec.1 = Z.of_nat t)
                          (records celledSchema (b_data r) numPoints))).
Proof.
  unfold BaseChunkReader_ctor. intros H.
  destruct (bmd_unpackRaw metadata data) as [[raw numPoints]|];
    cbn [mbind result_bind] in H; [|discriminate].
  destruct (if bmd_compress metadata then _ else _) as [m_data|];
    cbn [mbind result_bind] in H; [|discriminate].
  match type of H with (if ?t then _ else _) = _ => destruct t end;
    [discriminate|].
  destruct (place_records celledSchema m_data _ _) as [tubes|] eqn:Hp;
    cbn [mbind result_bind] in H; [|discriminate].
  inversion H; subst r. clear H. cbn [b_tubes b_data].
  apply place_records_groups in Hp as (Hlen & Hall & Hlk).
  rewrite length_replicate in Hlen, Hall.
  exists raw, numPoints. split; [reflexivity|]. split; [exact Hlen|]. split.
  - unfold records. apply Forall_forall. intros rec Hin.
    rewrite Forall_forall in Hall. specialize (Hall rec Hin).
    apply list_elem_of_fmap in Hin as (pos & -> & _).
    cbn [record_at fst] in *.
    pose proof (wrap_range (readTubeId celledSchema (drop pos m_data))).
    lia.
  - intros t Ht. rewrite Hlk. unfold records.
    rewrite lookup_replicate_2 by lia. reflexivity.
Qed.
End BaseChunkReaderProps.

Section BaseChunkReaderWitness.
Import ChunkReaderCpp BaseChunkReaderCpp.
#[local] Existing Instance identity_Compression.
#[local] Existing Instance celled_z_TickGeometry.
#[local] Existing Instance le_CelledTable.

Lemma BaseChunkReader_groups_by_tube_witness :
  let r := sample_base_reader in
  BaseChunkReader_ctor sample_base_metadata celled_z_schema 0
    sample_base_payload = Ok r
  /\ exists raw numPoints,
      bmd_unpackRaw sample_base_metadata sample_base_payload
      = Ok (raw, numPoints)
      /\ length (b_tubes r) = Z.to_nat (bmd_baseIndexSpan sample_base_metadata)
      /\ Forall (fun rec => rec.1 < bmd_baseIndexSpan sample_base_metadata)
           (records celled_z_schema (b_data r) numPoints)
      /\ forall t : nat,
          (t < length (b_tubes r))%nat ->
          b_tubes r !! t
          = Some (map snd
                    (filter (fun rec => rec.1 = Z.of_nat t)
                            (records celled_z_schema (b_data r) numPoints))).
Proof.
  intros r.
  assert (Hctor : BaseChunkReader_ctor sample_base_metadata celled_z_schema 0
                    sample_base_payload = Ok r) by (vm_compute; reflexivity).
  split; [exact Hctor|].
  exact (BaseChunkReader_groups_by_tube sample_base_metadata celled_z_schema
           0 sample_base_payload r Hctor).
Defined.
End BaseChunkReaderWitness.

(** ** The records a query emits *)

Section EmitProps.
Import QueryCpp.
Context `{PO : PointOps} `{POk : !PointOpsOk} `{QD : !QueryDeps}.

Lemma field_bytes_spec cfg data dim :
  field_bytes cfg data dim = spec_field cfg data dim.
Proof.
  unfold field_bytes, spec_field, dim_id, dim_type_of, Dimension_size.
  cbn [snd]. destruct (m_normalize cfg); cbn [negb]; [|reflexivity].
  assert (Hsz : (Z.of_N (dim_size dim) =? 4) = (dim_size dim =? 4)%N).
  { destruct (N.eqb_spec (dim_size dim) 4) as [E|E].
    - rewrite E. reflexivity.
    - apply Z.eqb_neq. lia. }
  rewrite Hsz.
  destruct (dim_size dim =? 4)%N; cbn [negb];
    [rewrite andb_true_r|rewrite andb_false_r; reflexivity].
  destruct (String.eqb_spec (dim_name dim) "X") as [EX|EX].
  { rewrite (bool_decide_eq_true_2 _ EX). reflexivity. }
  rewrite (bool_decide_eq_false_2 _ EX).
  destruct (String.eqb_spec (dim_name dim) "Y") as [EY|EY].
  { rewrite (bool_decide_eq_true_2 _ EY). reflexivity. }
  rewrite (bool_decide_eq_false_2 _ EY).
  destruct (String.eqb_spec (dim_name dim) "Z") as [EZ|EZ].
  { rewrite (bool_decide_eq_true_2 _ EZ). reflexivity. }
  rewrite (bool_decide_eq_false_2 _ EZ). reflexivity.
Qed.

Lemma output_record_spec cfg data :
  output_record cfg data = spec_record cfg data.
Proof.
  unfold output_record, spec_record. f_equal. apply map_ext.
  intros dim. apply field_bytes_spec.
Qed.

(** X17.  The record [processPoint] appends for a point inside the query
    bounds is the one the specification describes: in output-schema order,
    each field as the point table returns it, except that a normalizing
    query emits an X, Y or Z of byte size 4 as the four bytes of the float
    [value - mid], [mid] being the matching coordinate of the midpoint of
    the reader's bounds.  The record has [pointSize] bytes, and a query
    that does not normalize copies every field. *)
Theorem processPoint_record (info : PointInfo) (q : Query)
    (buffer : list byte) :
  m_buffer q = Some buffer ->
  BBox_contains (m_qbox (config q)) (pi_point info) = true ->
  processPoint info q
  = Ret true
      (set_buffer
         (Some (buffer ++ spec_record (config q) (pi_data info)))
         (set_table (Some (pi_data info)) q))
  /\ Z.of_nat (length (spec_record (config q) (pi_data info)))
     = pointSize (m_outSchema (config q))
  /\ (m_normalize (config q) = false ->
      spec_record (config q) (pi_data info)
      = concat (map (fun dim =>
                       getField (pi_data info) (dim_id dim) (dim_type_of dim))
                    (dims (m_outSchema (config q))))).
Proof.
  intros Hbuf Hin. rewrite <- output_record_spec.
  split; [apply processPoint_inside; assumption|].
  split; [apply length_fields|].
  intros Hn. unfold output_record. f_equal. apply map_ext. intros dim.
  unfold field_bytes. rewrite Hn. reflexivity.
Qed.
End EmitProps.

Section ProcessPointRecordWitness.
Import QueryCpp.
#[local] Existing Instance z_PointOps.

Lemma processPoint_record_witness :
  let schema :=
    mkSchema [mkDimInfo "Z"%string "floating"%string 4;
              mkDimInfo "Z"%string "unsigned"%string 1] in
  let cfg :=
    mkQueryConfig (m_reader sample_config) sample_structure (0, 8) 0 4
      schema true in
  let q := mkQuery cfg [] None O 0 true false (Some [Byte.x07]) None [] in
  let info := sample_info 7 in
  spec_record cfg (pi_data info)
  = [Byte.x03; Byte.x00; Byte.x00; Byte.x00; Byte.x07]
  /\ processPoint info q
     = Ret true
         (set_buffer
            (Some ([Byte.x07] ++ spec_record (config q) (pi_data info)))
            (set_table (Some (pi_data info)) q))
  /\ Z.of_nat (length (spec_record (config q) (pi_data info)))
     = pointSize (m_outSchema (config q))
  /\ (m_normalize (config q) = false ->
      spec_record (config q) (pi_data info)
      = concat (map (fun dim =>
                       getField (pi_data info) (dim_id dim) (dim_type_of dim))
                    (dims (m_outSchema (config q))))).
Proof.
  intros schema cfg q info. split; [vm_compute; reflexivity|].
  exact (processPoint_record (POk := z_PointOpsOk) info q [Byte.x07]
           eq_refl eq_refl).
Defined.
End ProcessPointRecordWitness.

(** ** What a call of next leaves in the buffer *)

Section EmittedProps.
Import QueryCpp.
Context `{PO : PointOps} `{POk : !PointOpsOk} `{QD : !QueryDeps}.

Lemma wrap_add_l a b : wrap (wrap a + b) = wrap (a + b).
Proof. unfold wrap. apply Zplus_mod_idemp_l. Qed.

Lemma logged_points_app (t1 t2 : list event) :
  logged_points (t1 ++ t2) = logged_points t1 ++ logged_points t2.
Proof. apply omap_app. Qed.

Lemma selected_app cfg l1 l2 :
  selected cfg (l1 ++ l2) = selected cfg l1 ++ selected cfg l2.
Proof. apply List.filter_app. Qed.

Lemma output_records_app cfg l1 l2 :
  output_records cfg (l1 ++ l2)
  = output_records cfg l1 ++ output_records cfg l2.
Proof.
  unfold output_records. rewrite selected_app, List.map_app, concat_app.
  reflexivity.
Qed.

Lemma emitted_refl q b : m_buffer q = Some b -> emitted q q [].
Proof.
  intros Hb. split; [reflexivity|].
  split; [rewrite app_nil_r; reflexivity|]. split.
  - cbn [logged_points omap list_omap selected List.filter length].
    rewrite Z.add_0_r. reflexivity.
  - exists b. split; [exact Hb|]. rewrite Hb, app_nil_r. reflexivity.
Qed.

Lemma emitted_trans q0 q1 q2 n1 n2 :
  emitted q0 q1 n1 -> emitted q1 q2 n2 -> emitted q0 q2 (n1 ++ n2).
Proof.
  intros (Hc1 & Ht1 & Hn1 & b0 & Hb0 & Hb1)
         (Hc2 & Ht2 & Hn2 & b1 & Hb1' & Hb2).
  rewrite Hc1 in *. rewrite Hb1 in Hb1'. injection Hb1' as <-.
  split; [congruence|].
  split; [rewrite Ht2, Ht1, app_assoc; reflexivity|]. split.
  - rewrite Hn2, logged_points_app, selected_app, length_app, Nat2Z.inj_add.
    rewrite <- wrap_add_l, Hn1, wrap_add_l. f_equal. lia.
  - exists b0. split; [exact Hb0|].
    rewrite Hb2, logged_points_app, output_records_app, app_assoc.
    reflexivity.
Qed.

Lemma emitted_buffer q0 q new :
  emitted q0 q new -> exists b, m_buffer q = Some b.
Proof. intros (_ & _ & _ & b0 & _ & Hb). eauto. Qed.

Lemma emitted_same q0 q q' new :
  config q' = config q -> trace q' = trace q ->
  m_numPoints q' = m_numPoints q -> m_buffer q' = m_buffer q ->
  emitted q0 q new -> emitted q0 q' new.
Proof.
  intros Hc Ht Hn Hb (H1 & H2 & H3 & b0 & H4 & H5). unfold emitted.
  rewrite Hc, Ht, Hn, Hb. eauto 10.
Qed.

Lemma emitted_same_l q0 q0' q new :
  config q0' = config q0 -> trace q0' = trace q0 ->
  m_numPoints q0' = m_numPoints q0 -> m_buffer q0' = m_buffer q0 ->
  emitted q0' q new -> emitted q0 q new.
Proof.
  intros Hc Ht Hn Hb (H1 & H2 & H3 & b0 & H4 & H5). unfold emitted.
  rewrite <- Hc, <- Ht, <- Hn, <- Hb. eauto 10.
Qed.

Lemma emitted_log_tube q b index :
  m_buffer q = Some b -> emitted q (log (EvTube index) q) [EvTube index].
Proof.
  intros Hb. split; [reflexivity|]. split; [reflexivity|]. split.
  - cbn [logged_points omap list_omap selected List.filter length log
         m_numPoints].
    rewrite Z.add_0_r. reflexivity.
  - exists b. split; [exact Hb|]. cbn [log m_buffer]. rewrite Hb, app_nil_r.
    reflexivity.
Qed.

Lemma countPoint_emitted index info q b r q' :
  m_buffer q = Some b ->
  countPoint index info q = Ret r q' ->
  emitted q q' [EvPoint index info].
Proof.
  intros Hb H. unfold countPoint in H.
  destruct (BBox_contains (m_qbox (config q)) (pi_point info)) eqn:Hin.
  - rewrite (processPoint_inside info (log (EvPoint index info) q) b Hb Hin)
      in H.
    cbn [bind] in H. injection H as <- <-.
    split; [reflexivity|]. split; [reflexivity|]. split.
    + cbn [logged_points omap list_omap selected List.filter].
      rewrite Hin. cbn [length set_numPoints set_buffer set_table log
                        m_numPoints].
      change (Z.of_nat 1) with 1. unfold wrap. apply Z.mod_mod. lia.
    + exists b. split; [exact Hb|]. unfold output_records.
      cbn [logged_points omap list_omap selected List.filter].
      rewrite Hin. cbn [map concat]. rewrite app_nil_r. reflexivity.
  - rewrite (processPoint_outside info (log (EvPoint index info) q) b Hb Hin)
      in H.
    cbn [bind] in H. injection H as <- <-.
    split; [reflexivity|]. split; [reflexivity|]. split.
    + cbn [logged_points omap list_omap selected List.filter].
      rewrite Hin. cbn [length log m_numPoints]. rewrite Z.add_0_r.
      reflexivity.
    + exists b. split; [exact Hb|]. unfold output_records.
      cbn [logged_points omap list_omap selected List.filter].
      rewrite Hin. cbn [map concat log m_buffer]. rewrite Hb, app_nil_r.
      reflexivity.
Qed.

Lemma countPoints_emitted index infos :
  forall flag q b r q',
    m_buffer q = Some b ->
    countPoints index infos flag q = Ret r q' ->
    emitted q q' (map (EvPoint index) infos).
Proof.
  induction infos as [|info infos IH]; intros flag q b r q' Hb H.
  - cbn [countPoints] in H. injection H as <- <-.
    exact (emitted_refl q b Hb).
  - cbn [countPoints] in H.
    destruct (countPoint index info q) as [inside q1|e q1] eqn:Hc;
      cbn [bind] in H; [|discriminate].
    pose proof (countPoint_emitted _ _ _ _ _ _ Hb Hc) as E1.
    destruct (emitted_buffer _ _ _ E1) as [b1 Hb1].
    pose proof (IH _ _ _ _ _ Hb1 H) as E2.
    exact (emitted_trans _ _ _ [EvPoint index info] _ E1 E2).
Qed.

Lemma getBase_loop_emitted base :
  forall fuel splitter flag q b r q',
    m_buffer q = Some b ->
    getBase_loop fuel base splitter flag q = Ret r q' ->
    exists new, emitted q q' new.
Proof.
  induction fuel as [|fuel IH]; intros splitter flag q b r q' Hb H;
    [discriminate|].
  cbn [getBase_loop] in H.
  destruct (SplitClimber_index splitter) as [index|]; [|discriminate].
  pose proof (emitted_log_tube q b index Hb) as E0.
  assert (Hb0 : m_buffer (log (EvTube index) q) = Some b) by exact Hb.
  destruct (Tube_empty (base index)); cbn [negb] in H.
  - cbn [bind] in H.
    destruct (SplitClimber_next splitter true) as [more sp].
    destruct more.
    + destruct (IH _ _ _ _ _ _ Hb0 H) as [new E2].
      eexists. exact (emitted_trans _ _ _ _ _ E0 E2).
    + injection H as <- <-. eexists. exact E0.
  - destruct (primaryCell (base index)) as [primary|]; [|discriminate].
    destruct (countPoints index (primary :: map snd (secondaryCells (base index)))
                flag (log (EvTube index) q)) as [ex q2|e q2] eqn:Hc;
      cbn [bind] in H; [|discriminate].
    pose proof (countPoints_emitted _ _ _ _ _ _ _ Hb0 Hc) as E1.
    pose proof (emitted_trans _ _ _ _ _ E0 E1) as E01.
    destruct (SplitClimber_next splitter false) as [more sp].
    destruct more.
    + destruct (emitted_buffer _ _ _ E1) as [b2 Hb2].
      destruct (IH _ _ _ _ _ _ Hb2 H) as [new E2].
      eexists. exact (emitted_trans _ _ _ _ _ E01 E2).
    + injection H as <- <-. eexists. exact E01.
Qed.

Lemma getBase_emitted fuel q b r q' :
  m_buffer q = Some b ->
  getBase fuel q = Ret r q' ->
  exists new, emitted q q' new.
Proof.
  intros Hb H. unfold getBase in H.
  assert (Hstay : forall r0, @Ret PO bool r0 q = Ret r q' ->
                             exists new, emitted q q' new).
  { intros r0 E. injection E as <- <-. exists []. exact (emitted_refl q b Hb). }
  destruct (reader_base (m_reader (config q))) as [base|]; [|eauto].
  destruct ((m_depthBegin (config q) <? baseDepthEnd (m_structure (config q)))
            && (baseDepthBegin (m_structure (config q)) <? m_depthEnd (config q)));
    [|eauto].
  destruct (SplitClimber_index _) as [index|]; [|discriminate].
  destruct (index <? baseIndexBegin (m_structure (config q))); [eauto|].
  exact (getBase_loop_emitted _ _ _ _ _ _ _ _ Hb H).
Qed.

Lemma getChunked_emitted q b r q' :
  m_buffer q = Some b ->
  getChunked q = Ret r q' ->
  exists new, emitted q q' new.
Proof.
  intros Hb H. unfold getChunked in H.
  match type of H with
  | context [match ?t with Some _ => _ | None => Ret tt _ end] =>
      match t with m_block ?q1 => remember q1 as q1' eqn:Hq1 end
  end.
  assert (Hsame : config q1' = config q /\ trace q1' = trace q
                  /\ m_numPoints q1' = m_numPoints q
                  /\ m_buffer q1' = m_buffer q).
  { subst q1'. destruct (m_block q); [repeat split|].
    destruct (0 <? length (m_chunks q))%nat; [|repeat split].
    destruct (Cache_acquire _ _); repeat split. }
  clear Hq1. destruct Hsame as (Sc & St & Sn & Sb).
  assert (Hb1 : m_buffer q1' = Some b) by congruence.
  destruct (m_block q1') as [block|].
  - destruct (block !! m_chunkReaderIt q1') as [[id [cr|]]|];
      [|discriminate|discriminate].
    destruct (countPoints id (map snd (candidates cr (m_qbox (config q1'))))
                false q1') as [ex q2|e q2] eqn:Hc;
      cbn [bind] in H; [|discriminate].
    pose proof (countPoints_emitted _ _ _ _ _ _ _ Hb1 Hc) as E1.
    injection H as _ <-. eexists.
    apply (emitted_same_l q q1'); [assumption..|].
    eapply emitted_same; [| | | |exact E1];
      match goal with |- context [if ?c then _ else _] => destruct c end;
      reflexivity.
  - injection H as _ <-. exists [].
    apply (emitted_same_l q q1'); [assumption..|].
    eapply emitted_same; [| | | |exact (emitted_refl q1' b Hb1)]; reflexivity.
Qed.

Lemma BaseQuery_next_result fuel q r q' :
  BaseQuery_next fuel q = Ret r q' -> r = negb (m_done q').
Proof.
  unfold BaseQuery_next. destruct (m_done q); [discriminate|].
  match goal with |- bind ?body _ = _ -> _ => destruct body as [u q1|e q1] end;
    cbn [bind]; [|discriminate].
  intros H. injection H as <- <-. reflexivity.
Qed.

Lemma BaseQuery_next_emitted fuel q b r q' :
  m_buffer q = Some b ->
  BaseQuery_next fuel q = Ret r q' ->
  exists new, emitted q q' new.
Proof.
  intros Hb H. unfold BaseQuery_next in H.
  destruct (m_done q); [discriminate|].
  destruct (m_base q).
  - destruct (getBase fuel (set_base false q)) as [d q1|e q1] eqn:Hg;
      cbn [bind] in H; [|discriminate].
    destruct (getBase_emitted fuel (set_base false q) b d q1 Hb Hg)
      as [new1 E1].
    apply (emitted_same_l q) in E1; [|reflexivity..].
    destruct d; cbn [negb] in H.
    + cbn [bind] in H. injection H as _ <-. eauto.
    + destruct (bool_decide (m_chunks q1 = [])).
      * cbn [bind] in H. injection H as _ <-. exists new1.
        eapply emitted_same; [| | | |exact E1]; reflexivity.
      * destruct (getChunked q1) as [u q2|e q2] eqn:Hc;
          cbn [bind] in H; [|discriminate].
        injection H as _ <-.
        destruct (emitted_buffer _ _ _ E1) as [b1 Hb1].
        destruct (getChunked_emitted q1 b1 u q2 Hb1 Hc) as [new2 E2].
        eexists. exact (emitted_trans _ _ _ _ _ E1 E2).
  - destruct (getChunked q) as [u q2|e q2] eqn:Hc;
      cbn [bind] in H; [|discriminate].
    injection H as _ <-. exact (getChunked_emitted q b u q2 Hb Hc).
Qed.

(** X18.  When [Query::next] returns, the caller's buffer holds exactly the
    records of the points the call handed to [processPoint] that lie inside
    the query bounds, in the order they were processed, and [m_numPoints]
    has advanced by their number (modulo 2^64). *)
Theorem Query_next_fills_buffer (fuel : nat) (buffer : list byte)
    (q q' : Query) (r : bool) :
  Query_next fuel buffer q = Ret r q' ->
  config q' = config q
  /\ exists new,
      trace q' = trace q ++ new
      /\ m_buffer q'
         = Some (output_records (config q) (logged_points new))
      /\ wrap (m_numPoints q')
         = wrap (m_numPoints q
                 + Z.of_nat (length (selected (config q)
                                       (logged_points new)))).
Proof.
  intros H. unfold Query_next in H.
  destruct buffer as [|x buffer]; [|discriminate].
  cbn [length Nat.ltb Nat.leb] in H.
  destruct (BaseQuery_next_emitted fuel (set_buffer (Some []) q) [] r q'
              eq_refl H) as (new & Hc & Ht & Hn & b0 & Hb0 & Hb).
  cbn [set_buffer config trace m_numPoints m_buffer] in *.
  injection Hb0 as <-. split; [exact Hc|]. exists new.
  split; [exact Ht|]. split; [exact Hb|exact Hn].
Qed.

(** X19.  The value [Query::next] returns is the negation of [m_done] as
    the call leaves it; so once a call has returned false, the following
    call raises "Called next after query completed", for any fuel, with the
    buffer it was given installed and nothing else changed. *)
Theorem next_false_is_final (fuel : nat) (buffer : list byte)
    (q q' : Query) (r : bool) :
  Query_next fuel buffer q = Ret r q' ->
  m_done q' = negb r
  /\ (r = false ->
      forall fuel',
        Query_next fuel' [] q'
        = Raise (Throw "Called next after query completed"%string)
            (set_buffer (Some []) q')).
Proof.
  intros H. unfold Query_next in H.
  destruct (0 <? length buffer)%nat; [discriminate|].
  apply BaseQuery_next_result in H.
  assert (Hd : m_done q' = negb r) by (subst r; symmetry; apply negb_involutive).
  split; [exact Hd|]. intros -> fuel'. cbn [negb] in Hd.
  unfold Query_next, BaseQuery_next. cbn [length Nat.ltb Nat.leb set_buffer m_done].
  rewrite Hd. reflexivity.
Qed.
End EmittedProps.

Section NextBufferWitness.
Import QueryCpp.
#[local] Existing Instance z_PointOps.
#[local] Existing Instance sample_QueryDeps.

Lemma Query_next_fills_buffer_witness :
  let o := Query_next 10 [] sample_query in
  let q' := final_state o in
  o = Ret true q'
  /\ config q' = config sample_query
  /\ exists new,
      trace q' = trace sample_query ++ new
      /\ m_buffer q'
         = Some (output_records (config sample_query) (logged_points new))
      /\ wrap (m_numPoints q')
         = wrap (m_numPoints sample_query
                 + Z.of_nat (length (selected (config sample_query)
                                       (logged_points new)))).
Proof.
  intros o q'.
  assert (H : o = Ret true q') by (vm_compute; reflexivity).
  split; [exact H|].
  exact (Query_next_fills_buffer (POk := z_PointOpsOk) 10 [] sample_query q'
           true H).
Defined.

Lemma next_false_is_final_witness :
  let q := set_base false sample_query in
  let o := Query_next 1 [] q in
  let q' := final_state o in
  o = Ret false q'
  /\ m_done q' = negb false
  /\ (false = false ->
      forall fuel',
        Query_next fuel' [] q'
        = Raise (Throw "Called next after query completed"%string)
            (set_buffer (Some []) q')).
Proof.
  intros q o q'.
  assert (H : o = Ret false q') by (vm_compute; reflexivity).
  split; [exact H|].
  exact (next_false_is_final 1 [] q q' false H).
Defined.
End NextBufferWitness.

(** ** The traversal state across the passes *)

Section ControlProps.
Import QueryCpp.
Context `{PO : PointOps} `{QD : !QueryDeps}.

Lemma same_control_refl q : same_control q q.
Proof. repeat split. Qed.

Lemma same_control_trans q1 q2 q3 :
  same_control q1 q2 -> same_control q2 q3 -> same_control q1 q3.
Proof.
  intros (A1 & A2 & A3 & A4 & A5 & A6) (B1 & B2 & B3 & B4 & B5 & B6).
  repeat split; congruence.
Qed.

Lemma processPoint_control info q :
  same_control q (final_state (processPoint info q)).
Proof.
  unfold processPoint. destruct (m_buffer q); [|apply same_control_refl].
  destruct (BBox_contains _ _); [|apply same_control_refl].
  match goal with |- context [write_dims ?c ?d ?ds ?b ?p] =>
    destruct (write_dims c d ds b p) end; repeat split.
Qed.

Lemma countPoint_control index info q :
  same_control q (final_state (countPoint index info q)).
Proof.
  unfold countPoint.
  pose proof (processPoint_control info (log (EvPoint index info) q)) as H.
  destruct (processPoint info (log (EvPoint index info) q))
    as [inside q1|e q1]; cbn [bind final_state] in *.
  - destruct inside; exact H.
  - exact H.
Qed.

Lemma countPoints_control index infos :
  forall flag q,
    same_control q (final_state (countPoints index infos flag q)).
Proof.
  induction infos as [|info infos IH]; intros flag q;
    [apply same_control_refl|].
  cbn [countPoints].
  pose proof (countPoint_control index info q) as H.
  destruct (countPoint index info q) as [inside q1|e q1];
    cbn [bind final_state] in *; [|exact H].
  exact (same_control_trans _ _ _ H (IH _ _)).
Qed.

Lemma getBase_loop_control base :
  forall fuel splitter flag q,
    same_control q (final_state (getBase_loop fuel base splitter flag q)).
Proof.
  induction fuel as [|fuel IH]; intros splitter flag q;
    [apply same_control_refl|].
  cbn [getBase_loop].
  destruct (SplitClimber_index splitter) as [index|];
    [|apply same_control_refl].
  assert (H0 : same_control q (log (EvTube index) q)) by repeat split.
  destruct (Tube_empty (base index)); cbn [negb].
  - cbn [bind].
    destruct (SplitClimber_next splitter true) as [more sp].
    destruct more; [|exact H0].
    exact (same_control_trans _ _ _ H0 (IH _ _ _)).
  - destruct (primaryCell (base index)) as [primary|]; [|exact H0].
    pose proof (countPoints_control index
                  (primary :: map snd (secondaryCells (base index)))
                  flag (log (EvTube index) q)) as H1.
    destruct (countPoints index _ flag (log (EvTube index) q))
      as [ex q2|e q2]; cbn [bind final_state] in *.
    + pose proof (same_control_trans _ _ _ H0 H1) as H01.
      destruct (SplitClimber_next splitter false) as [more sp].
      destruct more; [|exact H01].
      exact (same_control_trans _ _ _ H01 (IH _ _ _)).
    + exact (same_control_trans _ _ _ H0 H1).
Qed.

Lemma getBase_control fuel q :
  same_control q (final_state (getBase fuel q)).
Proof.
  unfold getBase.
  destruct (reader_base (m_reader (config q))) as [base|];
    [|apply same_control_refl].
  destruct (_ && _); [|apply same_control_refl].
  destruct (SplitClimber_index _) as [index|]; [|apply same_control_refl].
  destruct (index <? _); [apply same_control_refl|].
  apply getBase_loop_control.
Qed.

Lemma drop_batch {A} (l : list A) :
  drop (Z.to_nat (Z.min fetchesPerIteration (Z.of_nat (length l)))) l
  = drop (Z.to_nat fetchesPerIteration) l.
Proof.
  destruct (Z.le_gt_cases fetchesPerIteration (Z.of_nat (length l))) as [H|H].
  - rewrite Z.min_l by exact H. reflexivity.
  - rewrite Z.min_r by lia. rewrite Nat2Z.id.
    rewrite !drop_ge by lia. reflexivity.
Qed.

Lemma finish_done (qf : Query) :
  negb (bool_decide (is_Some (m_block qf))) && bool_decide (m_chunks qf = [])
  = true
  <-> m_block qf = None /\ m_chunks qf = [].
Proof.
  rewrite andb_true_iff, negb_true_iff, bool_decide_eq_false,
    bool_decide_eq_true, <- eq_None_not_Some.
  reflexivity.
Qed.

(** X20.  [getChunked] with no active block takes the next (at most
    [fetchesPerIteration]) fetch infos off [m_chunks] whether or not the
    cache hands back a block, and with an active block leaves [m_chunks]
    alone; this holds for the state it ends in even when it raises.  When
    it returns, [m_done] is set exactly when no block is active and no
    chunk is pending, and [m_base] is as it was. *)
Theorem getChunked_consumes_batch (q q' : Query) :
  m_chunks (final_state (getChunked q))
  = match m_block q with
    | None => drop (Z.to_nat fetchesPerIteration) (m_chunks q)
    | Some _ => m_chunks q
    end
  /\ (getChunked q = Ret tt q' ->
      (m_done q' = true <-> m_block q' = None /\ m_chunks q' = [])
      /\ m_base q' = m_base q).
Proof.
  unfold getChunked.
  match goal with
  | |- context [match ?t with Some _ => _ | None => Ret tt _ end] =>
      match t with m_block ?q1 => remember q1 as q1' eqn:Hq1 end
  end.
  assert (Hpre : m_chunks q1'
                 = match m_block q with
                   | None => drop (Z.to_nat fetchesPerIteration) (m_chunks q)
                   | Some _ => m_chunks q
                   end
                 /\ m_base q1' = m_base q).
  { subst q1'. destruct (m_block q); [split; reflexivity|].
    destruct (0 <? length (m_chunks q))%nat eqn:E.
    - destruct (Cache_acquire _ _);
        cbn [set_chunkReaderIt set_chunks set_block m_chunks m_base];
        (split; [apply drop_batch|reflexivity]).
    - apply Nat.ltb_ge in E. split; [|reflexivity].
      rewrite drop_ge by lia.
      destruct (m_chunks q); [reflexivity|cbn [length] in E; lia]. }
  clear Hq1. destruct Hpre as [Hchunks Hbase]. rewrite <- Hchunks, <- Hbase.
  clear Hchunks Hbase.
  destruct (m_block q1') as [block|] eqn:Hblk.
  - destruct (block !! m_chunkReaderIt q1') as [[id [cr|]]|];
      [|split; [reflexivity|discriminate]..].
    pose proof (countPoints_control id
                  (map snd (candidates cr (m_qbox (config q1'))))
                  false q1') as (_ & Hc & _ & _ & Hb & _).
    destruct (countPoints id _ false q1') as [ex q2|e q2];
      cbn [bind final_state] in *.
    + split.
      * rewrite <- Hc.
        match goal with |- context [if ?c then _ else _] => destruct c end;
          reflexivity.
      * intros H. injection H as <-. rewrite <- Hb. split.
        -- cbn [set_done m_done m_block m_chunks]. apply finish_done.
        -- match goal with |- context [if ?c then _ else _] => destruct c end;
             reflexivity.
    + split; [exact Hc|discriminate].
  - split; [reflexivity|]. intros H. injection H as <-. split.
    + cbn [set_done m_done m_block m_chunks negb andb].
      rewrite Hblk, bool_decide_eq_true. tauto.
    + reflexivity.
Qed.

Lemma getChunked_base q :
  m_base (final_state (getChunked q)) = m_base q.
Proof.
  unfold getChunked.
  match goal with
  | |- context [match ?t with Some _ => _ | None => Ret tt _ end] =>
      match t with m_block ?q1 => remember q1 as q1' eqn:Hq1 end
  end.
  assert (Hpre : m_base q1' = m_base q).
  { subst q1'. destruct (m_block q); [reflexivity|].
    destruct (0 <? length (m_chunks q))%nat; [|reflexivity].
    destruct (Cache_acquire _ _); reflexivity. }
  clear Hq1. rewrite <- Hpre. clear Hpre.
  destruct (m_block q1') as [block|]; [|reflexivity].
  destruct (block !! m_chunkReaderIt q1') as [[id [cr|]]|]; [|reflexivity..].
  pose proof (countPoints_control id
                (map snd (candidates cr (m_qbox (config q1'))))
                false q1') as (_ & _ & _ & _ & Hb & _).
  destruct (countPoints id _ false q1') as [ex q2|e q2];
    cbn [bind final_state] in *; [|exact Hb].
  rewrite <- Hb.
  match goal with |- context [if ?c then _ else _] => destruct c end;
    reflexivity.
Qed.

Lemma getChunked_trace q :
  exists id infos,
    trace (final_state (getChunked q)) = trace q ++ map (EvPoint id) infos.
Proof.
  unfold getChunked.
  match goal with
  | |- context [match ?t with Some _ => _ | None => Ret tt _ end] =>
      match t with m_block ?q1 => remember q1 as q1' eqn:Hq1 end
  end.
  assert (Hpre : trace q1' = trace q).
  { subst q1'. destruct (m_block q); [reflexivity|].
    destruct (0 <? length (m_chunks q))%nat; [|reflexivity].
    destruct (Cache_acquire _ _); reflexivity. }
  clear Hq1. rewrite <- Hpre. clear Hpre.
  assert (Hnone : forall q2 : Query, trace q2 = trace q1' ->
            exists (id : Z) (infos : list PointInfo),
              trace q2 = trace q1' ++ map (EvPoint id) infos).
  { intros q2 E. exists 0, []. rewrite E, app_nil_r. reflexivity. }
  destruct (m_block q1') as [block|]; [|apply Hnone; reflexivity].
  destruct (block !! m_chunkReaderIt q1') as [[id [cr|]]|];
    [|apply Hnone; reflexivity..].
  clear Hnone.
  generalize (map snd (candidates cr (m_qbox (config q1')))). intros infos.
  assert (Hpts : forall infos flag q2,
            exists done,
              trace (final_state (countPoints id infos flag q2))
              = trace q2 ++ map (EvPoint id) done).
  { clear. induction infos as [|info infos IH]; intros flag q2.
    - exists []. cbn. rewrite app_nil_r. reflexivity.
    - cbn [countPoints].
      destruct (countPoint_trace id info q2) as [Ht _].
      destruct (countPoint id info q2) as [inside q3|e q3];
        cbn [bind final_state] in *.
      + destruct (IH (inside || flag) q3) as [done Hd].
        exists (info :: done). rewrite Hd, Ht, <- app_assoc. reflexivity.
      + exists [info]. exact Ht. }
  destruct (Hpts infos false q1') as [done Hd].
  exists id, done.
  destruct (countPoints id infos false q1') as [ex q2|e q2];
    cbn [bind final_state] in *; [|exact Hd].
  rewrite <- Hd.
  match goal with |- context [if ?c then _ else _] => destruct c end;
    reflexivity.
Qed.

(** X21.  The base is traversed by the first call only: whatever state a
    call of [BaseQuery::next] on a query that is not done ends in, [m_base]
    is false there; and a call with [m_base] false fetches no base tube,
    the events it logs being points of one chunk. *)
Theorem base_pass_runs_once (fuel : nat) (q : Query) :
  m_done q = false ->
  m_base (final_state (BaseQuery_next fuel q)) = false
  /\ (m_base q = false ->
      exists id infos,
        trace (final_state (BaseQuery_next fuel q))
        = trace q ++ map (EvPoint id) infos).
Proof.
  intros Hdone. unfold BaseQuery_next. rewrite Hdone.
  destruct (m_base q) eqn:Hbase.
  - split; [|discriminate].
    pose proof (getBase_control fuel (set_base false q))
      as (_ & _ & _ & _ & Hb & _).
    cbn [set_base m_base] in Hb.
    destruct (getBase fuel (set_base false q)) as [d q1|e q1];
      cbn [bind final_state] in *; [|exact Hb].
    destruct d; cbn [negb bind final_state]; [exact Hb|].
    destruct (bool_decide (m_chunks q1 = []));
      cbn [bind final_state set_done m_base]; [exact Hb|].
    pose proof (getChunked_base q1) as Hc.
    destruct (getChunked q1) as [u q2|e q2];
      cbn [bind final_state] in *; congruence.
  - pose proof (getChunked_base q) as Hc.
    pose proof (getChunked_trace q) as Ht.
    destruct (getChunked q) as [u q2|e q2];
      cbn [bind final_state] in *; (split; [congruence|intros _; exact Ht]).
Qed.
End ControlProps.

Section ControlWitness.
Import QueryCpp.
#[local] Existing Instance z_PointOps.
#[local] Existing Instance sample_QueryDeps.

Lemma getChunked_consumes_batch_witness :
  let pending := map (fun i => mkFetchInfo i 1 1) [11; 12; 13; 14; 15] in
  let q := set_chunks pending (set_base false sample_query) in
  let q' := final_state (getChunked q) in
  getChunked q = Ret tt q'
  /\ m_chunks q' = [mkFetchInfo 15 1 1]
  /\ m_chunks (final_state (getChunked q))
     = match m_block q with
       | None => drop (Z.to_nat fetchesPerIteration) (m_chunks q)
       | Some _ => m_chunks q
       end
  /\ (getChunked q = Ret tt q' ->
      (m_done q' = true <-> m_block q' = None /\ m_chunks q' = [])
      /\ m_base q' = m_base q).
Proof.
  intros pending q q'.
  split; [vm_compute; reflexivity|]. split; [vm_compute; reflexivity|].
  exact (getChunked_consumes_batch q q').
Defined.

Lemma base_pass_runs_once_witness :
  let reader := mkChunkReader (fun _ => [(1, sample_info 3)]) in
  let q :=
    set_block (Some [(7, Some reader)])
      (set_base false (set_buffer (Some []) sample_query)) in
  m_done q = false
  /\ m_base q = false
  /\ m_base (final_state (BaseQuery_next 10 q)) = false
  /\ (m_base q = false ->
      exists id infos,
        trace (final_state (BaseQuery_next 10 q))
        = trace q ++ map (EvPoint id) infos).
Proof.
  intros reader q. split; [reflexivity|]. split; [reflexivity|].
  exact (base_pass_runs_once 10 q eq_refl).
Defined.
End ControlWitness.
